(** * Darkob live user-activity panel: a shallow embedding of [darkob_panel.py]

    The development follows the order of the Python module: text primitives
    of the Python runtime, the line parser and the user-key normaliser, the
    aggregation index, the broadcaster, the bounded full scan, the backward
    file reader with the historical paginator, and the stats endpoint. *)

From Stdlib Require Import ZArith NArith Lia List.
From Stdlib.Strings Require Import Ascii String Byte.
From stdpp Require Import gmap list strings.
From stdpp Require Import sorting.

Local Open Scope Z_scope.
#[local] Set Warnings "-clear-no-such-hyp".

(** ** Python text

    A Python [str] is a sequence of Unicode code points; a [bytes] object is
    a sequence of bytes. *)

Abbreviation char := N (only parsing).
Abbreviation str := (list N) (only parsing).
Abbreviation bytes := (list byte) (only parsing).

#[global] Instance byte_eq_decision : EqDecision byte := byte_eq_dec.

(** String and bytes literals of the source. *)
Definition lit (s : string) : str := N_of_ascii <$> list_ascii_of_string s.
Definition blit (s : string) : bytes := list_byte_of_string s.

Definition LF : char := 10%N.
Definition BAR : char := 124%N.
Definition DOT : char := 46%N.
Definition bLF : byte := "010"%byte.

Definition in_range (lo hi c : N) : bool := (lo <=? c)%N && (c <=? hi)%N.

(** [str.isspace] for one character, which is also the class [\s] of [re]
    on [str] patterns: the white space table of CPython. *)
Definition is_space (c : char) : bool :=
  in_range 9 13 c || in_range 28 32 c || (c =? 133)%N || (c =? 160)%N
  || (c =? 5760)%N || in_range 8192 8202 c || (c =? 8232)%N
  || (c =? 8233)%N || (c =? 8239)%N || (c =? 8287)%N || (c =? 12288)%N.

Definition is_ascii_digit (c : char) : bool := in_range 48 57 c.

(** What the Python runtime brings and the module does not define: the
    Unicode tables behind [\d] and [str.isdigit] above U+007F, and the UTF-8
    codec with [errors="ignore"].  The laws are the facts of the Unicode
    standard the module relies on: a decimal digit is not white space, and
    ASCII bytes decode to themselves. *)
Class PyRuntime := {
  unicode_decimal : char → bool;
  unicode_digit : char → bool;
  utf8_ignore : bytes → str;
  unicode_decimal_not_space c :
    unicode_decimal c = true → is_space c = false;
  utf8_ignore_ascii bs :
    Forall (λ b, (Byte.to_N b < 128)%N) bs → utf8_ignore bs = Byte.to_N <$> bs
}.

Section Text.
Context `{PyRuntime}.

(** The class [\d] of [re] on a [str] pattern. *)
Definition is_decimal (c : char) : bool :=
  if (c <? 128)%N then is_ascii_digit c else unicode_decimal c.

(** One character of [str.isdigit]. *)
Definition is_digit_char (c : char) : bool :=
  if (c <? 128)%N then is_ascii_digit c else unicode_digit c.

(** [s.isdigit()]: every character is a digit and there is at least one. *)
Definition isdigit (s : str) : bool :=
  match s with
  | [] => false
  | _ => forallb is_digit_char s
  end.

(** [b.decode("utf-8", errors="ignore")]. *)
Definition decode (b : bytes) : str := utf8_ignore b.
End Text.

(** [s.lstrip()], [s.rstrip()], [s.strip()] with no argument. *)
Fixpoint lstrip (s : str) : str :=
  match s with
  | c :: s' => if is_space c then lstrip s' else s
  | [] => []
  end.

Definition rstrip (s : str) : str := reverse (lstrip (reverse s)).

Definition strip (s : str) : str := rstrip (lstrip s).

(** [s.rstrip("\n")]. *)
Fixpoint lstrip_lf (s : str) : str :=
  match s with
  | c :: s' => if (c =? LF)%N then lstrip_lf s' else s
  | [] => []
  end.

Definition rstrip_lf (s : str) : str := reverse (lstrip_lf (reverse s)).

(** [s.find(c)] for a one-character needle: the first index, or [-1]. *)
Fixpoint find (c : char) (s : str) : Z :=
  match s with
  | [] => -1
  | x :: s' =>
      if (x =? c)%N then 0
      else let i := find c s' in if i <? 0 then -1 else i + 1
  end.

(** Slices [s[:i]] and [s[i:]] for [0 <= i]. *)
Definition slice_to {A} (i : Z) (s : list A) : list A := take (Z.to_nat i) s.
Definition slice_from {A} (i : Z) (s : list A) : list A := drop (Z.to_nat i) s.

(** Truth value of a string: it is not empty. *)
Definition truthy {A} (s : list A) : bool :=
  match s with [] => false | _ => true end.

(** Comparison of two [str]: lexicographic on code points. *)
Fixpoint str_ltb (a b : str) : bool :=
  match a, b with
  | _, [] => false
  | [], _ :: _ => true
  | x :: a', y :: b' =>
      if (x <? y)%N then true
      else if (x =? y)%N then str_ltb a' b' else false
  end.

Definition str_gtb (a b : str) : bool := str_ltb b a.
Definition str_geb (a b : str) : bool := negb (str_ltb a b).
Definition str_leb (a b : str) : bool := negb (str_ltb b a).

(** [s.split(sep)] for a one-element separator: never empty. *)
Fixpoint split {A} `{EqDecision A} (sep : A) (s : list A) : list (list A) :=
  match s with
  | [] => [[]]
  | x :: s' =>
      if decide (x = sep) then [] :: split sep s'
      else match split sep s' with
           | seg :: segs => (x :: seg) :: segs
           | [] => [[x]]
           end
  end.

(** ** Regular expressions, as far as [RE_MATCHED] uses them

    The pattern is a sequence of items; every repetition of the pattern
    ranges over a one-character class.  [run] lists the complete matches in
    the order in which the backtracking search of [re] meets them: a greedy
    repetition tries the longest run first, a lazy one the shortest.  The
    match [re] reports is the first of the list. *)

Inductive item :=
  | Chr (c : char)
  | Rep (cls : char → bool) (lo : nat) (hi : option nat) (greedy : bool)
  | Open (g : nat)
  | Close (g : nat)
  | Bol
  | Eol.

(** A match in progress: where each open group started, and the span
    [(start, end)] of each closed group. *)
Record spans := {
  opened : list (nat * nat);
  closed : list (nat * (nat * nat))
}.

Definition no_spans : spans := {| opened := []; closed := [] |}.

Fixpoint assoc {V} (g : nat) (l : list (nat * V)) : option V :=
  match l with
  | [] => None
  | (g', v) :: l' => if (g =? g')%nat then Some v else assoc g l'
  end.

Definition open_group (g pos : nat) (m : spans) : spans :=
  {| opened := (g, pos) :: opened m; closed := closed m |}.

Definition close_group (g pos : nat) (m : spans) : spans :=
  match assoc g (opened m) with
  | Some start => {| opened := opened m; closed := (g, (start, pos)) :: closed m |}
  | None => m
  end.

Definition below (hi : option nat) (n : nat) : bool :=
  match hi with
  | Some h => (n <? h)%nat
  | None => true
  end.

Section Repetition.
Context (cls : char → bool) (lo : nat) (hi : option nat).

(** The ways to go on after a repetition of which [n] characters are
    already taken: what is left of the subject and the index reached, in
    the order of the search. *)
Fixpoint greedy_runs (n : nat) (rest : str) (pos : nat)
    : list (str * nat) :=
  let stop := if (lo <=? n)%nat then [(rest, pos)] else [] in
  match rest with
  | c :: rest' =>
      if cls c && below hi n
      then greedy_runs (S n) rest' (S pos) ++ stop
      else stop
  | [] => stop
  end.

Fixpoint lazy_runs (n : nat) (rest : str) (pos : nat)
    : list (str * nat) :=
  let stop := if (lo <=? n)%nat then [(rest, pos)] else [] in
  match rest with
  | c :: rest' =>
      if cls c && below hi n
      then stop ++ lazy_runs (S n) rest' (S pos)
      else stop
  | [] => stop
  end.
End Repetition.

Fixpoint run (re : list item) (rest : str) (pos : nat) (m : spans)
    : list spans :=
  match re with
  | [] => [m]
  | Chr c :: re' =>
      match rest with
      | x :: rest' => if (x =? c)%N then run re' rest' (S pos) m else []
      | [] => []
      end
  | Rep cls lo hi greedy :: re' =>
      let runs := if greedy then greedy_runs cls lo hi 0 rest pos
                  else lazy_runs cls lo hi 0 rest pos in
      runs ≫= λ to, run re' to.1 to.2 m
  | Open g :: re' => run re' rest pos (open_group g pos m)
  | Close g :: re' => run re' rest pos (close_group g pos m)
  | Bol :: re' => if (pos =? 0)%nat then run re' rest pos m else []
  | Eol :: re' =>
      (* end of the string, or just before a final line feed *)
      match rest with
      | [] => run re' rest pos m
      | [c] => if (c =? LF)%N then run re' rest pos m else []
      | _ => []
      end
  end.

(** [pattern.match(s)]: the match is anchored at index 0. *)
Definition re_match (re : list item) (s : str) : option spans :=
  head (run re s 0%nat no_spans).

(** [m.group(g)] on the subject string [s]; every group of [RE_MATCHED]
    takes part in every match. *)
Definition group (s : str) (m : spans) (g : nat) : str :=
  match assoc g (closed m) with
  | Some (a, b) => take (b - a) (drop a s)
  | None => []
  end.

(** ** The line parser *)

Record event := { ts : str; user : str; host : str }.

#[global] Instance event_eq_decision : EqDecision event.
Proof. solve_decision. Defined.

Section Parser.
Context `{PyRuntime}.

Definition star (cls : char → bool) : item := Rep cls 0 None true.
Definition exactly (n : nat) (cls : char → bool) : item :=
  Rep cls n (Some n) true.
Definition not_bar (c : char) : bool := negb (c =? BAR)%N.
(** [.] without [re.DOTALL]: anything but a line feed. *)
Definition dot (c : char) : bool := negb (c =? LF)%N.

(** [^\s*(\d{4}-\d{2}-\d{2} \d{2}:\d{2}:\d{2})\s*\|\s*([^|]+?)\s*\|\s*(.+)\s*$] *)
Definition RE_MATCHED : list item :=
  [ Bol; star is_space;
    Open 1;
      exactly 4 is_decimal; Chr 45; exactly 2 is_decimal; Chr 45;
      exactly 2 is_decimal; Chr 32;
      exactly 2 is_decimal; Chr 58; exactly 2 is_decimal; Chr 58;
      exactly 2 is_decimal;
    Close 1;
    star is_space; Chr BAR; star is_space;
    Open 2; Rep not_bar 1 None false; Close 2;
    star is_space; Chr BAR; star is_space;
    Open 3; Rep dot 1 None true; Close 3;
    star is_space; Eol ].

Definition UNKNOWN : str := lit "UNKNOWN".

Definition parse_line (line : str) : option event :=
  match re_match RE_MATCHED line with
  | None => None
  | Some m =>
      let ts := group line m 1 in
      let user := strip (group line m 2) in
      let host := strip (group line m 3) in
      if negb (truthy user) then None
      else Some {| ts := ts; user := user;
                   host := if truthy host then host else UNKNOWN |}
  end.

(** ** The user-key normaliser *)
Definition base_user (u : str) : str :=
  if negb (truthy u) then u
  else
    let i := find DOT u in
    if 0 <? i then
      let left := slice_to i u in
      let right := slice_from (i + 1) u in
      if isdigit left then right else u
    else u.
End Parser.

(** A runtime that knows ASCII only, to run the definitions on literals. *)
#[global, refine] Instance ascii_runtime : PyRuntime := {|
  unicode_decimal := λ _, false;
  unicode_digit := λ _, false;
  utf8_ignore := λ bs, Byte.to_N <$> filter (λ b, (Byte.to_N b < 128)%N) bs
|}.
Proof.
  - discriminate.
  - intros bs Hbs. f_equal. induction Hbs as [|b bs Hb _ IH]; [done|].
    rewrite filter_cons_True; [|done]. by rewrite IH.
Defined.

(** ** The aggregation index *)

(** Settings the module reads from the process environment at import. *)
Class Settings := {
  MAX_HOSTS_PER_USER : Z
}.

(** The values used when the environment sets nothing. *)
#[global] Instance default_settings : Settings := {|
  MAX_HOSTS_PER_USER := 200
|}.

(** One value of [AGG]: the dictionary with the keys ["count"], ["last_ts"],
    ["sample_host"], ["variants"] and ["hosts"]. *)
Record aggregate := {
  count : Z;
  last_ts : str;
  sample_host : str;
  variants : gset str;
  hosts : gset str
}.

Definition set_count (n : Z) (a : aggregate) : aggregate :=
  {| count := n; last_ts := last_ts a; sample_host := sample_host a;
     variants := variants a; hosts := hosts a |}.

Definition set_latest (t h : str) (a : aggregate) : aggregate :=
  {| count := count a; last_ts := t; sample_host := h;
     variants := variants a; hosts := hosts a |}.

Definition add_variant (u : str) (a : aggregate) : aggregate :=
  {| count := count a; last_ts := last_ts a; sample_host := sample_host a;
     variants := {[u]} ∪ variants a; hosts := hosts a |}.

Definition add_host (h : str) (a : aggregate) : aggregate :=
  {| count := count a; last_ts := last_ts a; sample_host := sample_host a;
     variants := variants a; hosts := {[h]} ∪ hosts a |}.

Section Index.
Context `{PyRuntime} `{Settings}.

(** The record a first event of a key creates, before the update. *)
Definition seed (ev : event) : aggregate :=
  {| count := 0;
     last_ts := ts ev;
     sample_host := host ev;
     variants := {[user ev]};
     hosts := if truthy (host ev) then {[host ev]} else ∅ |}.

(** The update of the record [a], new or found. *)
Definition update (ev : event) (a : aggregate) : aggregate :=
  let a := set_count (count a + 1) a in
  let a :=
    if negb (truthy (last_ts a)) || str_gtb (ts ev) (last_ts a)
    then set_latest (ts ev) (host ev) a
    else a in
  let a := add_variant (user ev) a in
  if truthy (host ev) && (Z.of_nat (size (hosts a)) <? MAX_HOSTS_PER_USER)
  then add_host (host ev) a
  else a.

Definition _apply_event_to_agg (ev : event) (AGG : gmap str aggregate)
    : gmap str aggregate :=
  let b := base_user (user ev) in
  let a := match AGG !! b with
           | Some a => a
           | None => seed ev
           end in
  <[b := update ev a]> AGG.
End Index.

(** ** The broadcaster *)

(** An [asyncio.Queue]: at most [maxsize] items when [maxsize] is positive,
    any number otherwise. *)
Record queue (M : Type) := {
  maxsize : Z;
  items : list M
}.
Arguments maxsize {M} _.
Arguments items {M} _.

(** Queues are objects: the set of subscribers holds their identities, and
    the store maps an identity to the state of its queue. *)
Record broadcaster (M : Type) := {
  store : gmap nat (queue M);
  subscribers : gset nat
}.
Arguments store {M} _.
Arguments subscribers {M} _.

Section Broadcaster.
Context {M : Type}.

Definition full (q : queue M) : bool :=
  (0 <? maxsize q) && (maxsize q <=? Z.of_nat (length (items q))).

(** [q.put_nowait(msg)]: [None] stands for the exception. *)
Definition put_nowait (msg : M) (q : queue M) : option (queue M) :=
  if full q then None
  else Some {| maxsize := maxsize q; items := items q ++ [msg] |}.

Definition empty_broadcaster : broadcaster M :=
  {| store := ∅; subscribers := ∅ |}.

(** [subscribe] makes a new queue [asyncio.Queue()] and returns it. *)
Definition subscribe (b : broadcaster M) : nat * broadcaster M :=
  let q := fresh (dom (store b)) in
  (q, {| store := <[q := {| maxsize := 0; items := [] |}]> (store b);
         subscribers := {[q]} ∪ subscribers b |}).

Definition unsubscribe (q : nat) (b : broadcaster M) : broadcaster M :=
  {| store := store b; subscribers := subscribers b ∖ {[q]} |}.

(** One turn of the first loop of [broadcast]. *)
Definition offer (msg : M) (acc : gmap nat (queue M) * list nat) (q : nat)
    : gmap nat (queue M) * list nat :=
  match acc.1 !! q ≫= put_nowait msg with
  | Some q' => (<[q := q']> acc.1, acc.2)
  | None => (acc.1, acc.2 ++ [q])
  end.

Definition broadcast (msg : M) (b : broadcaster M) : broadcaster M :=
  if decide (subscribers b = ∅) then b
  else
    let '(st, dead) :=
      foldl (offer msg) (store b, []) (elements (subscribers b)) in
    foldl (λ b q, unsubscribe q b)
          {| store := st; subscribers := subscribers b |} dead.
End Broadcaster.

(** ** The bounded full scan *)

Inductive failure :=
  | FileNotFoundError
  | OtherException (message : str).

(** What the scan meets outside the process: the outcome of [os.stat], the
    outcome of [open], the content of the file at each turn of the
    reading loop (the file may grow while the scan runs), or the exception
    the read raises at that turn, and the number [f.tell()] returns at each
    turn, given the byte offset of the next read.  The file is open in text
    mode, and there [tell] returns a number that stands for the byte offset
    and for the state of the decoder: it is the byte offset on a file of
    ASCII text without carriage returns, and it can be larger otherwise
    (the offset plus [2^64] when a carriage return is pending, an offset
    past bytes that the decoder ignores). *)
Record scan_env := {
  stat_result : failure + Z;
  open_result : option failure;
  visible : nat → failure + bytes;
  tell : nat → Z → Z
}.

(** The setting of the pauses of the scan, read from the process
    environment at import. *)
Class ScanSettings := {
  FULL_SCAN_SLEEP_EVERY : Z
}.

#[global] Instance default_scan_settings : ScanSettings := {|
  FULL_SCAN_SLEEP_EVERY := 3000
|}.

(** [str(e)] for the [ZeroDivisionError] that [%] raises on integers: the
    text depends on the version of Python. *)
Class PyZeroDivision := {
  modulo_by_zero : str
}.

(** The text in Python 3.11. *)
#[global] Instance python_3_11 : PyZeroDivision := {|
  modulo_by_zero := lit "integer modulo by zero"
|}.

(** The four module-level progress variables. *)
Record scan_progress := {
  FULL_SCAN_TOTAL_BYTES : Z;
  FULL_SCAN_READ_BYTES : Z;
  FULL_SCAN_DONE : bool;
  FULL_SCAN_ERR : option str
}.

Definition bCR : byte := "013"%byte.

(** The bytes of the next line of a file opened in text mode with universal
    newlines: the bytes before the terminator, whether a terminator (line
    feed, carriage return, or both in this order) was met, and the number of
    bytes taken. *)
Fixpoint next_line (data : bytes) : bytes * bool * Z :=
  match data with
  | [] => ([], false, 0)
  | b :: data' =>
      if decide (b = bLF) then ([], true, 1)
      else if decide (b = bCR) then
        match data' with
        | b' :: _ => if decide (b' = bLF) then ([], true, 2) else ([], true, 1)
        | [] => ([], true, 1)
        end
      else
        let '(body, term, n) := next_line data' in (b :: body, term, n + 1)
  end.

(** The local state of the reading loop, with the index and the progress
    variable it writes. *)
Record scan_state := {
  scan_agg : gmap str aggregate;
  scan_read : Z;
  scan_applied : Z
}.

Inductive scan_end :=
  | Finished (st : scan_state)
  | Raised (e : failure) (st : scan_state).

Section FullScan.
Context `{PyRuntime} `{Settings} `{ScanSettings} `{PyZeroDivision}.

(** [f.readline()] at byte offset [pos]: the text of the line and the
    offset after it. *)
Definition readline (content : bytes) (pos : Z) : str * Z :=
  let '(body, term, n) := next_line (slice_from pos content) in
  (decode body ++ (if term then [LF] else []), pos + n).

(** What one turn of the loop does with a line that is not empty: the
    progress variable is set, and the event of the line, if it parses,
    is applied and counted; then [applied % FULL_SCAN_SLEEP_EVERY] is
    computed, which raises when the setting is [0].  The pause and the
    log line are left out. *)
Definition scan_line (line : str) (read : Z) (st : scan_state)
    : scan_end + scan_state :=
  match parse_line (rstrip_lf line) with
  | Some ev =>
      let st := {| scan_agg := _apply_event_to_agg ev (scan_agg st);
                   scan_read := read;
                   scan_applied := scan_applied st + 1 |} in
      if FULL_SCAN_SLEEP_EVERY =? 0
      then inl (Raised (OtherException modulo_by_zero) st)
      else inr st
  | None =>
      inr {| scan_agg := scan_agg st;
             scan_read := read;
             scan_applied := scan_applied st |}
  end.

(** The [while True] loop; [turn] counts its turns, and [pos] is the byte
    offset of the next read.  [None]: the loop is still running when the
    fuel is spent. *)
Fixpoint scan_loop (fuel turn : nat) (env : scan_env) (stop_offset pos : Z)
    (st : scan_state) : option scan_end :=
  match fuel with
  | O => None
  | S fuel' =>
      let pos_before := tell env turn pos in
      if stop_offset <=? pos_before then Some (Finished st)
      else
        match visible env turn with
        | inl e => Some (Raised e st)
        | inr content =>
            let '(line, pos) := readline content pos in
            if negb (truthy line) then
              scan_loop fuel' (S turn) env stop_offset pos st
            else
              let read := Z.min pos_before stop_offset in
              match scan_line line read st with
              | inl ended => Some ended
              | inr st => scan_loop fuel' (S turn) env stop_offset pos st
              end
        end
  end.

(** The two [except] clauses. *)
Definition scan_failed (e : failure) (total read : Z) : scan_progress :=
  {| FULL_SCAN_TOTAL_BYTES := total;
     FULL_SCAN_READ_BYTES := read;
     FULL_SCAN_DONE := true;
     FULL_SCAN_ERR :=
       Some match e with
            | FileNotFoundError => lit "log not found"
            | OtherException message => message
            end |}.

(** [full_scan_file]: the index and the progress variables when the
    coroutine returns. *)
Definition full_scan_file (fuel : nat) (env : scan_env)
    (AGG : gmap str aggregate)
    : option (gmap str aggregate * scan_progress) :=
  match stat_result env with
  | inl e => Some (AGG, scan_failed e 0 0)
  | inr st_size =>
      let stop_offset := st_size in
      let total := stop_offset in
      match open_result env with
      | Some e => Some (AGG, scan_failed e total 0)
      | None =>
          let st := {| scan_agg := AGG; scan_read := 0; scan_applied := 0 |} in
          match scan_loop fuel 0 env stop_offset 0 st with
          | None => None
          | Some (Raised e st) =>
              Some (scan_agg st, scan_failed e total (scan_read st))
          | Some (Finished st) =>
              Some (scan_agg st,
                    {| FULL_SCAN_TOTAL_BYTES := total;
                       FULL_SCAN_READ_BYTES := total;
                       FULL_SCAN_DONE := true;
                       FULL_SCAN_ERR := None |})
          end
      end
  end.
End FullScan.

(** ** The backward file reader and the historical paginator *)

(** [f.seek(pos); f.read(size)]. *)
Definition read_at (f : bytes) (pos size : Z) : bytes :=
  if size <? 0 then slice_from pos f else slice_to size (slice_from pos f).

Section History.
Context `{PyRuntime}.

(** The [while pos > 0] loop of the generator: the lines it yields, in
    order, and the buffer it leaves.  [None]: the loop is still running
    when the fuel is spent. *)
Fixpoint backward_loop (fuel : nat) (f : bytes) (chunk_size pos : Z)
    (buffer : bytes) : option (list str * bytes) :=
  if 0 <? pos then
    match fuel with
    | O => None
    | S fuel' =>
        let read_size := Z.min chunk_size pos in
        let pos := pos - read_size in
        let data := read_at f pos read_size in
        let buffer := data ++ buffer in
        (* *lines, buffer = buffer.split(b"\n") *)
        let parts := split bLF buffer in
        let lines := removelast parts in
        let buffer := List.last parts [] in
        match backward_loop fuel' f chunk_size pos buffer with
        | Some (later, buffer) =>
            Some ((decode <$> reverse lines) ++ later, buffer)
        | None => None
        end
    end
  else Some ([], buffer).

(** The lines the generator yields over a file of content [f], first to
    last. *)
Definition _iter_file_backward (f : bytes) (chunk_size : Z)
    : option (list str) :=
  match backward_loop (length f) f chunk_size (Z.of_nat (length f)) [] with
  | Some (yielded, buffer) =>
      Some (yielded ++ (if truthy buffer then [decode buffer] else []))
  | None => None
  end.

(** [before_ts and ev["ts"] >= before_ts] *)
Definition at_or_after (before_ts : option str) (ev : event) : bool :=
  match before_ts with
  | Some b => truthy b && str_geb (ts ev) b
  | None => false
  end.

(** The [for raw in ...] loop of [tail_user_events]. *)
Fixpoint collect (base : str) (limit : Z) (before_ts : option str)
    (raws : list str) (results : list event) (count : Z) : list event :=
  match raws with
  | [] => results
  | raw :: raws' =>
      match parse_line (strip raw) with
      | None => collect base limit before_ts raws' results count
      | Some ev =>
          if at_or_after before_ts ev then
            collect base limit before_ts raws' results count
          else if negb (bool_decide (base_user (user ev) = base)) then
            collect base limit before_ts raws' results count
          else
            let results := results ++ [ev] in
            let count := count + 1 in
            if limit <=? count then results
            else collect base limit before_ts raws' results count
      end
  end.

Definition tail_user_events (f : bytes) (base : str) (limit : Z)
    (before_ts : option str) : option (list event) :=
  match _iter_file_backward f (Z.shiftl 1 16) with
  | Some raws => Some (reverse (collect base limit before_ts raws [] 0))
  | None => None
  end.
End History.

(** ** The stats endpoint *)

(** A value [json.load] returns; a number that is not an integer keeps its
    text. *)
#[warnings="-register-all"]
Inductive json :=
  | JNull
  | JBool (b : bool)
  | JInt (n : Z)
  | JFloat (text : str)
  | JString (s : str)
  | JArray (l : list json)
  | JObject (l : list (str * json)).

(** What the body of the [try] of [api_stats] meets: the file is not there;
    a statement raises (the file cannot be opened or read, its content is
    not JSON, the response cannot be built); or [json.load] returns a
    value and the response is built. *)
Inductive stats_read :=
  | NoFile
  | Raises
  | Loaded (data : json).

Definition is_dict (j : json) : bool :=
  match j with JObject _ => true | _ => false end.

(** The content of the response of [GET /api/stats]. *)
Definition api_stats (f : stats_read) : json :=
  match f with
  | NoFile => JObject []
  | Loaded data => if negb (is_dict data) then JObject [] else data
  | Raises => JObject []
  end.

(** * More of the module: the history endpoint, the index built from the
    end of the file, the tailer, the snapshot of the users and the stream
    of server-sent events *)

(** ** The history endpoint *)

Section HistoryEndpoint.
Context `{PyRuntime}.

(** The outcome of [GET /api/user_events]: the content of the response,
    or the exception that leaves the endpoint.  [file] is the content of
    the log, or the exception that [open] or a read of the file raises: the
    handler catches [FileNotFoundError] and nothing else.  [None]: the
    reader has not come to its end. *)
Definition api_user_events (file : failure + bytes) (base : str) (limit : Z)
    (before_ts : option str) : option (failure + list event) :=
  match file with
  | inr f => inr <$> tail_user_events f (base_user base) limit before_ts
  | inl FileNotFoundError => Some (inr [])
  | inl (OtherException message) => Some (inl (OtherException message))
  end.
End HistoryEndpoint.

(** ** The index built from the end of the file *)

(** [l[-n:]]: the last [n] elements when [n] is positive, and the list from
    index [-n] on otherwise, so all of it when [n] is [0]. *)
Definition slice_last {A} (n : Z) (l : list A) : list A :=
  if 0 <? n then drop (length l - Z.to_nat n) l
  else drop (Z.to_nat (- n)) l.

Section InitialIndex.
Context `{PyRuntime} `{Settings}.

(** [f.readlines()] from byte offset [pos]: the lines [readline] gives until
    it gives the empty string. *)
Fixpoint readlines_from (fuel : nat) (content : bytes) (pos : Z)
    : list str :=
  match fuel with
  | O => []
  | S fuel' =>
      let '(line, pos) := readline content pos in
      if negb (truthy line) then []
      else line :: readlines_from fuel' content pos
  end.

(** Every line but the last takes a byte at least, so the fuel is enough
    for any content. *)
Definition readlines (content : bytes) : list str :=
  readlines_from (S (length content)) content 0.

(** One turn of the loop of [initial_index]. *)
Definition index_line (AGG : gmap str aggregate) (ln : str)
    : gmap str aggregate :=
  match parse_line (rstrip_lf ln) with
  | Some ev => _apply_event_to_agg ev AGG
  | None => AGG
  end.

(** [initial_index]: the index it leaves.  [file] is the content of the
    file, or the exception that [open] or [readlines] raises, which is
    logged and nothing else. *)
Definition initial_index (file : failure + bytes) (scan_tail_lines : Z)
    (AGG : gmap str aggregate) : gmap str aggregate :=
  match file with
  | inl _ => AGG
  | inr content =>
      let lines := slice_last scan_tail_lines (readlines content) in
      foldl index_line AGG lines
  end.
End InitialIndex.

(** ** The tailer *)

(** Settings of the tailer, read from the process environment. *)
Class TailSettings := {
  MAX_RECENT_EVENTS : Z
}.

#[global] Instance default_tail_settings : TailSettings := {|
  MAX_RECENT_EVENTS := 5000
|}.

(** [d.append(x)] on a [deque(maxlen=n)]: the item is put at the right end,
    and the item at the left end is dropped when the deque is longer than
    [n] then. *)
Definition deque_append {A} (maxlen : Z) (x : A) (d : list A) : list A :=
  let d := d ++ [x] in
  if maxlen <? Z.of_nat (length d) then drop 1 d else d.

(** The message of the live stream:
    [{"ts": ..., "user": ..., "base": ..., "host": ...}]. *)
Record message := {
  m_ts : str;
  m_user : str;
  m_base : str;
  m_host : str
}.

(** The open file of the tailer: the file it reads, known by its inode, and
    the offset of the next read. *)
Record tail_handle := {
  h_inode : nat;
  h_pos : Z
}.

(** What the tailer meets outside the process at each turn of its loop:
    the inode of the file that [open(path)] opens, or the exception it
    raises; the inode [os.stat(path)] reports, or its exception; the
    content of the file of each inode; and the exception [readline] raises,
    if any. *)
Record tail_env := {
  path_open : nat → failure + nat;
  path_stat : nat → failure + nat;
  file_bytes : nat → nat → bytes;
  read_raises : nat → option failure
}.

(** The local variables [f], [inode] and [first_open] of [tail_file], and
    the module-level state it writes. *)
Record tail_state := {
  tail_f : option tail_handle;
  tail_inode : option nat;
  first_open : bool;
  recent_events : list event;
  tail_agg : gmap str aggregate;
  tail_broadcaster : broadcaster message
}.

Definition set_file (f : option tail_handle) (inode : option nat)
    (first : bool) (s : tail_state) : tail_state :=
  {| tail_f := f; tail_inode := inode; first_open := first;
     recent_events := recent_events s; tail_agg := tail_agg s;
     tail_broadcaster := tail_broadcaster s |}.

(** [f.close(); f = None; inode = None] *)
Definition close_file (s : tail_state) : tail_state :=
  set_file None None (first_open s) s.

Section Tailer.
Context `{PyRuntime} `{Settings} `{TailSettings}.

Definition message_of (ev : event) : message :=
  {| m_ts := ts ev; m_user := user ev; m_base := base_user (user ev);
     m_host := host ev |}.

(** The body of [if ev:]. *)
Definition tail_event (ev : event) (s : tail_state) : tail_state :=
  {| tail_f := tail_f s; tail_inode := tail_inode s;
     first_open := first_open s;
     recent_events := deque_append MAX_RECENT_EVENTS ev (recent_events s);
     tail_agg := _apply_event_to_agg ev (tail_agg s);
     tail_broadcaster := broadcast (message_of ev) (tail_broadcaster s) |}.

(** The body of [if line:]. *)
Definition tail_line (line : str) (s : tail_state) : tail_state :=
  match parse_line (rstrip_lf line) with
  | Some ev => tail_event ev s
  | None => s
  end.

(** The [if f is None:] block: the state with the file open, or the
    exception. *)
Definition tail_open (env : tail_env) (turn : nat) (s : tail_state)
    : failure + tail_state :=
  match tail_f s with
  | Some _ => inr s
  | None =>
      match path_open env turn with
      | inl e => inl e
      | inr ino =>
          let pos :=
            if first_open s
            then Z.of_nat (length (file_bytes env turn ino))
            else 0 in
          inr (set_file (Some {| h_inode := ino; h_pos := pos |})
                        (Some ino) false s)
      end
  end.

(** The rotation check, when [readline] gave nothing. *)
Definition tail_idle (env : tail_env) (turn : nat) (s : tail_state)
    : tail_state :=
  match path_stat env turn with
  | inr cur_inode =>
      match tail_inode s with
      | Some inode => if decide (cur_inode ≠ inode) then close_file s else s
      | None => s
      end
  | inl _ => close_file s
  end.

(** One turn of the [while True] loop; the pauses and the log lines are left
    out.  The lines that the file object has read ahead are not kept apart:
    [readline] is taken on the file as it is at the turn, which is what the
    object returns as long as the file keeps the bytes that were read
    ahead, as a log that grows, or that is moved away and made anew,
    does. *)
Definition tail_step (env : tail_env) (turn : nat) (s : tail_state)
    : tail_state :=
  match tail_open env turn s with
  | inl FileNotFoundError => s
  | inl (OtherException _) => close_file s
  | inr s =>
      match tail_f s with
      | None => s
      | Some h =>
          match read_raises env turn with
          | Some FileNotFoundError => s
          | Some (OtherException _) => close_file s
          | None =>
              let '(line, pos) :=
                readline (file_bytes env turn (h_inode h)) (h_pos h) in
              let s := set_file (Some {| h_inode := h_inode h; h_pos := pos |})
                                (tail_inode s) (first_open s) s in
              if truthy line then tail_line line s
              else tail_idle env turn s
          end
      end
  end.

(** The state after [turns] turns of the loop, the first of which is the
    turn number [turn]. *)
Fixpoint tail_run (env : tail_env) (turns turn : nat) (s : tail_state)
    : tail_state :=
  match turns with
  | O => s
  | S turns' => tail_run env turns' (S turn) (tail_step env turn s)
  end.
End Tailer.

(** ** The snapshot of the users *)

(** [s.lower()], by the case mapping of the Unicode tables. *)
Class PyCase := {
  lower : str → str
}.

(** [list(s)] for the set of the sample hosts of the record of a key: the
    elements of the set, in the order of the hash table. *)
Class PySetOrder := {
  listed : str → gset str → list str;
  listed_elements b X : listed b X ≡ₚ elements X
}.

(** Lower case for the letters of ASCII only, and the sets listed as
    [elements] lists them, to run the definitions on literals. *)
#[global] Instance ascii_case : PyCase := {|
  lower := fmap (λ c, if in_range 65 90 c then (c + 32)%N else c)
|}.

#[global, refine] Instance elements_order : PySetOrder := {|
  listed := λ _ X, elements X
|}.
Proof. done. Defined.

Fixpoint is_prefix (p s : str) : bool :=
  match p, s with
  | [], _ => true
  | _ :: _, [] => false
  | x :: p', y :: s' => (x =? y)%N && is_prefix p' s'
  end.

(** [s.find(sub) != -1], and [sub in s]. *)
Fixpoint contains (sub s : str) : bool :=
  is_prefix sub s ||
  match s with
  | [] => false
  | _ :: s' => contains sub s'
  end.

(** [l[:n]]: the first [n] elements, and all but the last [-n] when [n] is
    negative. *)
Definition slice_upto {A} (n : Z) (l : list A) : list A :=
  if 0 <=? n then take (Z.to_nat n) l
  else take (length l - Z.to_nat (- n)) l.

(** [sorted(l)] for strings: a stable sort, here by insertion. *)
Fixpoint insert_asc (x : str) (l : list str) : list str :=
  match l with
  | [] => [x]
  | y :: l' => if str_ltb x y then x :: l else y :: insert_asc x l'
  end.

Definition sorted (l : list str) : list str :=
  foldl (λ acc x, insert_asc x acc) [] l.

(** One item of the answer of [GET /api/users]. *)
Record user_item := {
  it_base : str;
  it_display_names : list str;
  it_count : Z;
  it_last_ts : str;
  it_sample_host : str;
  it_hosts : list str
}.

(** [items.sort(key=lambda x: x.get("last_ts", ""), reverse=True)]: a stable
    sort from the greatest key to the least, here by insertion. *)
Fixpoint insert_desc (x : user_item) (l : list user_item) : list user_item :=
  match l with
  | [] => [x]
  | y :: l' =>
      if str_ltb (it_last_ts y) (it_last_ts x) then x :: l
      else y :: insert_desc x l'
  end.

Definition sort_desc (l : list user_item) : list user_item :=
  foldl (λ acc x, insert_desc x acc) [] l.

Section Snapshot.
Context `{PyRuntime} `{Settings} `{PyCase} `{PySetOrder}.

(** The body of the loop over [AGG.items()]. *)
Definition user_item_of (b : str) (a : aggregate) : user_item :=
  let display :=
    if decide (variants a ≠ ∅) then sorted (elements (variants a))
    else [b] in
  let hosts := slice_upto MAX_HOSTS_PER_USER (listed b (hosts a)) in
  let prio :=
    head (filter (λ h, truthy h && contains (lit "porn") (lower h) = true)
                 hosts) in
  let sample := default (sample_host a) prio in
  {| it_base := b;
     it_display_names := display;
     it_count := count a;
     it_last_ts := last_ts a;
     it_sample_host := sample;
     it_hosts := hosts |}.

Definition user_matches (uq : str) (it : user_item) : bool :=
  contains uq (lower (it_base it)) ||
  existsb (λ d, contains uq (lower d)) (it_display_names it).

Definition site_matches (sq : str) (it : user_item) : bool :=
  existsb (λ h, contains sq (lower h)) (it_hosts it).

(** The content of the response of [GET /api/users]; [entries] is
    [AGG.items()], in the order of the dictionary. *)
Definition api_users (entries : list (str * aggregate))
    (user_q site_q : str) (limit : Z) : list user_item :=
  let uq := lower (strip user_q) in
  let sq := lower (strip site_q) in
  let items := (λ e, user_item_of e.1 e.2) <$> entries in
  let items :=
    if truthy uq then filter (λ it, user_matches uq it = true) items
    else items in
  let items :=
    if truthy sq then filter (λ it, site_matches sq it = true) items
    else items in
  slice_upto limit (sort_desc items).
End Snapshot.

(** ** The stream of server-sent events *)

(** The byte of a number below 256. *)
Definition byte_of (n : N) : byte := default "000"%byte (Byte.of_N n).

(** [s.encode("utf-8")] for one character; [None] stands for
    [UnicodeEncodeError], which a surrogate raises. *)
Definition utf8_char (c : char) : option bytes :=
  if (c <? 128)%N then Some [byte_of c]
  else if (c <? 2048)%N then
    Some [byte_of (192 + c / 64); byte_of (128 + c mod 64)]
  else if (c <? 65536)%N then
    if in_range 55296 57343 c then None
    else Some [byte_of (224 + c / 4096); byte_of (128 + (c / 64) mod 64);
               byte_of (128 + c mod 64)]
  else if (c <? 1114112)%N then
    Some [byte_of (240 + c / 262144); byte_of (128 + (c / 4096) mod 64);
          byte_of (128 + (c / 64) mod 64); byte_of (128 + c mod 64)]
  else None.

Definition encode_utf8 (s : str) : option bytes :=
  match mapM utf8_char s with
  | Some l => Some (concat l)
  | None => None
  end.

(** The lower-case hexadecimal digit of a number below 16. *)
Definition hex_digit (n : N) : char :=
  if (n <? 10)%N then (48 + n)%N else (87 + n)%N.

(** A character inside a string of [json.dumps(..., ensure_ascii=False)]:
    the quote, the backslash and the control characters are escaped. *)
Definition escape_char (c : char) : str :=
  if (c =? 34)%N then [92; 34]%N
  else if (c =? 92)%N then [92; 92]%N
  else if (c =? 10)%N then [92; 110]%N
  else if (c =? 13)%N then [92; 114]%N
  else if (c =? 9)%N then [92; 116]%N
  else if (c =? 8)%N then [92; 98]%N
  else if (c =? 12)%N then [92; 102]%N
  else if (c <? 32)%N then
    [92; 117; 48; 48; hex_digit (c / 16); hex_digit (c mod 16)]%N
  else [c].

Definition json_string (s : str) : str :=
  [34%N] ++ (s ≫= escape_char) ++ [34%N].

(** [json.dumps(msg, ensure_ascii=False)] for a message of the tailer. *)
Definition dumps_message (m : message) : str :=
  lit "{" ++ json_string (lit "ts") ++ lit ": " ++ json_string (m_ts m)
  ++ lit ", " ++ json_string (lit "user") ++ lit ": " ++ json_string (m_user m)
  ++ lit ", " ++ json_string (lit "base") ++ lit ": " ++ json_string (m_base m)
  ++ lit ", " ++ json_string (lit "host") ++ lit ": " ++ json_string (m_host m)
  ++ lit "}".

(** What the generator meets each time it waits: a message of the queue,
    the heartbeat timeout, or its cancellation. *)
Inductive sse_input :=
  | Message (m : message)
  | Timeout
  | Cancelled.

(** The chunks the [while True] loop yields. *)
Fixpoint sse_loop (inputs : list sse_input) : list bytes :=
  match inputs with
  | [] => []
  | Message m :: inputs' =>
      match encode_utf8 (dumps_message m) with
      | Some data =>
          (blit "event: message" ++ [bLF])
          :: (blit "data: " ++ data ++ [bLF; bLF])
          :: sse_loop inputs'
      | None => []
      end
  | Timeout :: inputs' => (blit ": ping" ++ [bLF; bLF]) :: sse_loop inputs'
  | Cancelled :: _ => []
  end.

(** [sse_event_generator]: the chunks it yields. *)
Definition sse_event_generator (inputs : list sse_input) : list bytes :=
  (blit ": ok" ++ [bLF; bLF]) :: sse_loop inputs.

(** ** The two ingestion tasks on one event loop *)

Section TwoTasks.
Context `{PyRuntime} `{Settings} `{TailSettings}
        `{ScanSettings} `{PyZeroDivision}.

(** One turn of the [while True] loop of [full_scan_file]: the end of the
    loop, or the offset and the state for the next turn. *)
Definition scan_turn (env : scan_env) (turn : nat) (stop_offset pos : Z)
    (st : scan_state) : scan_end + Z * scan_state :=
  let pos_before := tell env turn pos in
  if stop_offset <=? pos_before then inl (Finished st)
  else
    match visible env turn with
    | inl e => inl (Raised e st)
    | inr content =>
        let '(line, pos) := readline content pos in
        if negb (truthy line) then inr (pos, st)
        else
          match scan_line line (Z.min pos_before stop_offset) st with
          | inl ended => inl ended
          | inr st => inr (pos, st)
          end
    end.

(** The tasks [on_start] creates, between two of their turns: the reading
    loop of the full scan, with its stop offset, its offset and its
    counters, until it ends; and the tailer, whose state holds the index
    that both write. *)
Record two_tasks := {
  scanning : option (Z * Z * scan_state);
  tailing : tail_state
}.

Definition set_agg (AGG : gmap str aggregate) (s : tail_state) : tail_state :=
  {| tail_f := tail_f s; tail_inode := tail_inode s;
     first_open := first_open s; recent_events := recent_events s;
     tail_agg := AGG; tail_broadcaster := tail_broadcaster s |}.

Definition with_agg (AGG : gmap str aggregate) (st : scan_state)
    : scan_state :=
  {| scan_agg := AGG; scan_read := scan_read st;
     scan_applied := scan_applied st |}.

Inductive task := ScanTask | TailTask.

(** The event loop runs one turn of one task at a time. *)
Definition task_turn (senv : scan_env) (tenv : tail_env) (time : nat)
    (who : task) (d : two_tasks) : two_tasks :=
  match who with
  | TailTask =>
      {| scanning := scanning d;
         tailing := tail_step tenv time (tailing d) |}
  | ScanTask =>
      match scanning d with
      | None => d
      | Some (stop_offset, pos, st) =>
          let st := with_agg (tail_agg (tailing d)) st in
          match scan_turn senv time stop_offset pos st with
          | inl (Finished st) | inl (Raised _ st) =>
              {| scanning := None;
                 tailing := set_agg (scan_agg st) (tailing d) |}
          | inr (pos, st) =>
              {| scanning := Some (stop_offset, pos, st);
                 tailing := set_agg (scan_agg st) (tailing d) |}
          end
      end
  end.

(** The turns of a schedule, the first at the time [time]. *)
Fixpoint tasks_run (senv : scan_env) (tenv : tail_env) (schedule : list task)
    (time : nat) (d : two_tasks) : two_tasks :=
  match schedule with
  | [] => d
  | who :: schedule' =>
      tasks_run senv tenv schedule' (S time) (task_turn senv tenv time who d)
  end.
End TwoTasks.

(** * The vocabulary of the statements

    What follows is not in the module: the words in which its behaviour is
    stated. *)

(** ** Matches of a pattern, read declaratively *)

Definition within (hi : option nat) (n : nat) : Prop :=
  match hi with
  | Some h => (n ≤ h)%nat
  | None => True
  end.

Abbreviation all cls := (Forall (λ c : N, cls c = true)).
Abbreviation all_space := (Forall (λ c : N, is_space c = true)).

(** [matches re rest pos m m']: the string [rest], which starts at index
    [pos] of the subject, can be cut into pieces that the items of [re]
    accept in turn, and the groups passed on the way turn [m] into [m'].
    Which cut the search prefers plays no part. *)
Fixpoint matches (re : list item) (rest : str) (pos : nat) (m m' : spans)
    : Prop :=
  match re with
  | [] => m' = m
  | Chr c :: re' => ∃ rest', rest = c :: rest' ∧ matches re' rest' (S pos) m m'
  | Rep cls lo hi _ :: re' =>
      ∃ w rest', rest = w ++ rest' ∧ all cls w ∧ (lo ≤ length w)%nat ∧
        within hi (length w) ∧ matches re' rest' (pos + length w) m m'
  | Open g :: re' => matches re' rest pos (open_group g pos m) m'
  | Close g :: re' => matches re' rest pos (close_group g pos m) m'
  | Bol :: re' => pos = 0%nat ∧ matches re' rest pos m m'
  | Eol :: re' => (rest = [] ∨ rest = [LF]) ∧ matches re' rest pos m m'
  end.

(** A way to go on after a repetition of which [n] characters were taken
    before: the run [w] is taken now. *)
Definition taken (cls : char → bool) (lo : nat) (hi : option nat)
    (n : nat) (rest : str) (pos : nat) (to : str * nat) : Prop :=
  ∃ w, rest = w ++ to.1 ∧ all cls w ∧ (lo ≤ n + length w)%nat ∧
    within hi (n + length w) ∧ to.2 = (pos + length w)%nat.

(** ** The grammar of a log line *)

Inductive slot := Digit | Exact (c : char).

(** [YYYY-MM-DD HH:MM:SS] *)
Definition TIMESTAMP_FORM : list slot :=
  [Digit; Digit; Digit; Digit; Exact 45; Digit; Digit; Exact 45;
   Digit; Digit; Exact 32; Digit; Digit; Exact 58; Digit; Digit;
   Exact 58; Digit; Digit].

Section Grammar.
Context `{PyRuntime}.

Fixpoint has_form (form : list slot) (s : str) : bool :=
  match form, s with
  | [], [] => true
  | Digit :: form', c :: s' => is_decimal c && has_form form' s'
  | Exact x :: form', c :: s' => (c =? x)%N && has_form form' s'
  | _, _ => false
  end.

Definition is_timestamp (s : str) : Prop := has_form TIMESTAMP_FORM s = true.

(** The host of the event: the trimmed field, or the sentinel. *)
Definition host_of (hfield : str) : str :=
  if truthy (strip hfield) then strip hfield else UNKNOWN.

(** A line of three fields whose last field passes [host_ok]: white space,
    a timestamp, white space, a bar, the user field (no bar in it, not
    empty once trimmed), a bar, and the host field, which is the rest of
    the line.  The event carries the timestamp and the trimmed fields. *)
Definition three_fields (host_ok : str → Prop) (line : str) (ev : event)
    : Prop :=
  ∃ lead stamp gap ufield hfield,
    line = lead ++ stamp ++ gap ++ BAR :: (ufield ++ BAR :: hfield) ∧
    all_space lead ∧ is_timestamp stamp ∧ all_space gap ∧
    (BAR ∉ ufield) ∧ strip ufield ≠ [] ∧ host_ok hfield ∧
    ev = {| ts := stamp; user := strip ufield; host := host_of hfield |}.

(** The host field the pattern asks for: some character other than a line
    feed, and no line feed inside the trimmed field. *)
Definition has_host (hfield : str) : Prop :=
  (∃ c, c ∈ hfield ∧ c ≠ LF) ∧ LF ∉ strip hfield.

(** What a match of [RE_MATCHED] says about the line and its groups. *)
Definition pieces (line : str) (m : spans) (stamp ufield hfield : str)
    : Prop :=
  ∃ lead gap w1 u w2 w3 x w4,
    line = lead ++ stamp ++ gap ++ BAR :: (ufield ++ BAR :: hfield) ∧
    ufield = w1 ++ u ++ w2 ∧ hfield = w3 ++ x ++ w4 ∧
    all_space lead ∧ is_timestamp stamp ∧ all_space gap ∧
    all_space w1 ∧ all not_bar u ∧ u ≠ [] ∧ all_space w2 ∧
    all_space w3 ∧ all dot x ∧ x ≠ [] ∧ all_space w4 ∧
    group line m 1 = stamp ∧ group line m 2 = u ∧ group line m 3 = x.
End Grammar.

(** ** Runs of events over the index *)

Section IndexVocabulary.
Context `{PyRuntime} `{Settings}.

(** The events of a run, applied in order. *)
Definition apply_all (evs : list event) (AGG : gmap str aggregate)
    : gmap str aggregate :=
  foldl (λ AGG ev, _apply_event_to_agg ev AGG) AGG evs.

(** What the events [evs] of one key leave in its record: their number, at
    most the cap of sample hosts, or one host when the cap is below one,
    and the greatest of their timestamps. *)
Definition summarises (evs : list event) (a : aggregate) : Prop :=
  count a = Z.of_nat (length evs) ∧
  Z.of_nat (size (hosts a)) ≤ Z.max 1 MAX_HOSTS_PER_USER ∧
  last_ts a ∈ ts <$> evs ∧
  Forall (λ ev, str_leb (ts ev) (last_ts a) = true) evs.

(** The index is keyed by normalised identity. *)
Definition keyed_by_base (AGG : gmap str aggregate) : Prop :=
  ∀ b a, AGG !! b = Some a →
    variants a ≠ ∅ ∧ ∀ v, v ∈ variants a → base_user v = b.
End IndexVocabulary.

(** ** Files of whole lines *)

(** A file made of whole lines: every line is followed by a line feed. *)
Definition join_lines (ls : list bytes) : bytes :=
  concat ((λ l, l ++ [bLF]) <$> ls).

(** A line of bytes that holds no line terminator. *)
Definition plain (l : bytes) : Prop := (bLF ∉ l) ∧ (bCR ∉ l).

(** The lines of a file, last first, as the specification words the
    backward reader: the segments between line feeds in reverse order, the
    segment at the start of the file last and only if it is not empty. *)
Definition lines_last_first (f : bytes) : list bytes :=
  match split bLF f with
  | [] => []
  | first :: others =>
      reverse others ++ (if truthy first then [first] else [])
  end.

Section HistoryVocabulary.
Context `{PyRuntime} `{Settings}.

(** The event, if any, that the scan draws from a line of the file. *)
Definition line_event (l : bytes) : option event :=
  parse_line (rstrip_lf (decode l ++ [LF])).

(** The event a line yielded by the backward reader contributes to a page,
    if any. *)
Definition selected (base : str) (before_ts : option str) (raw : str)
    : option event :=
  match parse_line (strip raw) with
  | Some ev =>
      if at_or_after before_ts ev then None
      else if bool_decide (base_user (user ev) = base) then Some ev
      else None
  | None => None
  end.

(** Ascending timestamps, first to last. *)
Definition ascending (evs : list event) : Prop :=
  ∀ i j e1 e2, (i ≤ j)%nat → evs !! i = Some e1 → evs !! j = Some e2 →
    str_leb (ts e1) (ts e2) = true.
End HistoryVocabulary.

(** ** The broadcaster *)

(** The outcome of [put_nowait] on the queue of identity [q]. *)
Definition accepts {M} (msg : M) (st : gmap nat (queue M)) (q : nat)
    : option (queue M) :=
  st !! q ≫= put_nowait msg.

(** ** The stats file, re-keyed as the specification words it *)

Definition WARNINGS : str := lit "warnings_after_second".
Definition DEACTIVATIONS : str := lit "deactivated_times".

Fixpoint field (k : str) (l : list (str * json)) : option json :=
  match l with
  | [] => None
  | (k', v) :: l' => if decide (k = k') then Some v else field k l'
  end.

(** A counter of one entry: the integer under the key, 0 when there is
    none. *)
Definition counter (k : str) (v : json) : Z :=
  match v with
  | JObject l => match field k l with Some (JInt n) => n | _ => 0 end
  | _ => 0
  end.

Fixpoint add_counters (b : str) (w d : Z) (acc : list (str * (Z * Z)))
    : list (str * (Z * Z)) :=
  match acc with
  | [] => [(b, (w, d))]
  | (b', (w', d')) :: acc' =>
      if decide (b = b') then (b', (w' + w, d' + d)) :: acc'
      else (b', (w', d')) :: add_counters b w d acc'
  end.

Section Stats.
Context `{PyRuntime}.

(** The stats keyed by base key, the counters of the keys of one base
    summed. *)
Definition rekey_by_base (l : list (str * json)) : list (str * (Z * Z)) :=
  foldl (λ acc kv, add_counters (base_user kv.1) (counter WARNINGS kv.2)
                                (counter DEACTIVATIONS kv.2) acc) [] l.
End Stats.

(** ** Sample data

    The lines, events and files at which the statements below are run. *)

Definition T1 : str := lit "2024-01-01 00:00:01".
Definition T2 : str := lit "2024-01-01 00:00:02".
Definition T3 : str := lit "2024-01-01 00:00:03".

Definition stored_u : aggregate :=
  {| count := 1; last_ts := T2; sample_host := lit "a.example";
     variants := {[lit "u"]}; hosts := {[lit "a.example"]} |}.

Definition tie_u : event :=
  {| ts := T2; user := lit "u"; host := lit "b.example" |}.

Definition run_u : list event :=
  [ {| ts := T2; user := lit "u"; host := lit "a.example" |};
    {| ts := T1; user := lit "5.u"; host := lit "b.example" |};
    {| ts := T3; user := lit "6.u"; host := lit "a.example" |} ].

(** The settings of a process started with [MAX_HOSTS_PER_USER=0]. *)
Definition NO_HOSTS : Settings := {| MAX_HOSTS_PER_USER := 0 |}.

Definition LINE1 : bytes := blit "2024-01-01 00:00:01 | 1.x | h1".
Definition LINE2 : bytes := blit "2024-01-01 00:00:02 | 2.x | h2".
Definition LINE3 : bytes := blit "2024-01-01 00:00:03 | x | h3".
Definition EVENT1 : event := {| ts := T1; user := lit "1.x"; host := lit "h1" |}.
Definition EVENT2 : event := {| ts := T2; user := lit "2.x"; host := lit "h2" |}.
Definition EVENT3 : event := {| ts := T3; user := lit "x"; host := lit "h3" |}.

Definition NO_HOST_LINE : str := lit "2024-01-01 00:00:00|u|".
Definition NO_HOST_EVENT : event :=
  {| ts := lit "2024-01-01 00:00:00"; user := lit "u"; host := UNKNOWN |}.

(** What subscriber [q] has received and not yet taken. *)
Definition inbox {M} (b : broadcaster M) (q : nat) : option (list M) :=
  items <$> store b !! q.

(** Three subscriptions to a new broadcaster, in order. *)
Definition three_subscribers {M} : nat * nat * nat * broadcaster M :=
  let '(q1, b1) := subscribe empty_broadcaster in
  let '(q2, b2) := subscribe b1 in
  let '(q3, b3) := subscribe b2 in
  (q1, q2, q3, b3).

Definition counters (w d : Z) : json :=
  JObject [(WARNINGS, JInt w); (DEACTIVATIONS, JInt d)].

Definition TWO_KEYS : list (str * json) :=
  [(lit "1.a", counters 1 0); (lit "2.a", counters 2 1)].

(** The index, spelled out. *)
Definition digest (AGG : gmap str aggregate)
    : list (str * (Z * str * str * list str * list str)) :=
  (λ '(b, a), (b, (count a, last_ts a, sample_host a,
                   elements (variants a), elements (hosts a))))
    <$> map_to_list AGG.

Definition JUNK : bytes := blit "not a line of the log".

(** A file of two lines when the scan starts, to which a third line is
    appended before the first read. *)
Definition GROWING : scan_env :=
  {| stat_result := inr (Z.of_nat (length (join_lines [LINE1; JUNK])));
     open_result := None;
     visible := λ _, inr (join_lines [LINE1; JUNK] ++ join_lines [LINE3]);
     tell := λ _ pos, pos |}.

(** A file that ends in the middle of a line when the scan starts; the rest
    of the line is appended before the first read. *)
Definition CUT_START : bytes :=
  join_lines [LINE1] ++ blit "2024-01-01 00:00:03".

Definition CUT_APPENDED : bytes := blit " | x | h3" ++ [bLF].

Definition CUT : scan_env :=
  {| stat_result := inr (Z.of_nat (length CUT_START));
     open_result := None;
     visible := λ _, inr (CUT_START ++ CUT_APPENDED);
     tell := λ _ pos, pos |}.

(** The same file, to which nothing is appended. *)
Definition CUT_ALONE : scan_env :=
  {| stat_result := inr (Z.of_nat (length CUT_START));
     open_result := None;
     visible := λ _, inr CUT_START;
     tell := λ _ pos, pos |}.

(** A file of three lines, of which the last two end with a carriage
    return and a line feed, to which forty empty lines of this kind are
    appended before the first read.  After the first line [tell] returns
    the offset past the carriage return that follows, with the mark of a
    pending carriage return. *)
Definition CRLF_START : bytes :=
  blit "abc" ++ [bLF; bCR; bLF] ++ LINE1 ++ [bCR; bLF].

Definition CRLF_LOG : scan_env :=
  {| stat_result := inr (Z.of_nat (length CRLF_START));
     open_result := None;
     visible := λ _, inr (CRLF_START ++ concat (replicate 40 [bCR; bLF]));
     tell := λ _ pos, if pos =? 4 then 2 ^ 64 + 5 else pos |}.

(** A log whose pause setting is [0]. *)
Definition NEVER_PAUSE : ScanSettings := {| FULL_SCAN_SLEEP_EVERY := 0 |}.

(** * More vocabulary *)

(** ** Runs of events, key by key *)

Section KeyVocabulary.
Context `{PyRuntime}.

(** The events of a run that fall under the key [b]. *)
Definition of_key (b : str) (evs : list event) : list event :=
  filter (λ ev, base_user (user ev) = b) evs.
(** The record of the key [b] that the first update of a run of events of
    this key finds: the stored one, or the one the first event creates. *)
Definition before_run (AGG : gmap str aggregate) (b : str)
    (evs : list event) : option aggregate :=
  match AGG !! b, evs with
  | Some a, _ => Some a
  | None, ev :: _ => Some (seed ev)
  | None, [] => None
  end.
End KeyVocabulary.

(** The hosts of a run, the empty one left out. *)
Definition seen_hosts (evs : list event) : gset str :=
  list_to_set (filter (λ h, h ≠ []) (host <$> evs)).

(** The sum of the counts of all records. *)
Definition total_count (AGG : gmap str aggregate) : Z :=
  map_fold (λ _ a n, count a + n) 0 AGG.

(** [t] is the greatest of the timestamps [l]. *)
Definition greatest (t : str) (l : list str) : Prop :=
  t ∈ l ∧ Forall (λ x, str_leb x t = true) l.

(** ** Lines as the log writes them *)

(** ["YYYY-MM-DD HH:MM:SS | email | host"] *)
Definition format_line (ev : event) : str :=
  ts ev ++ lit " | " ++ user ev ++ lit " | " ++ host ev.

Section EventVocabulary.
Context `{PyRuntime}.

(** An event as the parser makes them. *)
Definition well_formed (ev : event) : Prop :=
  is_timestamp (ts ev) ∧
  user ev ≠ [] ∧ strip (user ev) = user ev ∧ (BAR ∉ user ev) ∧
  host ev ≠ [] ∧ strip (host ev) = host ev ∧ (LF ∉ host ev).

(** A line of three fields whose host field is white space only. *)
Definition blank_host (line : str) : Prop :=
  ∃ ev, three_fields (λ hfield, has_host hfield ∧ all_space hfield) line ev.
End EventVocabulary.

(** ** Broadcasters as the module builds them *)

(** Every subscriber has a queue, and the queue has no bound: what
    [asyncio.Queue()] makes. *)
Definition unbounded {M} (b : broadcaster M) : Prop :=
  ∀ q, q ∈ subscribers b → ∃ qu, store b !! q = Some qu ∧ maxsize qu ≤ 0.

(** The messages [msgs] broadcast one after the other. *)
Definition broadcast_all {M} (msgs : list M) (b : broadcaster M)
    : broadcaster M :=
  foldl (λ b msg, broadcast msg b) b msgs.

(** ** Pages of the history *)

(** Timestamps that go down, strictly, from one event to the next: the
    matches of a log in which time goes on, read last line first. *)
Definition newest_first (evs : list event) : Prop :=
  ∀ i j e1 e2, (i < j)%nat → evs !! i = Some e1 → evs !! j = Some e2 →
    str_ltb (ts e2) (ts e1) = true.

(** ** Runs of the tailer *)

Section TailerVocabulary.
Context `{PyRuntime} `{Settings} `{TailSettings}.

(** The events [evs] handled one after the other. *)
Definition handle_all (evs : list event) (s : tail_state) : tail_state :=
  foldl (λ s ev, tail_event ev s) s evs.
End TailerVocabulary.

(** The module-level state of two states is the same. *)
Definition same_data (s s' : tail_state) : Prop :=
  recent_events s = recent_events s' ∧ tail_agg s = tail_agg s' ∧
  tail_broadcaster s = tail_broadcaster s'.

(** The state in which the file [h] is open. *)
Definition reading (h : tail_handle) (s : tail_state) : tail_state :=
  set_file (Some h) (Some (h_inode h)) false s.

(** How many of the appended lines the tailer has read after the turn [t],
    when [g t'] of them are in the file at the turn [t']: one more at every
    turn at which a line is there that it has not read. *)
Fixpoint reached (g : nat → nat) (t : nat) : nat :=
  match t with
  | O => 0
  | S t' => let k := reached g t' in if (k <? g t)%nat then S k else k
  end.

(** ** Snapshots *)

(** [x] was active no earlier than [y]. *)
Definition more_recent (x y : user_item) : Prop :=
  str_leb (it_last_ts y) (it_last_ts x) = true.

(** Strings that go up. *)
Definition goes_up (x y : str) : Prop := str_ltb x y = true.

Section SnapshotVocabulary.
Context `{PyRuntime} `{Settings} `{PyCase} `{PySetOrder}.

(** The items that pass the two filters of [api_users]; a filter that is
    empty, once trimmed and put in lower case, lets every item pass. *)
Definition found_items (entries : list (str * aggregate))
    (user_q site_q : str) : list user_item :=
  filter (λ it, (lower (strip user_q) = [] ∨
                 user_matches (lower (strip user_q)) it = true) ∧
                (lower (strip site_q) = [] ∨
                 site_matches (lower (strip site_q)) it = true))
         ((λ e, user_item_of e.1 e.2) <$> entries).
End SnapshotVocabulary.

(** ** The two ingestion tasks *)

#[global] Instance task_eq_dec : EqDecision task.
Proof. solve_decision. Defined.

(** The number of turns of a task in a schedule. *)
Definition turns_of (who : task) (schedule : list task) : nat :=
  length (filter (λ w, w = who) schedule).

(** The two tasks on a log of whole lines, once both have opened the file:
    the scan has recorded the size of the file when it held the first [n_s]
    lines of [lns] and is at its start, and the tailer, on its first open,
    has moved to the end of the file when it held the first [n_t] lines. *)
Definition both_started (lns : list bytes) (n_s n_t i : nat)
    (st0 : scan_state) (s0 : tail_state) : two_tasks :=
  {| scanning := Some (Z.of_nat (length (join_lines (take n_s lns))), 0, st0);
     tailing :=
       reading {| h_inode := i;
                  h_pos := Z.of_nat (length (join_lines (take n_t lns))) |}
               s0 |}.

Section TwoTasksVocabulary.
Context `{PyRuntime} `{Settings} `{TailSettings}
        `{ScanSettings} `{PyZeroDivision}.

(** What holds between two turns of the tasks started as above, after [k]
    turns of the scan and [b] lines read by the tailer, [evs] being the
    events applied so far to the index, which was that of [s0]. *)
Definition tasks_between (lns : list bytes) (n_s n_t i : nat)
    (s0 : tail_state) (k b : nat) (evs : list event) (d : two_tasks) : Prop :=
  (if decide (k ≤ n_s)%nat
   then ∃ st, scanning d
              = Some (Z.of_nat (length (join_lines (take n_s lns))),
                      Z.of_nat (length (join_lines (take k lns))), st)
   else scanning d = None) ∧
  tail_f (tailing d)
    = Some {| h_inode := i;
              h_pos := Z.of_nat (length (join_lines
                                           (take (n_t + b) lns))) |} ∧
  tail_inode (tailing d) = Some i ∧
  (n_t + b ≤ length lns)%nat ∧
  tail_agg (tailing d) = apply_all evs (tail_agg s0) ∧
  evs ≡ₚ omap line_event (take (Nat.min n_s k) lns)
         ++ omap line_event (take b (drop n_t lns)) ∧
  recent_events (tailing d)
    = recent_events
        (handle_all (omap line_event (take b (drop n_t lns))) s0) ∧
  tail_broadcaster (tailing d)
    = tail_broadcaster
        (handle_all (omap line_event (take b (drop n_t lns))) s0).
End TwoTasksVocabulary.

(** A line of the log whose host field is two spaces. *)
Definition BLANK_LINE : bytes := blit "2024-01-01 00:00:01 | 1.x |  ".

(** A file of three lines that does not change while it is scanned. *)
Definition THREE_LINES : scan_env :=
  {| stat_result := inr (Z.of_nat (length (join_lines [LINE1; JUNK; LINE3])));
     open_result := None;
     visible := λ _, inr (join_lines [LINE1; JUNK; LINE3]);
     tell := λ _ pos, pos |}.

(** The tailer before its first turn. *)
Definition TAIL_START : tail_state :=
  {| tail_f := None; tail_inode := None; first_open := true;
     recent_events := []; tail_agg := ∅;
     tail_broadcaster := empty_broadcaster |}.

(** A log of one line, to which two lines are appended, one at the turn 1
    and one at the turn 2. *)
Definition GROWING_LOG : tail_env :=
  {| path_open := λ _, inr 7%nat;
     path_stat := λ _, inr 7%nat;
     file_bytes := λ t _, join_lines [LINE1]
                          ++ join_lines (take (Nat.min t 2) [LINE2; LINE3]);
     read_raises := λ _, None |}.

(** The tailer at the end of the log of one line. *)
Definition AT_END : tail_state :=
  reading {| h_inode := 7; h_pos := Z.of_nat (length (join_lines [LINE1])) |}
          TAIL_START.

(** The log of one line, moved away and made anew with two lines. *)
Definition ROTATED_LOG : tail_env :=
  {| path_open := λ _, inr 8%nat;
     path_stat := λ _, inr 8%nat;
     file_bytes := λ _ ino, if decide (ino = 8%nat)
                            then join_lines [LINE2; LINE3]
                            else join_lines [LINE1];
     read_raises := λ _, None |}.

(** The log [GROWING_LOG] until the turn 2, emptied in place at the turn 3
    and left empty. *)
Definition TRUNCATED_LOG : tail_env :=
  {| path_open := λ _, inr 7%nat;
     path_stat := λ _, inr 7%nat;
     file_bytes := λ t _,
       if (t <=? 2)%nat
       then join_lines [LINE1]
            ++ join_lines (take (Nat.min t 2) [LINE2; LINE3])
       else [];
     read_raises := λ _, None |}.

(** The item of the key ["u"] after the run [run_u]. *)
Definition ITEM_U : user_item :=
  {| it_base := lit "u";
     it_display_names := [lit "5.u"; lit "6.u"; lit "u"];
     it_count := 3;
     it_last_ts := T3;
     it_sample_host := lit "a.example";
     it_hosts := [lit "b.example"; lit "a.example"] |}.

(** What the scan reads of the log [GROWING_LOG]. *)
Definition GROWING_SCAN : scan_env :=
  {| stat_result := inr (Z.of_nat (length (join_lines [LINE1])));
     open_result := None;
     visible := λ t, inr (join_lines (take (S (Nat.min t 2))
                                           [LINE1; LINE2; LINE3]));
     tell := λ _ pos, pos |}.

Definition SCAN_START : scan_state :=
  {| scan_agg := ∅; scan_read := 0; scan_applied := 0 |}.

Definition TURNS : list task :=
  [TailTask; ScanTask; TailTask; ScanTask; TailTask].

(** * Facts about the text primitives *)

Lemma truthy_true {A} (s : list A) : truthy s = true ↔ s ≠ [].
Proof. by destruct s. Qed.

Lemma truthy_false {A} (s : list A) : truthy s = false ↔ s = [].
Proof. by destruct s. Qed.

(** ** The order on strings *)

Lemma str_ltb_irrefl a : str_ltb a a = false.
Proof.
  induction a as [|x a IH]; [done|]. simpl.
  rewrite N.ltb_irrefl, N.eqb_refl. exact IH.
Qed.

Lemma str_ltb_trans a b c :
  str_ltb a b = true → str_ltb b c = true → str_ltb a c = true.
Proof.
  revert b c. induction a as [|x a IH]; intros [|y b] [|z c]; simpl; try done.
  destruct (N.ltb_spec x y), (N.ltb_spec y z), (N.ltb_spec x z);
    try done; try lia;
    destruct (N.eqb_spec x y), (N.eqb_spec y z), (N.eqb_spec x z);
    try done; try lia.
  apply IH.
Qed.

Lemma str_ltb_total a b : str_ltb a b = true ∨ a = b ∨ str_ltb b a = true.
Proof.
  revert b. induction a as [|x a IH]; intros [|y b]; simpl; auto.
  destruct (N.ltb_spec x y); [auto|].
  destruct (N.ltb_spec y x); [auto|].
  assert (x = y) as -> by lia. rewrite N.eqb_refl.
  destruct (IH b) as [?|[->|?]]; auto.
Qed.

Lemma str_ltb_asym a b : str_ltb a b = true → str_ltb b a = false.
Proof.
  intros Hab. destruct (str_ltb b a) eqn:Hba; [|done].
  by rewrite <-(str_ltb_irrefl a), (str_ltb_trans a b a).
Qed.

Lemma str_leb_refl a : str_leb a a = true.
Proof. unfold str_leb. by rewrite str_ltb_irrefl. Qed.

Lemma str_leb_trans a b c :
  str_leb a b = true → str_leb b c = true → str_leb a c = true.
Proof.
  unfold str_leb. rewrite !negb_true_iff. intros Hba Hcb.
  destruct (str_ltb c a) eqn:Hca; [|done].
  destruct (str_ltb_total a b) as [Hab|[->|Hab]]; [|congruence..].
  by rewrite (str_ltb_trans c a b) in Hcb.
Qed.

Lemma str_ltb_leb a b : str_ltb a b = true → str_leb a b = true.
Proof. intros Hab. unfold str_leb. by rewrite str_ltb_asym. Qed.

Lemma str_ltb_nil_r a : str_ltb a [] = false.
Proof. by destruct a. Qed.

(** ** [find] *)

Lemma find_ge c s : -1 ≤ find c s.
Proof.
  induction s as [|x s IH]; simpl; [lia|].
  destruct (x =? c)%N; [lia|]. destruct (Z.ltb_spec (find c s) 0); lia.
Qed.

Lemma find_first c pre suf :
  c ∉ pre → find c (pre ++ (c :: suf)) = Z.of_nat (length pre).
Proof.
  induction pre as [|x pre IH]; intros Hpre; simpl.
  - by rewrite N.eqb_refl.
  - apply not_elem_of_cons in Hpre as [Hx Hpre].
    destruct (N.eqb_spec x c); [congruence|].
    rewrite IH by done. destruct (Z.ltb_spec (Z.of_nat (length pre)) 0); lia.
Qed.

Lemma find_split c s :
  0 ≤ find c s →
  ∃ pre suf, s = pre ++ (c :: suf) ∧ (c ∉ pre) ∧ find c s = Z.of_nat (length pre).
Proof.
  induction s as [|x s IH]; simpl; [lia|].
  destruct (N.eqb_spec x c) as [->|Hx].
  - intros _. exists [], s. split_and!; [done| |done]. apply not_elem_of_nil.
  - destruct (Z.ltb_spec (find c s) 0) as [|Hge]; [lia|]. intros _.
    destruct (IH Hge) as (pre & suf & -> & Hpre & Hlen).
    exists (x :: pre), suf. split_and!; [done| |simpl; lia].
    apply not_elem_of_cons. auto.
Qed.

Lemma find_absent c s : find c s = -1 ↔ c ∉ s.
Proof.
  split.
  - intros Hf Hin. apply list_elem_of_split in Hin as (pre & suf & ->).
    revert Hf. induction pre as [|x pre IH]; simpl.
    + by rewrite N.eqb_refl.
    + destruct (x =? c)%N; [done|].
      destruct (Z.ltb_spec (find c (pre ++ (c :: suf))) 0) as [Hlt|]; [|lia].
      intros _. apply IH. pose proof (find_ge c (pre ++ (c :: suf))). lia.
  - intros Hs. pose proof (find_ge c s).
    destruct (Z.ltb_spec (find c s) 0); [lia|].
    destruct (find_split c s) as (pre & suf & -> & _); [done|].
    exfalso. apply Hs. set_solver.
Qed.

Section Normaliser.
Context `{PyRuntime}.

Lemma isdigit_spec s :
  isdigit s = true ↔ s ≠ [] ∧ Forall (λ c, is_digit_char c = true) s.
Proof.
  destruct s as [|c s]; [by split; [|intros []]|]. unfold isdigit.
  rewrite forallb_forall, Forall_forall. 
  split; [intros Hs; split; [done|] |intros [_ Hs]]; intros x Hx; apply Hs;
    by apply list_elem_of_In.
Qed.

Lemma base_user_strip pre suf :
  DOT ∉ pre → pre ≠ [] → Forall (λ c, is_digit_char c = true) pre →
  base_user (pre ++ (DOT :: suf)) = suf.
Proof.
  intros Hdot Hne Hdig. unfold base_user.
  assert (truthy (pre ++ (DOT :: suf)) = true) as -> by by destruct pre.
  simpl. rewrite find_first by done.
  assert ((0 <? Z.of_nat (length pre)) = true) as ->.
  { apply Z.ltb_lt. destruct pre; [done|simpl; lia]. }
  unfold slice_to, slice_from.
  rewrite Nat2Z.id, take_app_length.
  assert (isdigit pre = true) as -> by by apply isdigit_spec.
  replace (Z.to_nat (Z.of_nat (length pre) + 1)) with (length pre + 1)%nat by lia.
  rewrite drop_app_add'; done.
Qed.

Lemma base_user_keep u :
  (¬ ∃ pre suf, u = pre ++ (DOT :: suf) ∧ (DOT ∉ pre) ∧ pre ≠ [] ∧
                Forall (λ c, is_digit_char c = true) pre) →
  base_user u = u.
Proof.
  intros Hno. unfold base_user.
  destruct (truthy u); [simpl|done].
  destruct (Z.ltb_spec 0 (find DOT u)) as [Hpos|]; [|done].
  destruct (find_split DOT u) as (pre & suf & Hu & Hpre & Hlen); [lia|].
  rewrite Hlen. unfold slice_to. rewrite Nat2Z.id.
  rewrite Hu at 1. rewrite take_app_length.
  destruct (isdigit pre) eqn:Hd; [|done].
  apply isdigit_spec in Hd as [Hne Hd]. destruct Hno. by exists pre, suf.
Qed.
End Normaliser.

(** * The matcher against a declarative reading of the pattern *)

Section RepetitionFacts.
Context (cls : char → bool) (lo : nat) (hi : option nat).

Lemma below_within n : below hi n = true → within hi (S n).
Proof. destruct hi; simpl; [|done]. intros ?%Nat.ltb_lt. lia. Qed.

Lemma within_below n j : within hi (n + S j) → below hi n = true.
Proof. destruct hi; simpl; [|done]. intros ?. apply Nat.ltb_lt. lia. Qed.

Lemma taken_stop n (rest : str) (pos : nat) (to : str * nat) :
  within hi n →
  to ∈ (if (lo <=? n)%nat then [(rest, pos)] else []) ↔
  (lo ≤ n)%nat ∧ to = (rest, pos).
Proof.
  intros Hn. destruct (Nat.leb_spec lo n).
  - rewrite list_elem_of_singleton. naive_solver.
  - rewrite elem_of_nil. split; [done|lia].
Qed.

Lemma taken_nil n rest pos to :
  within hi n → (lo ≤ n)%nat ∧ to = (rest, pos) → taken cls lo hi n rest pos to.
Proof.
  intros Hn [Hlo ->]. exists []. simpl. rewrite !Nat.add_0_r. by split_and!.
Qed.

Lemma taken_cons n c rest pos to :
  cls c = true → taken cls lo hi (S n) rest (S pos) to → taken cls lo hi n (c :: rest) pos to.
Proof.
  intros Hc (w & -> & Hw & Hlo & Hhi & Hpos). exists (c :: w). simpl.
  replace (n + S (length w))%nat with (S n + length w)%nat by lia.
  replace (pos + S (length w))%nat with (S pos + length w)%nat by lia.
  split_and!; try done. by constructor.
Qed.

Lemma taken_inv n rest pos to :
  taken cls lo hi n rest pos to →
  ((lo ≤ n)%nat ∧ to = (rest, pos)) ∨
  ∃ c rest', rest = c :: rest' ∧ cls c = true ∧ below hi n = true ∧
    taken cls lo hi (S n) rest' (S pos) to.
Proof.
  intros ([|c w] & Hrest & Hw & Hlo & Hhi & Hpos); simpl in *.
  - left. rewrite Nat.add_0_r in *. split; [done|].
    destruct to; simpl in *; by subst.
  - right. apply Forall_cons in Hw as [Hc Hw]. exists c, (w ++ to.1).
    split_and!; [done|done|by eapply within_below|].
    exists w.
    replace (S n + length w)%nat with (n + S (length w))%nat by lia.
    replace (S pos + length w)%nat with (pos + S (length w))%nat by lia.
    by split_and!.
Qed.

Lemma elem_of_greedy_runs to : ∀ rest n pos,
  within hi n →
  to ∈ greedy_runs cls lo hi n rest pos ↔ taken cls lo hi n rest pos to.
Proof.
  induction rest as [|c rest IH]; intros n pos Hn; simpl.
  - rewrite taken_stop by done. split; [by apply taken_nil|].
    intros [?|(? & ? & ? & _)]%taken_inv; done.
  - destruct (cls c && below hi n) eqn:Hc.
    + apply andb_true_iff in Hc as [Hc Hb].
      rewrite elem_of_app, taken_stop, IH by (done || by apply below_within).
      split.
      * intros [?|?]; [by apply taken_cons|by apply taken_nil].
      * intros [?|(c' & rest' & [= <- <-] & _ & _ & ?)]%taken_inv; auto.
    + rewrite taken_stop by done. split; [by apply taken_nil|].
      intros [?|(c' & rest' & [= <- <-] & Hc' & Hb & _)]%taken_inv; [done|].
      by rewrite Hc', Hb in Hc.
Qed.

Lemma elem_of_lazy_runs to : ∀ rest n pos,
  within hi n →
  to ∈ lazy_runs cls lo hi n rest pos ↔ taken cls lo hi n rest pos to.
Proof.
  induction rest as [|c rest IH]; intros n pos Hn; simpl.
  - rewrite taken_stop by done. split; [by apply taken_nil|].
    intros [?|(? & ? & ? & _)]%taken_inv; done.
  - destruct (cls c && below hi n) eqn:Hc.
    + apply andb_true_iff in Hc as [Hc Hb].
      rewrite elem_of_app, taken_stop, IH by (done || by apply below_within).
      split.
      * intros [?|?]; [by apply taken_nil|by apply taken_cons].
      * intros [?|(c' & rest' & [= <- <-] & _ & _ & ?)]%taken_inv; auto.
    + rewrite taken_stop by done. split; [by apply taken_nil|].
      intros [?|(c' & rest' & [= <- <-] & Hc' & Hb & _)]%taken_inv; [done|].
      by rewrite Hc', Hb in Hc.
Qed.
End RepetitionFacts.

Lemma within_0 hi : within hi 0.
Proof. destruct hi; simpl; [lia|done]. Qed.

(** The search finds exactly the matches of the declarative reading. *)
Lemma elem_of_run re : ∀ rest pos m m',
  m' ∈ run re rest pos m ↔ matches re rest pos m m'.
Proof.
  induction re as [|it re IH]; intros rest pos m m'; simpl.
  { apply list_elem_of_singleton. }
  destruct it as [c|cls lo hi greedy| | | |].
  - destruct rest as [|x rest].
    { rewrite elem_of_nil. split; [done|]. by intros (? & ? & _). }
    destruct (N.eqb_spec x c) as [->|Hx].
    + rewrite IH. split; [eauto|]. by intros (? & [= <-] & ?).
    + rewrite elem_of_nil. split; [done|]. intros (? & [= ? _] & _). done.
  - rewrite list_elem_of_bind. split.
    + intros ([rest' pos'] & Hm' & Hto). simpl in Hm'. apply IH in Hm'.
      assert (taken cls lo hi 0 rest pos (rest', pos'))
        as (w & Hrest & Hw & Hlo & Hhi & Hpos).
      { destruct greedy;
          [by apply elem_of_greedy_runs in Hto; [|apply within_0]
          |by apply elem_of_lazy_runs in Hto; [|apply within_0]]. }
      simpl in Hrest, Hpos. subst. exists w, rest'. by split_and!.
    + intros (w & rest' & -> & Hw & Hlo & Hhi & Hm').
      exists (rest', (pos + length w)%nat). split; [by apply IH|].
      assert (taken cls lo hi 0 (w ++ rest') pos (rest', (pos + length w)%nat))
        as Hto by (exists w; by split_and!).
      destruct greedy;
        [by apply elem_of_greedy_runs; [apply within_0|]
        |by apply elem_of_lazy_runs; [apply within_0|]].
  - apply IH.
  - apply IH.
  - destruct (Nat.eqb_spec pos 0) as [->|Hpos].
    + rewrite IH. naive_solver.
    + rewrite elem_of_nil. naive_solver.
  - destruct rest as [|c [|c' rest]].
    + rewrite IH. naive_solver.
    + destruct (N.eqb_spec c LF) as [->|Hc].
      * rewrite IH. naive_solver.
      * rewrite elem_of_nil. naive_solver.
    + rewrite elem_of_nil. naive_solver.
Qed.

Lemma re_match_sound re s m :
  re_match re s = Some m → matches re s 0 no_spans m.
Proof.
  unfold re_match. intros Hhd. apply elem_of_run.
  destruct (run re s 0 no_spans) as [|m0 l]; [done|].
  injection Hhd as ->. by left.
Qed.

Lemma re_match_complete re s m :
  matches re s 0 no_spans m → is_Some (re_match re s).
Proof.
  unfold re_match. intros Hm%elem_of_run.
  destruct (run re s 0 no_spans) as [|m0 l]; [|by eexists].
  by apply elem_of_nil in Hm.
Qed.

(** * White space at the ends of a string *)

Lemma lstrip_cut s :
  ∃ w, s = w ++ lstrip s ∧ all_space w ∧
    match lstrip s with c :: _ => is_space c = false | [] => True end.
Proof.
  induction s as [|c s IH]; simpl.
  - exists []. by split_and!.
  - destruct IH as (w & Hs & Hw & Hhd). destruct (is_space c) eqn:Hc.
    + exists (c :: w). split_and!; [simpl; congruence|by constructor|done].
    + exists []. by split_and!.
Qed.

Lemma lstrip_all_space w s : all_space w → lstrip (w ++ s) = lstrip s.
Proof. induction 1 as [|c w Hc _ IH]; simpl; [done|]. by rewrite Hc. Qed.

Lemma lstrip_head c s : is_space c = false → lstrip (c :: s) = c :: s.
Proof. intros Hc. simpl. by rewrite Hc. Qed.

Lemma lstrip_nil s : lstrip s = [] ↔ all_space s.
Proof.
  split.
  - destruct (lstrip_cut s) as (w & Hs & Hw & _). intros Hnil.
    rewrite Hnil, app_nil_r in Hs. by subst.
  - intros Hs. rewrite <-(app_nil_r s). by rewrite lstrip_all_space.
Qed.

Lemma lstrip_idemp s : lstrip (lstrip s) = lstrip s.
Proof.
  destruct (lstrip_cut s) as (_ & _ & _ & Hhd).
  destruct (lstrip s) as [|c t]; [done|]. by apply lstrip_head.
Qed.

Lemma lstrip_app s t : lstrip s ≠ [] → lstrip (s ++ t) = lstrip s ++ t.
Proof.
  destruct (lstrip_cut s) as (w & Hs & Hw & Hhd). intros Hne.
  rewrite Hs at 1. rewrite <-app_assoc, lstrip_all_space by done.
  destruct (lstrip s) as [|c r]; [done|]. simpl. by rewrite Hhd.
Qed.

Lemma all_space_reverse s : all_space (reverse s) ↔ all_space s.
Proof. by rewrite Forall_reverse. Qed.

Lemma rstrip_cut s :
  ∃ w, s = rstrip s ++ w ∧ all_space w ∧
    match reverse (rstrip s) with c :: _ => is_space c = false | [] => True end.
Proof.
  unfold rstrip. destruct (lstrip_cut (reverse s)) as (w & Hs & Hw & Hhd).
  exists (reverse w). split_and!.
  - rewrite <-reverse_app, <-Hs. by rewrite reverse_involutive.
  - by apply all_space_reverse.
  - by rewrite reverse_involutive.
Qed.

Lemma rstrip_all_space s w : all_space w → rstrip (s ++ w) = rstrip s.
Proof.
  intros Hw. unfold rstrip. rewrite reverse_app, lstrip_all_space; [done|].
  by apply all_space_reverse.
Qed.

Lemma rstrip_nil s : rstrip s = [] ↔ all_space s.
Proof.
  unfold rstrip. rewrite <-all_space_reverse, <-lstrip_nil. split.
  - intros Hs. apply (f_equal reverse) in Hs.
    by rewrite reverse_involutive in Hs.
  - by intros ->.
Qed.

Lemma strip_nil s : strip s = [] ↔ all_space s.
Proof.
  unfold strip. rewrite rstrip_nil. split; [|intros Hs].
  - intros Hl. destruct (lstrip_cut s) as (w & Hs & Hw & _).
    rewrite Hs. by apply Forall_app.
  - apply lstrip_nil in Hs. rewrite Hs. constructor.
Qed.

Lemma strip_cut s :
  ∃ w1 w2, s = w1 ++ strip s ++ w2 ∧ all_space w1 ∧ all_space w2.
Proof.
  destruct (lstrip_cut s) as (w1 & Hs & Hw1 & _).
  destruct (rstrip_cut (lstrip s)) as (w2 & Ht & Hw2 & _).
  exists w1, w2. unfold strip. by rewrite <-Ht.
Qed.

Lemma strip_pad w1 s w2 :
  all_space w1 → all_space w2 → strip (w1 ++ s ++ w2) = strip s.
Proof.
  intros Hw1 Hw2. unfold strip. rewrite lstrip_all_space by done.
  destruct (lstrip s) as [|c t] eqn:Hs.
  - apply lstrip_nil in Hs.
    assert (lstrip (s ++ w2) = []) as ->; [|done].
    apply lstrip_nil. by apply Forall_app.
  - rewrite lstrip_app by (by rewrite Hs). rewrite Hs.
    by apply rstrip_all_space.
Qed.

Lemma strip_subseteq s c : c ∈ strip s → c ∈ s.
Proof.
  destruct (strip_cut s) as (w1 & w2 & Hs & _). intros Hc.
  rewrite Hs. set_solver.
Qed.

Lemma in_range_false lo hi c : (c < lo ∨ hi < c)%N → in_range lo hi c = false.
Proof.
  intros Hc. unfold in_range.
  destruct (N.leb_spec lo c), (N.leb_spec c hi); try done. lia.
Qed.

Lemma ascii_digit_not_space c : is_ascii_digit c = true → is_space c = false.
Proof.
  unfold is_ascii_digit, in_range at 1. intros [Hlo Hhi]%andb_true_iff.
  apply N.leb_le in Hlo, Hhi. unfold is_space.
  rewrite !in_range_false by lia.
  repeat (rewrite (proj2 (N.eqb_neq c _)) by lia). done.
Qed.

Lemma span_unique {A} (P : A → Prop) a a' x x' r r' :
  Forall P a → Forall P a' → ¬ P x → ¬ P x' →
  a ++ (x :: r) = a' ++ (x' :: r') → a = a' ∧ x = x' ∧ r = r'.
Proof.
  intros Ha. revert a'. induction Ha as [|y a Hy _ IH]; intros a' Ha' Hx Hx'.
  - destruct Ha' as [|y' a' Hy' _]; simpl.
    + by intros [= -> ->].
    + intros [= -> _]. done.
  - destruct Ha' as [|y' a' Hy' Ha']; simpl.
    + intros [= -> _]. done.
    + intros [= -> Heq]. destruct (IH a' Ha' Hx Hx' Heq) as (-> & -> & ->). done.
Qed.

Lemma take_drop_middle_eq {A} (pre mid suf : list A) a n :
  a = length pre → n = length mid →
  take n (drop a (pre ++ mid ++ suf)) = mid.
Proof. intros -> ->. by rewrite drop_app_length, take_app_length. Qed.

(** * The grammar of a log line *)

Section Grammar.
Context `{PyRuntime}.

Lemma decimal_not_space c : is_decimal c = true → is_space c = false.
Proof.
  unfold is_decimal. destruct (c <? 128)%N.
  - apply ascii_digit_not_space.
  - apply unicode_decimal_not_space.
Qed.

Ltac explode Hlo Hhi w :=
  repeat (destruct w as [|? w]; simpl in Hlo, Hhi; try lia); clear Hlo Hhi.
Ltac list_norm := repeat (progress (rewrite <-?app_assoc; cbn [app])).
Ltac len := repeat (rewrite length_app || rewrite length_cons
                    || rewrite length_nil).
Ltac middle pre mid suf :=
  unfold group; simpl;
  match goal with
  | |- take _ (drop _ ?l) = _ =>
      replace l with (pre ++ mid ++ suf)
        by (repeat match goal with x := _ |- _ => unfold x end;
            list_norm; reflexivity)
  end;
  apply take_drop_middle_eq;
  repeat match goal with x := _ |- _ => unfold x end; len; lia.

Lemma RE_MATCHED_sound line m :
  matches RE_MATCHED line 0 no_spans m →
  ∃ stamp ufield hfield, pieces line m stamp ufield hfield.
Proof.
  unfold RE_MATCHED, star, exactly. cbn [matches within].
  intros (_ & lead & r0 & -> & Hlead & _ & _ &
    Y & r1 & -> & HY & HY1 & HY2 & r2 & -> &
    Mo & r3 & -> & HMo & HMo1 & HMo2 & r4 & -> &
    D & r5 & -> & HD & HD1 & HD2 & r6 & -> &
    h & r7 & -> & Hh & Hh1 & Hh2 & r8 & -> &
    mi & r9 & -> & Hmi & Hmi1 & Hmi2 & r10 & -> &
    s & r11 & -> & Hs & Hs1 & Hs2 &
    gap & r12 & -> & Hgap & _ & _ & r13 & -> &
    w1 & r14 & -> & Hw1 & _ & _ & u & r15 & -> & Hu & Hu1 & _ &
    w2 & r16 & -> & Hw2 & _ & _ & r17 & -> &
    w3 & r18 & -> & Hw3 & _ & _ & x & r19 & -> & Hx & Hx1 & _ &
    w4 & r20 & -> & Hw4 & _ & _ & Heol & ->).
  set (stamp := Y ++ 45%N :: Mo ++ 45%N :: D ++ 32%N :: h ++ 58%N
                  :: mi ++ 58%N :: s).
  exists stamp, (w1 ++ u ++ w2), (w3 ++ x ++ w4 ++ r20).
  exists lead, gap, w1, u, w2, w3, x, (w4 ++ r20).
  assert (all_space (w4 ++ r20)) as Hw4'.
  { apply Forall_app. split; [done|].
    destruct Heol as [-> | ->]; repeat constructor. }
  split_and!; try done.
  - subst stamp. list_norm. reflexivity.
  - subst stamp. unfold is_timestamp.
    explode HY1 HY2 Y. explode HMo1 HMo2 Mo. explode HD1 HD2 D.
    explode Hh1 Hh2 h. explode Hmi1 Hmi2 mi. explode Hs1 Hs2 s.
    repeat match goal with
           | Hd : all is_decimal (_ :: _) |- _ =>
               apply Forall_cons in Hd as [? Hd]
           end.
    simpl.
    by repeat (match goal with
               | Hd : is_decimal _ = true |- _ => rewrite Hd; clear Hd
               end).
  - destruct u; [simpl in Hu1; lia|done].
  - destruct x; [simpl in Hx1; lia|done].
  - middle lead stamp
      (gap ++ BAR :: w1 ++ u ++ w2 ++ BAR :: w3 ++ x ++ w4 ++ r20).
  - middle (lead ++ stamp ++ gap ++ BAR :: w1) u
      (w2 ++ BAR :: w3 ++ x ++ w4 ++ r20).
  - middle (lead ++ stamp ++ gap ++ BAR :: w1 ++ u ++ w2 ++ BAR :: w3) x
      (w4 ++ r20).
Qed.

Lemma timestamp_chars stamp :
  is_timestamp stamp →
  ∃ y1 y2 y3 y4 m1 m2 d1 d2 h1 h2 i1 i2 s1 s2,
    stamp = [y1; y2; y3; y4; 45; m1; m2; 45; d1; d2; 32; h1; h2; 58;
             i1; i2; 58; s1; s2]%N ∧
    all is_decimal [y1; y2; y3; y4; m1; m2; d1; d2; h1; h2; i1; i2; s1; s2].
Proof.
  unfold is_timestamp, TIMESTAMP_FORM. intros Hform.
  do 19 (destruct stamp as [|? stamp];
         [simpl in Hform; by rewrite ?andb_false_r in Hform|]).
  destruct stamp; [|simpl in Hform; by rewrite ?andb_false_r in Hform].
  simpl in Hform.
  repeat match goal with
         | Hf : _ && _ = true |- _ => apply andb_true_iff in Hf as [? Hf]
         | Hf : (_ =? _)%N = true |- _ => apply N.eqb_eq in Hf; subst
         end.
  do 14 eexists. split; [reflexivity|]. by repeat constructor.
Qed.

Lemma timestamp_length stamp : is_timestamp stamp → length stamp = 19%nat.
Proof. by intros (?&?&?&?&?&?&?&?&?&?&?&?&?&?& -> & _)%timestamp_chars. Qed.

Lemma timestamp_head stamp :
  is_timestamp stamp → ∃ c t, stamp = c :: t ∧ is_space c = false.
Proof.
  intros (y1&?&?&?&?&?&?&?&?&?&?&?&?&?& -> & Hd)%timestamp_chars.
  eexists _; eexists. split; [done|]. apply decimal_not_space.
  by apply Forall_cons in Hd as [? _].
Qed.

Lemma RE_MATCHED_complete lead stamp gap w1 u w2 w3 x w4 :
  all_space lead → is_timestamp stamp → all_space gap →
  all_space w1 → all not_bar u → u ≠ [] → all_space w2 →
  all_space w3 → all dot x → x ≠ [] → all_space w4 →
  ∃ m, matches RE_MATCHED
         (lead ++ stamp ++ gap ++ BAR :: ((w1 ++ u ++ w2) ++ BAR :: (w3 ++ x ++ w4)))
         0 no_spans m.
Proof.
  intros Hlead (y1&y2&y3&y4&m1&m2&d1&d2&h1&h2&i1&i2&s1&s2& -> & Hd)%timestamp_chars
    Hgap Hw1 Hu Hu1 Hw2 Hw3 Hx Hx1 Hw4.
  repeat match goal with
         | Hd : all is_decimal (_ :: _) |- _ =>
             apply Forall_cons in Hd as [? Hd]
         end.
  eexists. unfold RE_MATCHED, star, exactly. cbn [matches within].
  split; [done|].
  exists lead; eexists. split_and!; [reflexivity|done|lia|done|].
  exists [y1; y2; y3; y4]; eexists.
  split_and!; [reflexivity|by repeat constructor|simpl; lia..|].
  eexists. split; [reflexivity|].
  exists [m1; m2]; eexists.
  split_and!; [reflexivity|by repeat constructor|simpl; lia..|].
  eexists. split; [reflexivity|].
  exists [d1; d2]; eexists.
  split_and!; [reflexivity|by repeat constructor|simpl; lia..|].
  eexists. split; [reflexivity|].
  exists [h1; h2]; eexists.
  split_and!; [reflexivity|by repeat constructor|simpl; lia..|].
  eexists. split; [reflexivity|].
  exists [i1; i2]; eexists.
  split_and!; [reflexivity|by repeat constructor|simpl; lia..|].
  eexists. split; [reflexivity|].
  exists [s1; s2]; eexists.
  split_and!; [reflexivity|by repeat constructor|simpl; lia..|].
  exists gap; eexists. split_and!; [reflexivity|done|lia|done|].
  eexists. split; [reflexivity|].
  exists w1; eexists. split_and!; [by rewrite <-!app_assoc|done|lia|done|].
  exists u; eexists. split_and!; [reflexivity|done| |done|].
  { destruct u; [done|simpl; lia]. }
  exists w2; eexists. split_and!; [reflexivity|done|lia|done|].
  eexists. split; [reflexivity|].
  exists w3; eexists. split_and!; [reflexivity|done|lia|done|].
  exists x; eexists. split_and!; [reflexivity|done| |done|].
  { destruct x; [done|simpl; lia]. }
  exists w4, [].
  split_and!; [by rewrite app_nil_r|done|lia|done|by left|reflexivity].
Qed.

Lemma not_bar_spec c : not_bar c = true ↔ c ≠ BAR.
Proof. unfold not_bar. rewrite negb_true_iff. apply N.eqb_neq. Qed.

Lemma dot_spec c : dot c = true ↔ c ≠ LF.
Proof. unfold dot. rewrite negb_true_iff. apply N.eqb_neq. Qed.

Lemma all_space_no_bar w : all_space w → BAR ∉ w.
Proof.
  intros Hw Hin. rewrite Forall_forall in Hw. by apply Hw in Hin.
Qed.

Lemma all_not_bar u : all not_bar u ↔ BAR ∉ u.
Proof.
  rewrite Forall_forall. split.
  - intros Hu Hin. by apply Hu, not_bar_spec in Hin.
  - intros Hu c Hc. apply not_bar_spec. by intros ->.
Qed.

Lemma all_dot x : all dot x ↔ LF ∉ x.
Proof.
  rewrite Forall_forall. split.
  - intros Hx Hin. by apply Hx, dot_spec in Hin.
  - intros Hx c Hc. apply dot_spec. by intros ->.
Qed.

Lemma has_host_cut hfield :
  has_host hfield ↔
  ∃ w3 x w4, hfield = w3 ++ x ++ w4 ∧
    all_space w3 ∧ all dot x ∧ x ≠ [] ∧ all_space w4.
Proof.
  split.
  - intros [(c & Hc & Hlf) Hstrip].
    destruct (strip hfield) as [|c0 t] eqn:Hs.
    + apply strip_nil in Hs.
      apply list_elem_of_split in Hc as (w3 & w4 & ->).
      apply Forall_app in Hs as [Hw3 [_ Hw4]%Forall_cons].
      exists w3, [c], w4. split_and!; try done.
      by apply Forall_singleton, dot_spec.
    + destruct (strip_cut hfield) as (w3 & w4 & Hh & Hw3 & Hw4).
      exists w3, (strip hfield), w4. rewrite Hs in *.
      split_and!; try done. by apply all_dot.
  - intros (w3 & x & w4 & -> & Hw3 & Hx & Hx1 & Hw4). split.
    + destruct x as [|c x]; [done|]. exists c. split; [set_solver|].
      apply Forall_cons in Hx as [Hc _]. by apply dot_spec.
    + rewrite strip_pad by done. intros Hin%strip_subseteq.
      by apply all_dot in Hx.
Qed.

Lemma three_fields_unique
    lead stamp gap ufield hfield lead' stamp' gap' ufield' hfield' :
  lead ++ stamp ++ gap ++ BAR :: (ufield ++ BAR :: hfield)
    = lead' ++ stamp' ++ gap' ++ BAR :: (ufield' ++ BAR :: hfield') →
  all_space lead → is_timestamp stamp → all_space gap → BAR ∉ ufield →
  all_space lead' → is_timestamp stamp' → all_space gap' → BAR ∉ ufield' →
  stamp = stamp' ∧ ufield = ufield' ∧ hfield = hfield'.
Proof.
  intros Heq Hlead Hstamp Hgap Hu Hlead' Hstamp' Hgap' Hu'.
  pose proof (timestamp_length _ Hstamp) as Hlen.
  pose proof (timestamp_length _ Hstamp') as Hlen'.
  destruct (timestamp_head _ Hstamp) as (c & t & -> & Hc).
  destruct (timestamp_head _ Hstamp') as (c' & t' & -> & Hc').
  simpl in Heq.
  apply (span_unique (λ c, is_space c = true)) in Heq
    as (_ & -> & Heq); [|done|done|congruence..].
  apply app_inj_1 in Heq as [-> Heq]; [|simpl in *; lia].
  apply (span_unique (λ c, is_space c = true)) in Heq
    as (_ & _ & Heq); [|done..].
  apply (span_unique (λ c, c ≠ BAR)) in Heq as (-> & _ & ->);
    [done| | |auto..].
  - apply Forall_forall. intros ? ? ->. done.
  - apply Forall_forall. intros ? ? ->. done.
Qed.

Lemma parse_line_eq line :
  parse_line line =
    match re_match RE_MATCHED line with
    | None => None
    | Some m =>
        let ts := group line m 1 in
        let user := strip (group line m 2) in
        let host := strip (group line m 3) in
        if negb (truthy user) then None
        else Some {| ts := ts; user := user;
                     host := if truthy host then host else UNKNOWN |}
    end.
Proof. reflexivity. Qed.

Lemma parse_line_pieces line m stamp ufield hfield :
  re_match RE_MATCHED line = Some m →
  pieces line m stamp ufield hfield →
  parse_line line =
    if truthy (strip ufield)
    then Some {| ts := stamp; user := strip ufield; host := host_of hfield |}
    else None.
Proof.
  intros Hre
    (lead & gap & w1 & u & w2 & w3 & x & w4 & _ & -> & -> & _ & _ & _ &
     Hw1 & _ & _ & Hw2 & Hw3 & _ & _ & Hw4 & Hg1 & Hg2 & Hg3).
  rewrite parse_line_eq, Hre. cbv zeta. rewrite Hg1, Hg2, Hg3.
  unfold host_of. rewrite !strip_pad by done.
  by destruct (truthy (strip u)).
Qed.

(** The parser accepts exactly the lines of three fields with a host
    field the pattern can match, and returns their trimmed fields. *)
Lemma parse_line_three_fields line ev :
  parse_line line = Some ev ↔ three_fields has_host line ev.
Proof.
  split.
  - intros Hev. destruct (re_match RE_MATCHED line) as [m|] eqn:Hre;
      [|by rewrite parse_line_eq, Hre in Hev].
    destruct (RE_MATCHED_sound line m) as (stamp & ufield & hfield & Hp);
      [exact (re_match_sound _ _ _ Hre)|].
    rewrite (parse_line_pieces _ m stamp ufield hfield Hre Hp) in Hev.
    destruct (truthy (strip ufield)) eqn:Hu; [|done]. injection Hev as <-.
    destruct Hp as (lead & gap & w1 & u & w2 & w3 & x & w4 & -> & -> & -> &
      Hlead & Hstamp & Hgap & Hw1 & Hu0 & Hu1 & Hw2 & Hw3 & Hx & Hx1 & Hw4 & _).
    exists lead, stamp, gap, (w1 ++ u ++ w2), (w3 ++ x ++ w4).
    split_and!; try done.
    + rewrite !not_elem_of_app. split_and!;
        [by apply all_space_no_bar|by apply all_not_bar|by apply all_space_no_bar].
    + by apply truthy_true.
    + apply has_host_cut. by exists w3, x, w4.
  - intros (lead & stamp & gap & ufield & hfield & -> & Hlead & Hstamp &
      Hgap & Hbar & Hu & [w3 [x [w4 (-> & Hw3 & Hx & Hx1 & Hw4)]]]%has_host_cut & ->).
    assert (ufield ≠ []) as Hu1 by (by intros ->).
    destruct (RE_MATCHED_complete lead stamp gap [] ufield [] w3 x w4)
      as [m0 Hm0]; try done; [by apply all_not_bar|].
    rewrite (app_nil_l (ufield ++ [])), (app_nil_r ufield) in Hm0.
    destruct (re_match_complete _ _ _ Hm0) as [m Hre].
    destruct (RE_MATCHED_sound _ m (re_match_sound _ _ _ Hre))
      as (stamp' & ufield' & hfield' & Hp).
    rewrite (parse_line_pieces _ m stamp' ufield' hfield' Hre Hp).
    destruct Hp as (lead' & gap' & w1' & u' & w2' & w3' & x' & w4' & Heq &
      Hu' & Hh' & Hlead' & Hstamp' & Hgap' & Hw1' & Hu0' & _ & Hw2' & _).
    apply three_fields_unique in Heq as (<- & <- & <-); try done.
    + apply truthy_true in Hu. by rewrite Hu.
    + rewrite Hu', !not_elem_of_app. split_and!;
        [by apply all_space_no_bar|by apply all_not_bar|by apply all_space_no_bar].
Qed.
End Grammar.

(** * The aggregation index *)

Section IndexFacts.
Context `{PyRuntime} `{Settings}.

(** The five fields of an updated record. *)
Lemma count_update ev a : count (update ev a) = count a + 1.
Proof. unfold update. by repeat case_match. Qed.

Lemma last_ts_update ev a :
  last_ts (update ev a) =
    if negb (truthy (last_ts a)) || str_gtb (ts ev) (last_ts a)
    then ts ev else last_ts a.
Proof. unfold update. simpl. by repeat case_match. Qed.

Lemma sample_host_update ev a :
  sample_host (update ev a) =
    if negb (truthy (last_ts a)) || str_gtb (ts ev) (last_ts a)
    then host ev else sample_host a.
Proof. unfold update. simpl. by repeat case_match. Qed.

Lemma variants_update ev a :
  variants (update ev a) = {[user ev]} ∪ variants a.
Proof. unfold update. simpl. by repeat case_match. Qed.

Lemma hosts_update ev a :
  hosts (update ev a) =
    if truthy (host ev) && (Z.of_nat (size (hosts a)) <? MAX_HOSTS_PER_USER)
    then {[host ev]} ∪ hosts a else hosts a.
Proof.
  unfold update. simpl.
  destruct (negb (truthy (last_ts a)) || str_gtb (ts ev) (last_ts a)); simpl;
    by destruct (truthy (host ev) && _).
Qed.

Lemma apply_lookup ev AGG :
  _apply_event_to_agg ev AGG !! base_user (user ev) =
    Some (update ev (default (seed ev) (AGG !! base_user (user ev)))).
Proof.
  unfold _apply_event_to_agg. rewrite lookup_insert_eq.
  by destruct (AGG !! base_user (user ev)).
Qed.

Lemma apply_lookup_ne ev AGG b :
  b ≠ base_user (user ev) → _apply_event_to_agg ev AGG !! b = AGG !! b.
Proof. intros Hb. unfold _apply_event_to_agg. by rewrite lookup_insert_ne. Qed.

Lemma last_ts_update_le ev a :
  str_leb (last_ts a) (last_ts (update ev a)) = true.
Proof.
  rewrite last_ts_update.
  destruct (truthy (last_ts a)) eqn:Ht; simpl.
  - unfold str_gtb. destruct (str_ltb (last_ts a) (ts ev)) eqn:Hlt.
    + by apply str_ltb_leb.
    + apply str_leb_refl.
  - apply truthy_false in Ht as ->. unfold str_leb. by rewrite str_ltb_nil_r.
Qed.

Lemma last_ts_update_ge ev a :
  str_leb (ts ev) (last_ts (update ev a)) = true.
Proof.
  rewrite last_ts_update.
  destruct (truthy (last_ts a)) eqn:Ht; simpl; [|apply str_leb_refl].
  unfold str_gtb, str_leb. destruct (str_ltb (last_ts a) (ts ev)) eqn:Hlt.
  - by rewrite str_ltb_irrefl.
  - by rewrite Hlt.
Qed.

Lemma hosts_update_size ev a :
  Z.of_nat (size (hosts a)) ≤ Z.max 1 MAX_HOSTS_PER_USER →
  Z.of_nat (size (hosts (update ev a))) ≤ Z.max 1 MAX_HOSTS_PER_USER.
Proof.
  intros Ha. rewrite hosts_update.
  destruct (truthy (host ev)); simpl; [|done].
  destruct (Z.ltb_spec (Z.of_nat (size (hosts a))) MAX_HOSTS_PER_USER); [|done].
  pose proof (size_union_alt {[host ev]} (hosts a)) as Hsz.
  pose proof (subseteq_size (hosts a ∖ {[host ev]}) (hosts a)) as Hsub.
  rewrite size_singleton in Hsz.
  assert (size (hosts a ∖ {[host ev]}) ≤ size (hosts a))%nat
    by apply Hsub, subseteq_difference_l, reflexivity.
  lia.
Qed.

Lemma hosts_seed_size ev :
  Z.of_nat (size (hosts (seed ev))) ≤ Z.max 1 MAX_HOSTS_PER_USER.
Proof.
  simpl. destruct (truthy (host ev)).
  - rewrite size_singleton. lia.
  - rewrite size_empty. lia.
Qed.

Lemma apply_all_snoc evs ev AGG :
  apply_all (evs ++ [ev]) AGG = _apply_event_to_agg ev (apply_all evs AGG).
Proof. unfold apply_all. by rewrite foldl_app. Qed.

Lemma apply_all_summarises b evs AGG :
  AGG !! b = None →
  evs ≠ [] →
  Forall (λ ev, base_user (user ev) = b) evs →
  ∃ a, apply_all evs AGG !! b = Some a ∧ summarises evs a.
Proof.
  intros Hnew. induction evs as [|ev evs IH] using rev_ind; [done|].
  intros _ Hkey. apply Forall_app in Hkey as [Hkey Hev].
  apply Forall_inv in Hev. simpl in Hev. subst b.
  rewrite apply_all_snoc, apply_lookup.
  eexists; split; [done|].
  destruct evs as [|ev0 evs0].
  - simpl. rewrite Hnew. simpl. split_and!.
    + by rewrite count_update.
    + apply hosts_update_size, hosts_seed_size.
    + rewrite last_ts_update. simpl.
      destruct (_ || _); apply list_elem_of_singleton; done.
    + apply Forall_singleton, last_ts_update_ge.
  - destruct IH as (a & -> & Hcount & Hsize & Hin & Hmax); [done..|].
    simpl default. split_and!.
    + rewrite count_update, Hcount, !length_app. simpl. lia.
    + by apply hosts_update_size.
    + rewrite fmap_app, last_ts_update. simpl.
      destruct (_ || _); set_solver.
    + apply Forall_app. split.
      * eapply Forall_impl; [exact Hmax|]. intros e He. simpl in He.
        eapply str_leb_trans; [exact He|apply last_ts_update_le].
      * apply Forall_singleton, last_ts_update_ge.
Qed.

Lemma keyed_by_base_apply ev AGG :
  keyed_by_base AGG → keyed_by_base (_apply_event_to_agg ev AGG).
Proof.
  intros Hinv b a. destruct (decide (b = base_user (user ev))) as [->|Hb].
  - rewrite apply_lookup. intros [= <-]. rewrite variants_update.
    split; [set_solver|]. intros v [Hv|Hv]%elem_of_union.
    + apply elem_of_singleton in Hv. by subst.
    + destruct (AGG !! base_user (user ev)) as [a|] eqn:Ha; simpl in Hv.
      * by apply (Hinv _ a).
      * apply elem_of_singleton in Hv. by subst.
  - rewrite apply_lookup_ne by done. apply Hinv.
Qed.
End IndexFacts.

Lemma filter_agree {A} (P Q : A → Prop) `{∀ x, Decision (P x)}
    `{∀ x, Decision (Q x)} (l : list A) :
  (∀ x, x ∈ l → P x ↔ Q x) → filter P l = filter Q l.
Proof.
  induction l as [|x l IH]; intros HPQ; [done|].
  rewrite !filter_cons. rewrite IH by (intros y Hy; apply HPQ; by right).
  destruct (decide (P x)) as [HP|HP], (decide (Q x)) as [HQ|HQ]; try done;
    exfalso; apply (HPQ x) in HP || apply HP, (HPQ x); try done; by left.
Qed.

(** * The broadcaster *)

Section BroadcasterFacts.
Context {M : Type}.
Implicit Types (b : broadcaster M) (msg : M) (q : nat).

Lemma put_nowait_Some msg (qu : queue M) :
  full qu = false →
  put_nowait msg qu = Some {| maxsize := maxsize qu; items := items qu ++ [msg] |}.
Proof. intros Hq. unfold put_nowait. by rewrite Hq. Qed.

Lemma put_nowait_None msg (qu : queue M) :
  full qu = true → put_nowait msg qu = None.
Proof. intros Hq. unfold put_nowait. by rewrite Hq. Qed.

(** The first loop, over identities that are pairwise distinct. *)
Lemma offer_loop msg l : ∀ st dead,
  NoDup l →
  ∃ st', foldl (offer msg) (st, dead) l
           = (st', dead ++ filter (λ q, accepts msg st q = None) l) ∧
    (∀ q, q ∉ l → st' !! q = st !! q) ∧
    (∀ q, q ∈ l → st' !! q = from_option Some (st !! q) (accepts msg st q)).
Proof.
  induction l as [|q0 l IH]; intros st dead Hnd.
  - exists st. rewrite filter_nil, app_nil_r. split_and!; [done..|].
    intros q Hq. by apply elem_of_nil in Hq.
  - apply NoDup_cons in Hnd as [Hq0 Hnd]. simpl foldl.
    unfold offer at 2. simpl. fold (accepts msg st q0).
    destruct (accepts msg st q0) as [qu'|] eqn:Hacc.
    + destruct (IH (<[q0:=qu']> st) dead Hnd) as (st' & -> & Hout & Hin).
      exists st'. split_and!.
      * rewrite filter_cons_False by (rewrite Hacc; naive_solver).
        do 2 f_equal. apply filter_agree. intros q Hq. unfold accepts.
        rewrite lookup_insert_ne; [done|]. intros ->. done.
      * intros q Hq. apply not_elem_of_cons in Hq as [Hne Hq].
        rewrite Hout by done. by rewrite lookup_insert_ne.
      * intros q [->|Hq]%elem_of_cons.
        -- rewrite Hout by done. rewrite lookup_insert_eq, Hacc. done.
        -- rewrite Hin by done. unfold accepts.
           rewrite lookup_insert_ne; [done|]. intros ->. done.
    + destruct (IH st (dead ++ [q0]) Hnd) as (st' & -> & Hout & Hin).
      exists st'. split_and!.
      * rewrite filter_cons_True by done. by rewrite <-app_assoc.
      * intros q Hq. apply not_elem_of_cons in Hq as [Hne Hq]. by apply Hout.
      * intros q [->|Hq]%elem_of_cons.
        -- rewrite Hout by done. by rewrite Hacc.
        -- by apply Hin.
Qed.

(** The second loop. *)
Lemma unsubscribe_loop dead : ∀ b,
  foldl (λ b q, unsubscribe q b) b dead
    = {| store := store b; subscribers := subscribers b ∖ list_to_set dead |}.
Proof.
  induction dead as [|q dead IH]; intros b; simpl.
  - destruct b as [st subs]. simpl. f_equal. set_solver.
  - rewrite IH. simpl. f_equal. set_solver.
Qed.

(** [broadcast] in one step: every subscribed queue that accepts the
    message gets it at its end, every other one leaves the set. *)
Lemma broadcast_store msg b q :
  store (broadcast msg b) !! q =
    if decide (q ∈ subscribers b)
    then from_option Some (store b !! q) (accepts msg (store b) q)
    else store b !! q.
Proof.
  unfold broadcast. destruct (decide (subscribers b = ∅)) as [Hemp|Hne].
  { rewrite decide_False; [done|]. rewrite Hemp. set_solver. }
  destruct (offer_loop msg (elements (subscribers b)) (store b) [])
    as (st' & -> & Hout & Hin); [apply NoDup_elements|].
  rewrite unsubscribe_loop. simpl.
  destruct (decide (q ∈ subscribers b)) as [Hq|Hq].
  - apply Hin. by apply elem_of_elements.
  - apply Hout. by rewrite elem_of_elements.
Qed.

Lemma broadcast_subscribers msg b q :
  q ∈ subscribers (broadcast msg b) ↔
    q ∈ subscribers b ∧ is_Some (accepts msg (store b) q).
Proof.
  unfold broadcast. destruct (decide (subscribers b = ∅)) as [Hemp|Hne].
  { rewrite Hemp. set_solver. }
  destruct (offer_loop msg (elements (subscribers b)) (store b) [])
    as (st' & -> & _); [apply NoDup_elements|].
  rewrite unsubscribe_loop. simpl.
  rewrite elem_of_difference, elem_of_list_to_set, list_elem_of_filter,
    elem_of_elements.
  destruct (accepts msg (store b) q) as [qu|].
  - split; [intros [? _]; eauto|intros [? _]; split; [done|]; intros [? _]; done].
  - split; [intros [? Hn]; destruct Hn; done|intros [_ [? ?]]; done].
Qed.

Lemma unsubscribe_idemp q b : unsubscribe q (unsubscribe q b) = unsubscribe q b.
Proof. unfold unsubscribe. simpl. f_equal. set_solver. Qed.

Lemma unsubscribe_absent q b : q ∉ subscribers b → unsubscribe q b = b.
Proof.
  intros Hq. destruct b as [st subs]. unfold unsubscribe. simpl in *.
  f_equal. set_solver.
Qed.

Lemma subscribe_fresh b : (subscribe b).1 ∉ dom (store b).
Proof. apply is_fresh. Qed.

Lemma subscribe_store b q :
  store (subscribe b).2 !! q =
    if decide (q = (subscribe b).1)
    then Some {| maxsize := 0; items := [] |} else store b !! q.
Proof.
  simpl. destruct (decide _) as [->|Hq].
  - by rewrite lookup_insert_eq.
  - by rewrite lookup_insert_ne.
Qed.

Lemma subscribe_subscribers b :
  subscribers (subscribe b).2 = {[(subscribe b).1]} ∪ subscribers b.
Proof. done. Qed.
End BroadcasterFacts.

(** * The backward reader and the paginator *)

(** ** [split] *)

Lemma split_not_nil {A} `{EqDecision A} (sep : A) s : split sep s ≠ [].
Proof. induction s as [|x s IH]; simpl; [done|]. by repeat case_match. Qed.

Lemma split_no_sep {A} `{EqDecision A} (sep : A) s :
  sep ∉ s → split sep s = [s].
Proof.
  induction s as [|x s IH]; intros Hs; simpl; [done|].
  apply not_elem_of_cons in Hs as [Hx Hs].
  rewrite decide_False by done. by rewrite IH.
Qed.

Lemma split_line {A} `{EqDecision A} (sep : A) l s :
  sep ∉ l → split sep (l ++ (sep :: s)) = l :: split sep s.
Proof.
  induction l as [|x l IH]; intros Hl; simpl.
  - by rewrite decide_True.
  - apply not_elem_of_cons in Hl as [Hx Hl].
    rewrite decide_False by done. by rewrite IH.
Qed.

Lemma split_join_lines ls :
  Forall (λ l, bLF ∉ l) ls → split bLF (join_lines ls) = ls ++ [[]].
Proof.
  induction 1 as [|l ls Hl _ IH]; [done|].
  unfold join_lines. simpl. rewrite <-app_assoc. simpl.
  rewrite split_line by done. by f_equal.
Qed.

Lemma removelast_snoc {A} (l : list A) x : removelast (l ++ [x]) = l.
Proof. rewrite removelast_app by done. simpl. apply app_nil_r. Qed.

Lemma last_snoc {A} (l : list A) x d : List.last (l ++ [x]) d = x.
Proof. apply last_last. Qed.

Lemma reverse_take_reverse {A} (l : list A) n :
  reverse (take n (reverse l)) = drop (length l - n) l.
Proof.
  rewrite <-(reverse_involutive l) at 3. rewrite drop_reverse, length_reverse.
  destruct (decide (n ≤ length l)%nat).
  - f_equal. f_equal. lia.
  - rewrite !take_ge by (rewrite ?length_reverse; lia). done.
Qed.

Lemma omap_reverse {A B} (f : A → option B) l :
  omap f (reverse l) = reverse (omap f l).
Proof.
  induction l as [|x l IH]; [done|].
  rewrite reverse_cons, omap_app, IH. simpl.
  destruct (f x); simpl; by rewrite ?reverse_cons, ?app_nil_r.
Qed.

Section HistoryFacts.
Context `{PyRuntime}.

(** ** The reading loop ends *)
Lemma backward_loop_total fuel f chunk_size : ∀ pos buffer,
  0 < chunk_size → pos ≤ Z.of_nat fuel →
  is_Some (backward_loop fuel f chunk_size pos buffer).
Proof.
  induction fuel as [|fuel IH]; intros pos buffer Hcs Hpos; simpl.
  - destruct (Z.ltb_spec 0 pos); [lia|]. eauto.
  - destruct (Z.ltb_spec 0 pos); [|eauto].
    edestruct (IH (pos - Z.min chunk_size pos)) as [[later b] ->]; [done|lia|].
    eauto.
Qed.

Lemma _iter_file_backward_total f chunk_size :
  0 < chunk_size → is_Some (_iter_file_backward f chunk_size).
Proof.
  intros Hcs. unfold _iter_file_backward.
  destruct (backward_loop_total (length f) f chunk_size
              (Z.of_nat (length f)) [] Hcs) as [[ys b] ->]; [lia|]. eauto.
Qed.

(** ** A file of whole lines that fits in one chunk *)
Lemma _iter_file_backward_one_chunk ls chunk_size :
  Forall (λ l, bLF ∉ l) ls →
  Z.of_nat (length (join_lines ls)) ≤ chunk_size →
  _iter_file_backward (join_lines ls) chunk_size
    = Some (decode <$> reverse ls).
Proof.
  intros Hls Hsize. unfold _iter_file_backward.
  destruct ls as [|l ls]; [done|].
  set (f := join_lines (l :: ls)) in *.
  assert (0 < length f)%nat as Hpos.
  { subst f. unfold join_lines. simpl. rewrite !length_app. simpl. lia. }
  destruct (length f) as [|n] eqn:Hlen; [lia|].
  cbn [backward_loop].
  destruct (Z.ltb_spec 0 (Z.of_nat (S n))); [|lia].
  rewrite Z.min_r by lia. rewrite Z.sub_diag.
  unfold read_at. destruct (Z.ltb_spec (Z.of_nat (S n)) 0); [lia|].
  unfold slice_from, slice_to. change (Z.to_nat 0) with 0%nat.
  rewrite Nat2Z.id, !drop_0, <-Hlen, firstn_all, app_nil_r.
  subst f. rewrite split_join_lines by done.
  rewrite removelast_snoc, last_snoc.
  destruct n; simpl; by rewrite !app_nil_r.
Qed.

(** ** The collecting loop *)

Lemma collect_spec base limit before_ts raws : ∀ results count,
  collect base limit before_ts raws results count
    = results ++ take (Z.to_nat (Z.max 1 (limit - count)))
                      (omap (selected base before_ts) raws).
Proof.
  induction raws as [|raw raws IH]; intros results count; simpl.
  { by rewrite take_nil, app_nil_r. }
  unfold selected at 1.
  destruct (parse_line (strip raw)) as [ev|]; [|apply IH].
  destruct (at_or_after before_ts ev); [apply IH|].
  destruct (bool_decide (base_user (user ev) = base)); simpl; [|apply IH].
  destruct (Z.leb_spec limit (count + 1)).
  - replace (Z.to_nat (Z.max 1 (limit - count))) with 1%nat by lia.
    simpl. by rewrite take_0.
  - rewrite IH, <-app_assoc. simpl.
    replace (Z.to_nat (Z.max 1 (limit - count)))
      with (S (Z.to_nat (Z.max 1 (limit - (count + 1))))) by lia.
    done.
Qed.

Lemma selected_Some base before_ts raw ev :
  selected base before_ts raw = Some ev ↔
    parse_line (strip raw) = Some ev ∧ base_user (user ev) = base ∧
    at_or_after before_ts ev = false.
Proof.
  unfold selected.
  destruct (parse_line (strip raw)) as [ev'|]; [|by split; [|intros [? _]]].
  destruct (at_or_after before_ts ev') eqn:Hat.
  { split; [done|]. intros ([= ->] & _ & Hev). congruence. }
  case_bool_decide as Hb.
  - split; [by intros [= <-]|by intros [? _]].
  - split; [done|]. intros ([= ->] & Hev & _). done.
Qed.

Lemma tail_user_events_spec f base limit before_ts :
  ∃ raws, _iter_file_backward f (Z.shiftl 1 16) = Some raws ∧
    tail_user_events f base limit before_ts
      = Some (reverse (take (Z.to_nat (Z.max 1 limit))
                            (omap (selected base before_ts) raws))).
Proof.
  destruct (_iter_file_backward_total f (Z.shiftl 1 16)) as [raws Hraws];
    [done|].
  exists raws. split; [done|]. unfold tail_user_events. rewrite Hraws.
  rewrite collect_spec. simpl. by rewrite Z.sub_0_r.
Qed.

Lemma ascending_drop n evs : ascending evs → ascending (drop n evs).
Proof.
  intros Hasc i j e1 e2 Hij. rewrite !lookup_drop. apply Hasc. lia.
Qed.

Lemma tail_user_events_one_chunk ls base limit before_ts :
  Forall (λ l, bLF ∉ l) ls →
  Z.of_nat (length (join_lines ls)) ≤ Z.shiftl 1 16 →
  let found := omap (selected base before_ts) (decode <$> ls) in
  tail_user_events (join_lines ls) base limit before_ts
    = Some (drop (length found - Z.to_nat (Z.max 1 limit)) found).
Proof.
  intros Hls Hsize found.
  destruct (tail_user_events_spec (join_lines ls) base limit before_ts)
    as (raws & Hraws & ->).
  rewrite _iter_file_backward_one_chunk in Hraws by done.
  injection Hraws as <-.
  by rewrite fmap_reverse, omap_reverse, reverse_take_reverse.
Qed.
End HistoryFacts.

(** * The bounded full scan *)

Lemma next_line_plain l rest :
  plain l →
  next_line (l ++ (bLF :: rest)) = (l, true, Z.of_nat (length l) + 1).
Proof.
  intros [Hlf Hcr]. induction l as [|b l IH]; simpl.
  - by repeat case_decide.
  - apply not_elem_of_cons in Hlf as [? Hlf].
    apply not_elem_of_cons in Hcr as [? Hcr].
    rewrite !decide_False by done. rewrite IH by done. f_equal. lia.
Qed.

Lemma length_join_lines_cons l ls :
  length (join_lines (l :: ls)) = (length l + 1 + length (join_lines ls))%nat.
Proof.
  change (join_lines (l :: ls)) with ((l ++ [bLF]) ++ join_lines ls).
  rewrite !length_app. simpl. lia.
Qed.

Lemma join_lines_app ls1 ls2 :
  join_lines (ls1 ++ ls2) = join_lines ls1 ++ join_lines ls2.
Proof. unfold join_lines. by rewrite fmap_app, concat_app. Qed.

Lemma omap_cons_Some {A B} (f : A → option B) x y l :
  f x = Some y → omap f (x :: l) = y :: omap f l.
Proof. intros Hx. simpl. by rewrite Hx. Qed.

Lemma omap_cons_None {A B} (f : A → option B) x l :
  f x = None → omap f (x :: l) = omap f l.
Proof. intros Hx. simpl. by rewrite Hx. Qed.

Section FullScanFacts.
Context `{PyRuntime} `{Settings} `{ScanSettings} `{PyZeroDivision}.

(** What the loop does with a whole line of the file. *)
Lemma scan_line_event l read st :
  scan_line (decode l ++ [LF]) read st =
    match line_event l with
    | Some ev =>
        let st' := {| scan_agg := _apply_event_to_agg ev (scan_agg st);
                      scan_read := read;
                      scan_applied := scan_applied st + 1 |} in
        if FULL_SCAN_SLEEP_EVERY =? 0
        then inl (Raised (OtherException modulo_by_zero) st')
        else inr st'
    | None =>
        inr {| scan_agg := scan_agg st; scan_read := read;
               scan_applied := scan_applied st |}
    end.
Proof. unfold scan_line, line_event. by destruct (parse_line _). Qed.

Lemma scan_line_goes_on l read st :
  FULL_SCAN_SLEEP_EVERY ≠ 0 →
  ∃ st', scan_line (decode l ++ [LF]) read st = inr st' ∧
    scan_agg st' = apply_all (omap line_event [l]) (scan_agg st) ∧
    scan_read st' = read.
Proof.
  intros Hevery. rewrite scan_line_event.
  destruct (line_event l) as [ev|] eqn:Hev.
  - cbv zeta. rewrite (proj2 (Z.eqb_neq _ _) Hevery).
    eexists. split; [done|]. by rewrite (omap_cons_Some _ _ _ _ Hev).
  - eexists. split; [done|]. by rewrite (omap_cons_None _ _ _ Hev).
Qed.

Lemma scan_line_quiet l read st :
  line_event l = None →
  scan_line (decode l ++ [LF]) read st
    = inr {| scan_agg := scan_agg st; scan_read := read;
             scan_applied := scan_applied st |}.
Proof. intros Hev. by rewrite scan_line_event, Hev. Qed.

Lemma readline_plain before l rest :
  plain l →
  readline (before ++ l ++ (bLF :: rest)) (Z.of_nat (length before))
    = (decode l ++ [LF], Z.of_nat (length (before ++ l ++ [bLF]))).
Proof.
  intros Hl. unfold readline, slice_from.
  rewrite Nat2Z.id, drop_app_length, next_line_plain by done.
  f_equal. rewrite !length_app. simpl. lia.
Qed.

(** One turn of the loop at the start of a whole line below the stop
    offset, when [tell] returns the byte offset. *)
Lemma scan_loop_plain fuel turn env stop st before l rest :
  tell env turn (Z.of_nat (length before)) = Z.of_nat (length before) →
  Z.of_nat (length before) < stop →
  visible env turn = inr (before ++ l ++ bLF :: rest) →
  plain l →
  scan_loop (S fuel) turn env stop (Z.of_nat (length before)) st
    = match scan_line (decode l ++ [LF]) (Z.of_nat (length before)) st with
      | inl ended => Some ended
      | inr st' =>
          scan_loop fuel (S turn) env stop
                    (Z.of_nat (length (before ++ l ++ [bLF]))) st'
      end.
Proof.
  intros Htell Hpos Hvis Hl. cbn [scan_loop]. rewrite Htell.
  rewrite (proj2 (Z.leb_gt _ _)) by lia. rewrite Hvis.
  rewrite readline_plain by done. cbv beta iota zeta.
  assert (truthy (decode l ++ [LF]) = true) as ->
    by (by destruct (decode l)).
  cbn [negb]. by rewrite Z.min_l by lia.
Qed.

(** The place of a line in a file of whole lines. *)
Lemma join_lines_cut before l todo (extra : bytes) :
  join_lines (before ++ l :: todo) ++ extra
    = join_lines before ++ l ++ bLF :: (join_lines todo ++ extra) ∧
  join_lines before ++ l ++ [bLF] = join_lines (before ++ [l]) ∧
  (length (join_lines before)
   < length (join_lines (before ++ l :: todo)))%nat.
Proof.
  rewrite !join_lines_app.
  change (join_lines (l :: todo)) with ((l ++ [bLF]) ++ join_lines todo).
  change (join_lines [l]) with ((l ++ [bLF]) ++ []).
  rewrite app_nil_r, !length_app. simpl.
  split_and!; [by rewrite <-!app_assoc|done|lia].
Qed.

(** The loop over the lines left below the stop offset: it applies them in
    order and stops there, whatever the file holds beyond. *)
Lemma scan_loop_lines env extra : ∀ todo before fuel turn st,
  FULL_SCAN_SLEEP_EVERY ≠ 0 →
  (∀ turn pos, tell env turn pos = pos) →
  Forall plain todo →
  (∀ turn, visible env turn
           = inr (join_lines (before ++ todo) ++ extra turn)) →
  (length todo < fuel)%nat →
  ∃ st', scan_loop fuel turn env
           (Z.of_nat (length (join_lines (before ++ todo))))
           (Z.of_nat (length (join_lines before))) st
         = Some (Finished st') ∧
    scan_agg st' = apply_all (omap line_event todo) (scan_agg st).
Proof.
  induction todo as [|l todo IH];
    intros before fuel turn st Hevery Htell Hplain Hvis Hfuel.
  - destruct fuel as [|fuel]; [simpl in Hfuel; lia|]. cbn [scan_loop].
    rewrite Htell, app_nil_r, Z.leb_refl. eauto.
  - destruct fuel as [|fuel]; [simpl in Hfuel; lia|].
    apply Forall_cons in Hplain as [Hl Hplain].
    destruct (join_lines_cut before l todo (extra turn))
      as (Hcut & Hnext & Hlt).
    rewrite (scan_loop_plain fuel turn env _ st (join_lines before) l
               (join_lines todo ++ extra turn));
      [|apply Htell|lia|by rewrite Hvis, Hcut|done].
    destruct (scan_line_goes_on l (Z.of_nat (length (join_lines before))) st
                Hevery) as (st1 & -> & Hagg1 & _).
    rewrite Hnext.
    replace (before ++ l :: todo) with ((before ++ [l]) ++ todo) in *
      by (by rewrite <-app_assoc).
    simpl in Hfuel.
    edestruct (IH (before ++ [l]) fuel (S turn) st1) as (st' & -> & Hagg);
      [done|done|done|exact Hvis|lia|].
    eexists. split; [done|]. rewrite Hagg, Hagg1.
    unfold apply_all. by rewrite <-foldl_app, <-omap_app.
Qed.

(** The loop over the lines of a file, when the read raises at the turn at
    which the line [k] would be read. *)
Lemma scan_loop_lines_raise env e : ∀ k todo before fuel turn st,
  FULL_SCAN_SLEEP_EVERY ≠ 0 →
  (∀ turn pos, tell env turn pos = pos) →
  Forall plain todo → (k < length todo)%nat →
  (∀ t, (turn ≤ t < turn + k)%nat →
     ∃ extra, visible env t = inr (join_lines (before ++ todo) ++ extra)) →
  visible env (turn + k) = inl e →
  (k < fuel)%nat →
  ∃ st', scan_loop fuel turn env
           (Z.of_nat (length (join_lines (before ++ todo))))
           (Z.of_nat (length (join_lines before))) st
         = Some (Raised e st') ∧
    scan_agg st' = apply_all (omap line_event (take k todo)) (scan_agg st) ∧
    scan_read st'
      = match k with
        | O => scan_read st
        | S k' => Z.of_nat (length (join_lines (before ++ take k' todo)))
        end.
Proof.
  induction k as [|k IH];
    intros todo before fuel turn st Hevery Htell Hplain Hk Hvis He Hfuel.
  - destruct fuel as [|fuel]; [lia|].
    destruct todo as [|l todo]; [simpl in Hk; lia|].
    destruct (join_lines_cut before l todo []) as (_ & _ & Hlt).
    cbn [scan_loop]. rewrite Htell.
    rewrite (proj2 (Z.leb_gt _ _)) by lia.
    rewrite Nat.add_0_r in He. rewrite He. eauto.
  - destruct fuel as [|fuel]; [lia|].
    destruct todo as [|l todo]; [simpl in Hk; lia|].
    apply Forall_cons in Hplain as [Hl Hplain].
    destruct (Hvis turn) as (extra & Hturn); [lia|].
    destruct (join_lines_cut before l todo extra) as (Hcut & Hnext & Hlt).
    rewrite (scan_loop_plain fuel turn env _ st (join_lines before) l
               (join_lines todo ++ extra));
      [|apply Htell|lia|by rewrite Hturn, Hcut|done].
    destruct (scan_line_goes_on l (Z.of_nat (length (join_lines before))) st
                Hevery) as (st1 & -> & Hagg1 & Hread1).
    rewrite Hnext.
    replace (before ++ l :: todo) with ((before ++ [l]) ++ todo) in *
      by (by rewrite <-app_assoc).
    edestruct (IH todo (before ++ [l]) fuel (S turn) st1)
      as (st' & -> & Hagg & Hread);
      [done|done|done|simpl in Hk; lia| | |lia|].
    { intros t Ht. apply Hvis. lia. }
    { by replace (S turn + k)%nat with (turn + S k)%nat by lia. }
    eexists. split; [done|]. split.
    + rewrite Hagg, Hagg1. cbn [take]. unfold apply_all.
      by rewrite <-foldl_app, <-omap_app.
    + rewrite Hread. destruct k as [|k'].
      * rewrite Hread1, take_0, app_nil_r. done.
      * cbn [take]. by rewrite <-app_assoc.
Qed.

(** The loop when [FULL_SCAN_SLEEP_EVERY] is [0]: it ends at the first
    line that is an event, once this event is applied. *)
Lemma scan_loop_lines_modulo env : ∀ quiet l todo before fuel turn st ev,
  FULL_SCAN_SLEEP_EVERY = 0 →
  (∀ turn pos, tell env turn pos = pos) →
  Forall plain quiet → plain l →
  Forall (λ l, line_event l = None) quiet → line_event l = Some ev →
  (∀ t, ∃ extra,
     visible env t = inr (join_lines (before ++ quiet ++ l :: todo) ++ extra)) →
  (length quiet < fuel)%nat →
  ∃ st', scan_loop fuel turn env
           (Z.of_nat (length (join_lines (before ++ quiet ++ l :: todo))))
           (Z.of_nat (length (join_lines before))) st
         = Some (Raised (OtherException modulo_by_zero) st') ∧
    scan_agg st' = _apply_event_to_agg ev (scan_agg st) ∧
    scan_read st' = Z.of_nat (length (join_lines (before ++ quiet))).
Proof.
  induction quiet as [|l0 quiet IH];
    intros l todo before fuel turn st ev Hevery Htell Hplain Hl Hquiet Hev
           Hvis Hfuel.
  - destruct fuel as [|fuel]; [simpl in Hfuel; lia|].
    destruct (Hvis turn) as (extra & Hturn). cbn [app] in *.
    destruct (join_lines_cut before l todo extra) as (Hcut & Hnext & Hlt).
    rewrite (scan_loop_plain fuel turn env _ st (join_lines before) l
               (join_lines todo ++ extra));
      [|apply Htell|lia|by rewrite Hturn, Hcut|done].
    rewrite scan_line_event, Hev. cbv zeta.
    rewrite (proj2 (Z.eqb_eq _ _) Hevery).
    eexists. split; [done|]. by rewrite app_nil_r.
  - destruct fuel as [|fuel]; [simpl in Hfuel; lia|].
    apply Forall_cons in Hplain as [Hl0 Hplain].
    apply Forall_cons in Hquiet as [Hq0 Hquiet].
    destruct (Hvis turn) as (extra & Hturn). cbn [app] in *.
    destruct (join_lines_cut before l0 (quiet ++ l :: todo) extra)
      as (Hcut & Hnext & Hlt).
    rewrite (scan_loop_plain fuel turn env _ st (join_lines before) l0
               (join_lines (quiet ++ l :: todo) ++ extra));
      [|apply Htell|lia|by rewrite Hturn, Hcut|done].
    rewrite (scan_line_quiet l0 _ st Hq0), Hnext.
    replace (before ++ l0 :: quiet ++ l :: todo)
      with ((before ++ [l0]) ++ quiet ++ l :: todo) in *
      by (by rewrite <-app_assoc).
    edestruct (IH l todo (before ++ [l0]) fuel (S turn)) as (st' & -> & Hagg & Hread);
      [done|done|done|done|done|exact Hev|exact Hvis|simpl in Hfuel; lia|].
    eexists. split; [done|]. split; [exact Hagg|].
    rewrite Hread. by rewrite <-app_assoc.
Qed.

Lemma full_scan_file_lines env AGG ls extra fuel :
  FULL_SCAN_SLEEP_EVERY ≠ 0 →
  (∀ turn pos, tell env turn pos = pos) →
  Forall plain ls →
  stat_result env = inr (Z.of_nat (length (join_lines ls))) →
  open_result env = None →
  (∀ turn, visible env turn = inr (join_lines ls ++ extra turn)) →
  (length ls < fuel)%nat →
  full_scan_file fuel env AGG
    = Some (apply_all (omap line_event ls) AGG,
            {| FULL_SCAN_TOTAL_BYTES := Z.of_nat (length (join_lines ls));
               FULL_SCAN_READ_BYTES := Z.of_nat (length (join_lines ls));
               FULL_SCAN_DONE := true;
               FULL_SCAN_ERR := None |}).
Proof.
  intros Hevery Htell Hplain Hstat Hopen Hvis Hfuel. unfold full_scan_file.
  rewrite Hstat, Hopen.
  edestruct (scan_loop_lines env extra ls [] fuel 0%nat)
    as (st' & Hloop & Hagg); [done|done|done|exact Hvis|done|].
  simpl in Hloop. rewrite Hloop. by rewrite Hagg.
Qed.

Lemma full_scan_file_stat_fails fuel env AGG e :
  stat_result env = inl e →
  full_scan_file fuel env AGG = Some (AGG, scan_failed e 0 0).
Proof. intros Hstat. unfold full_scan_file. by rewrite Hstat. Qed.

Lemma full_scan_file_open_fails fuel env AGG size e :
  stat_result env = inr size → open_result env = Some e →
  full_scan_file fuel env AGG = Some (AGG, scan_failed e size 0).
Proof.
  intros Hstat Hopen. unfold full_scan_file. by rewrite Hstat, Hopen.
Qed.

(** Whenever the coroutine returns, the scan is marked done, and an
    exception leaves its message. *)
Lemma full_scan_file_done fuel env AGG agg prog :
  full_scan_file fuel env AGG = Some (agg, prog) →
  FULL_SCAN_DONE prog = true ∧
  (FULL_SCAN_ERR prog = None →
   FULL_SCAN_READ_BYTES prog = FULL_SCAN_TOTAL_BYTES prog).
Proof.
  unfold full_scan_file. intros Hrun.
  destruct (stat_result env) as [e|size]; [by injection Hrun as <- <-|].
  destruct (open_result env) as [e|]; [by injection Hrun as <- <-|].
  destruct (scan_loop _ _ _ _ _ _) as [[st|e st]|]; [| |done];
    by injection Hrun as <- <-.
Qed.
End FullScanFacts.

(** ** The scan over any content *)

Lemma next_line_taken (data : bytes) :
  data ≠ [] → 1 ≤ (next_line data).2 ≤ Z.of_nat (length data).
Proof.
  induction data as [|b data IH]; [done|]. intros _. cbn [next_line].
  destruct (decide (b = bLF)) as [?|?]; [cbn; lia|].
  destruct (decide (b = bCR)) as [?|?].
  { destruct data as [|b' data]; [cbn; lia|].
    destruct (decide (b' = bLF)) as [?|?]; cbn; lia. }
  destruct data as [|b' data]; [cbn; lia|].
  specialize (IH ltac:(done)).
  destruct (next_line (b' :: data)) as [[body term] k]. cbn in *. lia.
Qed.

(** A line that ends inside the data is read the same whatever follows
    the data. *)
Lemma next_line_app (data rest : bytes) :
  last data = Some bLF → next_line (data ++ rest) = next_line data.
Proof.
  induction data as [|b data IH]; [done|]. intros Hlast.
  cbn [app next_line].
  destruct (decide (b = bLF)) as [?|?]; [done|].
  destruct data as [|b' data]; [cbn in Hlast; congruence|].
  destruct (decide (b = bCR)) as [?|?]; [done|].
  by rewrite IH.
Qed.

Lemma last_drop_lt {A} (l : list A) (n : nat) :
  (n < length l)%nat → last (drop n l) = last l.
Proof.
  revert n. induction l as [|x l IH]; intros n Hn; [simpl in Hn; lia|].
  destruct n as [|n]; [done|]. cbn [drop]. rewrite IH by (simpl in Hn; lia).
  destruct l; [simpl in Hn; lia|done].
Qed.

Section FullScanAnyContent.
Context `{PyRuntime} `{Settings} `{ScanSettings} `{PyZeroDivision}.

(** When no pause setting makes it fail, the loop returns as soon as the
    offset is at or beyond the stop offset, which happens within as many
    turns as there are bytes below it, when the file never gets shorter
    than the stop offset. *)
Lemma scan_loop_finishes env stop :
  FULL_SCAN_SLEEP_EVERY ≠ 0 →
  (∀ turn pos, tell env turn pos = pos) →
  (∀ turn, ∃ content,
     visible env turn = inr content ∧ stop ≤ Z.of_nat (length content)) →
  ∀ fuel turn pos st,
    0 ≤ pos → (Z.to_nat (stop - pos) < fuel)%nat →
    ∃ st', scan_loop fuel turn env stop pos st = Some (Finished st').
Proof.
  intros Hevery Htell Hvis.
  induction fuel as [|fuel IH]; intros turn pos st Hpos Hfuel; [lia|].
  cbn [scan_loop]. rewrite Htell.
  destruct (Z.leb_spec stop pos) as [|Hlt]; [eauto|].
  destruct (Hvis turn) as (content & -> & Hlen). unfold readline.
  pose proof (next_line_taken (slice_from pos content)) as Hn.
  destruct (next_line (slice_from pos content)) as [[body term] k].
  cbn [snd] in Hn.
  assert (1 ≤ k) as Hn1.
  { apply Hn. unfold slice_from. intros Hnil%(f_equal length).
    rewrite length_drop in Hnil. simpl in Hnil. lia. }
  destruct (negb _); [apply IH; lia|].
  unfold scan_line. rewrite (proj2 (Z.eqb_neq _ _) Hevery).
  destruct (parse_line _); apply IH; lia.
Qed.

(** Over a file that ends with a line feed when the scan starts, what is
    appended later plays no part. *)
Lemma scan_loop_appended env env' (f0 : bytes) (extra : nat → bytes) :
  last f0 = Some bLF →
  (∀ turn pos, tell env turn pos = pos) →
  (∀ turn pos, tell env' turn pos = pos) →
  (∀ turn, visible env turn = inr (f0 ++ extra turn)) →
  (∀ turn, visible env' turn = inr f0) →
  ∀ fuel turn pos st,
    0 ≤ pos ≤ Z.of_nat (length f0) →
    scan_loop fuel turn env (Z.of_nat (length f0)) pos st
      = scan_loop fuel turn env' (Z.of_nat (length f0)) pos st.
Proof.
  intros Hlast Htell Htell' Hvis Hvis'.
  induction fuel as [|fuel IH]; intros turn pos st Hpos; [done|].
  cbn [scan_loop]. rewrite Htell, Htell'.
  destruct (Z.leb_spec (Z.of_nat (length f0)) pos) as [|Hlt]; [done|].
  rewrite Hvis, Hvis'. unfold readline, slice_from.
  rewrite drop_app_le by lia.
  rewrite next_line_app by (rewrite last_drop_lt by lia; done).
  pose proof (next_line_taken (drop (Z.to_nat pos) f0)) as Hn.
  destruct (next_line (drop (Z.to_nat pos) f0)) as [[body term] k].
  cbn [snd] in Hn.
  assert (1 ≤ k ≤ Z.of_nat (length f0) - pos) as Hn1.
  { rewrite length_drop in Hn. enough (drop (Z.to_nat pos) f0 ≠ []) as Hne
      by (specialize (Hn Hne); lia).
    intros Hnil%(f_equal length). rewrite length_drop in Hnil.
    simpl in Hnil. lia. }
  destruct (negb _); [apply IH; lia|].
  destruct (scan_line _ _ st); [done|]. apply IH; lia.
Qed.

Lemma full_scan_file_completes fuel env AGG (f0 : bytes) (extra : nat → bytes) :
  FULL_SCAN_SLEEP_EVERY ≠ 0 →
  (∀ turn pos, tell env turn pos = pos) →
  stat_result env = inr (Z.of_nat (length f0)) →
  open_result env = None →
  (∀ turn, visible env turn = inr (f0 ++ extra turn)) →
  (length f0 < fuel)%nat →
  ∃ agg, full_scan_file fuel env AGG
         = Some (agg, {| FULL_SCAN_TOTAL_BYTES := Z.of_nat (length f0);
                         FULL_SCAN_READ_BYTES := Z.of_nat (length f0);
                         FULL_SCAN_DONE := true;
                         FULL_SCAN_ERR := None |}).
Proof.
  intros Hevery Htell Hstat Hopen Hvis Hfuel. unfold full_scan_file.
  rewrite Hstat, Hopen. cbv zeta.
  edestruct (scan_loop_finishes env (Z.of_nat (length f0))) as (st' & ->);
    [done|done| | |..|by eauto].
  - intros turn. eexists. split; [apply Hvis|]. rewrite length_app. lia.
  - done.
  - lia.
Qed.

Lemma full_scan_file_appended fuel env env' AGG (f0 : bytes)
    (extra : nat → bytes) :
  f0 = [] ∨ last f0 = Some bLF →
  (∀ turn pos, tell env turn pos = pos) →
  (∀ turn pos, tell env' turn pos = pos) →
  stat_result env = inr (Z.of_nat (length f0)) →
  stat_result env' = inr (Z.of_nat (length f0)) →
  open_result env = None → open_result env' = None →
  (∀ turn, visible env turn = inr (f0 ++ extra turn)) →
  (∀ turn, visible env' turn = inr f0) →
  full_scan_file fuel env AGG = full_scan_file fuel env' AGG.
Proof.
  intros Hlast Htell Htell' Hstat Hstat' Hopen Hopen' Hvis Hvis'.
  unfold full_scan_file.
  rewrite Hstat, Hstat', Hopen, Hopen'. cbv zeta.
  destruct Hlast as [->|Hlast].
  - destruct fuel as [|fuel]; [done|]. cbn [scan_loop length].
    by rewrite Htell, Htell'.
  - by rewrite (scan_loop_appended env env' f0 extra) by (done || lia).
Qed.
End FullScanAnyContent.

(** * Runs of events, key by key *)

Lemma str_leb_antisym a b :
  str_leb a b = true → str_leb b a = true → a = b.
Proof.
  unfold str_leb. rewrite !negb_true_iff. intros Hba Hab.
  destruct (str_ltb_total a b) as [?|[?|?]]; congruence.
Qed.

Lemma greatest_unique t t' l l' :
  l ≡ₚ l' → greatest t l → greatest t' l' → t = t'.
Proof.
  intros Hperm [Hin Hmax] [Hin' Hmax']. apply str_leb_antisym.
  - rewrite Forall_forall in Hmax'. apply Hmax'. by rewrite <-Hperm.
  - rewrite Forall_forall in Hmax. apply Hmax. by rewrite Hperm.
Qed.

Lemma total_count_insert_new (b : str) (a : aggregate)
    (AGG : gmap str aggregate) :
  AGG !! b = None → total_count (<[b := a]> AGG) = count a + total_count AGG.
Proof.
  intros Hb. unfold total_count.
  rewrite map_fold_insert_L; [done| |done]. intros. lia.
Qed.

Lemma total_count_insert (b : str) (a a0 : aggregate)
    (AGG : gmap str aggregate) :
  AGG !! b = Some a0 →
  total_count (<[b := a]> AGG) = total_count AGG + count a - count a0.
Proof.
  intros Hb. rewrite <-(insert_delete_id AGG b a0) at 2 by done.
  rewrite <-(insert_delete_eq AGG).
  rewrite !total_count_insert_new by apply lookup_delete_eq. lia.
Qed.

Section KeyFacts.
Context `{PyRuntime} `{Settings}.

Lemma of_key_cons b ev evs :
  of_key b (ev :: evs) =
    if decide (base_user (user ev) = b) then ev :: of_key b evs
    else of_key b evs.
Proof. unfold of_key. by rewrite filter_cons. Qed.

Lemma apply_all_cons ev evs AGG :
  apply_all (ev :: evs) AGG = apply_all evs (_apply_event_to_agg ev AGG).
Proof. done. Qed.

(** The record of a key after a run depends on the record before and on
    the events of the key, in their order, and on nothing else. *)
Lemma apply_all_of_key b evs : ∀ AGG AGG',
  AGG !! b = AGG' !! b →
  apply_all evs AGG !! b = apply_all (of_key b evs) AGG' !! b.
Proof.
  induction evs as [|ev evs IH]; intros AGG AGG' Hb; [done|].
  rewrite of_key_cons, apply_all_cons. destruct (decide _) as [<-|Hne].
  - rewrite apply_all_cons. apply IH. by rewrite !apply_lookup, Hb.
  - apply IH. by rewrite apply_lookup_ne.
Qed.

Lemma apply_all_key_run b : ∀ evs AGG,
  Forall (λ ev, base_user (user ev) = b) evs →
  apply_all evs AGG !! b
    = (λ a0, foldl (λ a ev, update ev a) a0 evs) <$> before_run AGG b evs.
Proof.
  induction evs as [|ev evs IH] using rev_ind; intros AGG Hkey.
  - unfold before_run. simpl. by destruct (AGG !! b).
  - apply Forall_app in Hkey as [Hkey Hev]. apply Forall_inv in Hev.
    simpl in Hev. rewrite apply_all_snoc. subst b.
    rewrite apply_lookup, IH by done. unfold before_run.
    destruct (AGG !! base_user (user ev)) as [a0|] eqn:Ha0; simpl.
    + by rewrite foldl_app.
    + destruct evs as [|ev0 evs]; simpl; [done|]. by rewrite foldl_app.
Qed.

Lemma count_run evs : ∀ a0,
  count (foldl (λ a ev, update ev a) a0 evs) = count a0 + Z.of_nat (length evs).
Proof.
  induction evs as [|ev evs IH]; intros a0; simpl; [lia|].
  rewrite IH, count_update. lia.
Qed.

Lemma variants_run evs : ∀ a0,
  variants (foldl (λ a ev, update ev a) a0 evs)
    = variants a0 ∪ list_to_set (user <$> evs).
Proof.
  induction evs as [|ev evs IH]; intros a0; simpl; [set_solver|].
  rewrite IH, variants_update. set_solver.
Qed.

Lemma last_ts_run evs : ∀ a0,
  greatest (last_ts (foldl (λ a ev, update ev a) a0 evs))
           (last_ts a0 :: (ts <$> evs)).
Proof.
  induction evs as [|ev evs IH] using rev_ind; intros a0.
  - split; [left|]. apply Forall_singleton, str_leb_refl.
  - rewrite foldl_app, fmap_app. simpl. destruct (IH a0) as [Hin Hmax].
    split.
    + rewrite last_ts_update. destruct (_ || _); set_solver.
    + rewrite app_comm_cons. apply Forall_app. split.
      * eapply Forall_impl; [exact Hmax|]. intros t Ht. simpl in Ht.
        eapply str_leb_trans; [exact Ht|apply last_ts_update_le].
      * apply Forall_singleton, last_ts_update_ge.
Qed.
Lemma latest_run evs : ∀ a0,
  (last_ts (foldl (λ a ev, update ev a) a0 evs),
   sample_host (foldl (λ a ev, update ev a) a0 evs))
    ∈ (last_ts a0, sample_host a0) :: ((λ ev, (ts ev, host ev)) <$> evs).
Proof.
  induction evs as [|ev evs IH] using rev_ind; intros a0; [left|].
  rewrite foldl_app, fmap_app. simpl.
  rewrite last_ts_update, sample_host_update.
  destruct (_ || _).
  - right. apply elem_of_app. right. by apply list_elem_of_singleton.
  - destruct (proj1 (elem_of_cons _ _ _) (IH a0)) as [->|Hin]; [left|].
    right. apply elem_of_app. by left.
Qed.

Lemma seen_hosts_snoc evs ev :
  seen_hosts (evs ++ [ev])
    = seen_hosts evs ∪ (if truthy (host ev) then {[host ev]} else ∅).
Proof.
  unfold seen_hosts. rewrite fmap_app, filter_app, list_to_set_app_L. f_equal.
  change (host <$> [ev]) with [host ev]. rewrite filter_cons, filter_nil.
  destruct (decide (host ev ≠ [])) as [Hne|Heq].
  - rewrite (proj2 (truthy_true _) Hne). set_solver.
  - assert (host ev = []) as -> by (destruct (host ev); [done|by destruct Heq]).
    done.
Qed.

Lemma seen_hosts_cons ev evs :
  seen_hosts (ev :: evs)
    = (if truthy (host ev) then {[host ev]} else ∅) ∪ seen_hosts evs.
Proof.
  change (ev :: evs) with ([ev] ++ evs).
  pose proof (seen_hosts_snoc [] ev) as Hone. simpl in Hone.
  unfold seen_hosts in *. rewrite fmap_app, filter_app, list_to_set_app_L.
  rewrite Hone. set_solver.
Qed.

Lemma hosts_run_subseteq evs : ∀ a0,
  hosts (foldl (λ a ev, update ev a) a0 evs) ⊆ hosts a0 ∪ seen_hosts evs.
Proof.
  induction evs as [|ev evs IH] using rev_ind; intros a0; [set_solver|].
  rewrite foldl_app, seen_hosts_snoc. simpl. rewrite hosts_update.
  specialize (IH a0). destruct (truthy (host ev)); simpl;
    [destruct (_ <? _)|]; set_solver.
Qed.

(** No host is dropped as long as the hosts seen fit under the cap. *)
Lemma hosts_run_complete evs : ∀ a0,
  Z.of_nat (size (hosts a0 ∪ seen_hosts evs)) ≤ MAX_HOSTS_PER_USER →
  hosts (foldl (λ a ev, update ev a) a0 evs) = hosts a0 ∪ seen_hosts evs.
Proof.
  induction evs as [|ev evs IH] using rev_ind; intros a0 Hcap.
  { unfold seen_hosts. simpl. set_solver. }
  rewrite seen_hosts_snoc in Hcap. rewrite foldl_app, seen_hosts_snoc. simpl.
  rewrite hosts_update.
  assert (size (hosts a0 ∪ seen_hosts evs)
          ≤ size (hosts a0 ∪ (seen_hosts evs ∪
                   (if truthy (host ev) then {[host ev]} else ∅))))%nat
    as Hmono by (apply subseteq_size; set_solver).
  rewrite IH by lia.
  destruct (truthy (host ev)); simpl; [|set_solver].
  destruct (Z.ltb_spec (Z.of_nat (size (hosts a0 ∪ seen_hosts evs)))
              MAX_HOSTS_PER_USER) as [|Hfull]; [set_solver|].
  destruct (decide (host ev ∈ hosts a0 ∪ seen_hosts evs)) as [|Hnew];
    [set_solver|].
  exfalso.
  assert (size (hosts a0 ∪ (seen_hosts evs ∪ {[host ev]}))
          = S (size (hosts a0 ∪ seen_hosts evs))) as Hsz.
  { rewrite (assoc_L (∪)), size_union by set_solver.
    rewrite size_singleton. lia. }
  lia.
Qed.
Lemma of_key_key b evs :
  Forall (λ ev, base_user (user ev) = b) (of_key b evs).
Proof. apply Forall_forall. by intros ev [? _]%list_elem_of_filter. Qed.

(** A run of events of a key the index does not hold. *)
Lemma apply_all_new_key b k AGG :
  AGG !! b = None → k ≠ [] →
  Forall (λ ev, base_user (user ev) = b) k →
  ∃ a, apply_all k AGG !! b = Some a ∧
    count a = Z.of_nat (length k) ∧
    variants a = list_to_set (user <$> k) ∧
    greatest (last_ts a) (ts <$> k) ∧
    (last_ts a, sample_host a) ∈ (λ ev, (ts ev, host ev)) <$> k ∧
    hosts a ⊆ seen_hosts k ∧
    (Z.of_nat (size (seen_hosts k)) ≤ MAX_HOSTS_PER_USER →
     hosts a = seen_hosts k).
Proof.
  intros Hnew Hk Hkey. rewrite apply_all_key_run by done. unfold before_run.
  rewrite Hnew. destruct k as [|ev0 r]; [done|]. eexists. split; [done|].
  set (run := ev0 :: r).
  assert (hosts (seed ev0) ∪ seen_hosts run = seen_hosts run) as Hseed.
  { unfold run. rewrite seen_hosts_cons. simpl.
    destruct (truthy (host ev0)); set_solver. }
  split_and!.
  - by rewrite count_run.
  - rewrite variants_run. unfold run. simpl. set_solver.
  - destruct (last_ts_run run (seed ev0)) as [Hin Hmax]. split.
    + apply elem_of_cons in Hin as [->|Hin]; [left|done].
    + by apply Forall_inv_tail in Hmax.
  - destruct (proj1 (elem_of_cons _ _ _) (latest_run run (seed ev0)))
      as [->|Hin]; [left|done].
  - rewrite <-Hseed. apply hosts_run_subseteq.
  - intros Hcap. rewrite <-Hseed. apply hosts_run_complete. by rewrite Hseed.
Qed.

(** A run of events of a key the index holds. *)
Lemma apply_all_old_key b k AGG a0 :
  AGG !! b = Some a0 →
  Forall (λ ev, base_user (user ev) = b) k →
  ∃ a, apply_all k AGG !! b = Some a ∧
    count a = count a0 + Z.of_nat (length k) ∧
    variants a = variants a0 ∪ list_to_set (user <$> k) ∧
    greatest (last_ts a) (last_ts a0 :: (ts <$> k)).
Proof.
  intros Hold Hkey. rewrite apply_all_key_run by done. unfold before_run.
  rewrite Hold. eexists. split; [done|].
  split_and!; [apply count_run|apply variants_run|apply last_ts_run].
Qed.

Lemma total_count_apply ev AGG :
  total_count (_apply_event_to_agg ev AGG) = total_count AGG + 1.
Proof.
  unfold _apply_event_to_agg.
  destruct (AGG !! base_user (user ev)) as [a0|] eqn:Ha0.
  - rewrite (total_count_insert _ _ a0) by done. rewrite count_update. lia.
  - rewrite total_count_insert_new by done. rewrite count_update. simpl. lia.
Qed.
End KeyFacts.

(** * More on white space *)

Lemma rstrip_idemp s : rstrip (rstrip s) = rstrip s.
Proof. unfold rstrip. by rewrite reverse_involutive, lstrip_idemp. Qed.

Lemma rstrip_app s t : rstrip t ≠ [] → rstrip (s ++ t) = s ++ rstrip t.
Proof.
  intros Ht. unfold rstrip in *. rewrite reverse_app, lstrip_app.
  - by rewrite reverse_app, reverse_involutive.
  - intros Hnil. apply Ht. by rewrite Hnil.
Qed.

Lemma rstrip_last s c : is_space c = false → rstrip (s ++ [c]) = s ++ [c].
Proof.
  intros Hc. unfold rstrip. rewrite reverse_app. simpl.
  rewrite Hc. by rewrite reverse_cons, reverse_involutive.
Qed.

Lemma lstrip_rstrip s : lstrip s = s → lstrip (rstrip s) = rstrip s.
Proof.
  intros Hs. destruct (rstrip_cut s) as (w & Hcut & _).
  destruct (lstrip_cut s) as (_ & _ & _ & Hhd). rewrite Hs in Hhd.
  destruct (rstrip s) as [|c t]; [done|].
  rewrite Hcut in Hhd. simpl in Hhd. by apply lstrip_head.
Qed.

Lemma strip_idemp s : strip (strip s) = strip s.
Proof.
  unfold strip. rewrite lstrip_rstrip by apply lstrip_idemp.
  apply rstrip_idemp.
Qed.

Lemma strip_rstrip s : strip (rstrip s) = strip s.
Proof.
  destruct (rstrip_cut s) as (w & Hs & Hw & _).
  rewrite Hs at 2. symmetry. apply (strip_pad [] _ w); [constructor|done].
Qed.

Lemma strip_framed c s d :
  is_space c = false → is_space d = false →
  strip (c :: s ++ [d]) = c :: s ++ [d].
Proof.
  intros Hc Hd. unfold strip. rewrite lstrip_head by done.
  by apply (rstrip_last (c :: s)).
Qed.

Lemma rstrip_lf_cut s : ∃ w, s = rstrip_lf s ++ w ∧ all_space w.
Proof.
  assert (∀ r, ∃ w, r = w ++ lstrip_lf r ∧ all_space w) as Hcut.
  { induction r as [|c r (w & Hr & Hw)]; [by exists []|]. simpl.
    destruct (N.eqb_spec c LF) as [->|_]; [|by exists []].
    exists (LF :: w). split; [simpl; congruence|by constructor]. }
  unfold rstrip_lf. destruct (Hcut (reverse s)) as (w & Hs & Hw).
  exists (reverse w). split; [|by apply all_space_reverse].
  rewrite <-reverse_app, <-Hs. by rewrite reverse_involutive.
Qed.

Lemma strip_rstrip_lf s : strip (rstrip_lf s) = strip s.
Proof.
  destruct (rstrip_lf_cut s) as (w & Hs & Hw).
  rewrite Hs at 2. symmetry. apply (strip_pad [] _ w); [constructor|done].
Qed.

(** * More on the grammar of a line *)

Section GrammarFacts.
Context `{PyRuntime}.

Lemma host_of_strip h h' : strip h = strip h' → host_of h = host_of h'.
Proof. unfold host_of. by intros ->. Qed.

(** A line of three fields whose host field is empty is no event. *)
Lemma parse_line_no_host line ev :
  three_fields (λ hfield, hfield = []) line ev → parse_line line = None.
Proof.
  intros (lead & stamp & gap & ufield & hfield & Hline &
    ? & ? & ? & ? & _ & Hnil & _).
  destruct (parse_line line) as [ev'|] eqn:Hev; [exfalso|done].
  apply parse_line_three_fields in Hev.
  destruct Hev as (lead' & stamp' & gap' & ufield' & hfield' & Hline' &
    ? & ? & ? & ? & _ & [(c & Hc & _) _] & _).
  rewrite Hline in Hline'.
  apply three_fields_unique in Hline' as (_ & _ & Hh); [|done..].
  rewrite <-Hh, Hnil in Hc. by apply elem_of_nil in Hc.
Qed.

(** A line of three fields, trimmed: no event when the host field is
    white space only, and the event of the line otherwise. *)
Lemma parse_line_strip_fields lead stamp gap ufield hfield :
  all_space lead → is_timestamp stamp → all_space gap →
  BAR ∉ ufield → strip ufield ≠ [] → has_host hfield →
  (all_space hfield →
   parse_line (strip (lead ++ stamp ++ gap ++ BAR :: ufield ++ BAR :: hfield))
     = None) ∧
  (¬ all_space hfield →
   parse_line (strip (lead ++ stamp ++ gap ++ BAR :: ufield ++ BAR :: hfield))
     = Some {| ts := stamp; user := strip ufield; host := host_of hfield |}).
Proof.
  intros Hlead Hstamp Hgap Hbar Hu [(c0 & Hc0 & Hc0lf) Hlf].
  destruct (timestamp_head _ Hstamp) as (c & t & Hct & Hc).
  destruct (rstrip_cut hfield) as (w & Hh & Hw & Hlast).
  assert (is_space BAR = false) as Hbarsp by done.
  destruct (rstrip hfield) as [|d0 h0] eqn:Hr.
  - apply rstrip_nil in Hr. split; [intros _|done].
    replace (lead ++ stamp ++ gap ++ BAR :: ufield ++ BAR :: hfield)
      with (lead ++ (c :: (t ++ gap ++ BAR :: ufield) ++ [BAR]) ++ hfield)
      by (rewrite Hct; simpl; by rewrite <-!app_assoc).
    rewrite strip_pad, strip_framed by done.
    apply (parse_line_no_host _ {| ts := stamp; user := strip ufield;
                                   host := host_of [] |}).
    exists [], stamp, gap, ufield, []. split_and!; try done.
    rewrite Hct. simpl. by rewrite <-!app_assoc.
  - split; [intros Hall%rstrip_nil; congruence|intros _].
    assert (∃ h1 d, d0 :: h0 = h1 ++ [d] ∧ is_space d = false)
      as (h1 & d & Hd & Hdsp).
    { destruct (reverse (d0 :: h0)) as [|d r] eqn:Hrev.
      - apply (f_equal reverse) in Hrev.
        by rewrite reverse_involutive in Hrev.
      - exists (reverse r), d. split; [|done].
        apply (f_equal reverse) in Hrev.
        by rewrite reverse_involutive, reverse_cons in Hrev. }
    rewrite Hd in Hh.
    assert (strip (h1 ++ [d]) = strip hfield) as Hsame.
    { rewrite Hh. symmetry. apply (strip_pad [] _ w); [constructor|done]. }
    replace (lead ++ stamp ++ gap ++ BAR :: ufield ++ BAR :: hfield)
      with (lead ++ (c :: (t ++ gap ++ BAR :: ufield ++ BAR :: h1) ++ [d]) ++ w)
      by (rewrite Hct, Hh; simpl; rewrite <-!app_assoc; simpl;
          by rewrite <-!app_assoc).
    rewrite strip_pad, strip_framed by done.
    apply parse_line_three_fields.
    exists [], stamp, gap, ufield, (h1 ++ [d]). split_and!; try done.
    + rewrite Hct. simpl. rewrite <-!app_assoc. simpl.
      by rewrite <-!app_assoc.
    + split; [|by rewrite Hsame]. exists d. split; [set_solver|].
      by intros ->.
    + f_equal. by apply host_of_strip.
Qed.

(** The two cases of a line that is an event. *)
Lemma parse_line_strip_Some line ev :
  parse_line line = Some ev →
  (blank_host line ∧ host ev = UNKNOWN ∧ parse_line (strip line) = None) ∨
  (¬ blank_host line ∧ parse_line (strip line) = Some ev).
Proof.
  intros (lead & stamp & gap & ufield & hfield & -> & Hlead & Hstamp & Hgap &
    Hbar & Hu & Hhost & ->)%parse_line_three_fields.
  destruct (parse_line_strip_fields lead stamp gap ufield hfield)
    as [Hblank Hfull]; [done..|].
  destruct (rstrip hfield) as [|d0 h0] eqn:Hr.
  - apply rstrip_nil in Hr. left. split_and!.
    + eexists. exists lead, stamp, gap, ufield, hfield. by split_and!.
    + unfold host_of. cbn [host]. by rewrite (proj2 (strip_nil hfield) Hr).
    + by apply Hblank.
  - assert (¬ all_space hfield) as Hnot
      by (intros Hall%rstrip_nil; congruence).
    right. split; [|by apply Hfull].
    intros (ev' & lead' & stamp' & gap' & ufield' & hfield' & Hline' &
      Hlead' & Hstamp' & Hgap' & Hbar' & _ & [_ Hall'] & _).
    apply three_fields_unique in Hline' as (_ & _ & <-); done.
Qed.

(** A line whose host field is white space only is an event. *)
Lemma blank_host_event line : blank_host line → is_Some (parse_line line).
Proof.
  intros (ev & lead & stamp & gap & ufield & hfield & Hline &
    Hlead & Hstamp & Hgap & Hbar & Hu & [Hhost _] & Hev).
  exists ev. apply parse_line_three_fields.
  exists lead, stamp, gap, ufield, hfield. by split_and!.
Qed.

Lemma parse_line_strip_None line :
  parse_line line = None → parse_line (strip line) = None.
Proof.
  intros Hnone. destruct (parse_line (strip line)) as [ev|] eqn:Hev; [|done].
  exfalso.
  apply parse_line_three_fields in Hev
    as (lead & stamp & gap & ufield & hfield & Hline & Hlead & Hstamp & Hgap &
        Hbar & Hu & [(c0 & Hc0 & Hc0lf) Hlf] & ->).
  destruct (strip_cut line) as (w1 & w2 & Hcut & Hw1 & Hw2).
  assert (parse_line line
          = Some {| ts := stamp; user := strip ufield;
                    host := host_of hfield |}) as Hsome; [|congruence].
  apply parse_line_three_fields.
  assert (strip (hfield ++ w2) = strip hfield) as Hsame
    by (apply (strip_pad [] _ w2); [constructor|done]).
  exists (w1 ++ lead), stamp, gap, ufield, (hfield ++ w2).
  split_and!; try done.
  - rewrite Hcut, Hline. rewrite <-!app_assoc. simpl.
    by rewrite <-!app_assoc.
  - by apply Forall_app.
  - split; [|by rewrite Hsame]. exists c0. split; [set_solver|done].
  - f_equal. symmetry. by apply host_of_strip.
Qed.

Lemma parse_line_format stamp u h :
  is_timestamp stamp → u ≠ [] → strip u = u → BAR ∉ u →
  h ≠ [] → strip h = h → LF ∉ h →
  parse_line (format_line {| ts := stamp; user := u; host := h |})
    = Some {| ts := stamp; user := u; host := h |}.
Proof.
  intros Hstamp Hu Hus Hbar Hh Hhs Hlf. apply parse_line_three_fields.
  assert (strip ([32%N] ++ u ++ [32%N]) = u) as Hsu.
  { rewrite strip_pad; [done|by repeat constructor..]. }
  assert (strip (32%N :: h) = h) as Hsh.
  { rewrite <-Hhs at 2. rewrite <-(app_nil_r h) at 1.
    apply (strip_pad [32%N] h []); by repeat constructor. }
  exists [], stamp, [32%N], ([32%N] ++ u ++ [32%N]), (32%N :: h).
  split_and!.
  - unfold format_line. simpl. change (lit " | ") with [32%N; BAR; 32%N].
    rewrite <-?app_assoc. simpl. by rewrite <-?app_assoc.
  - constructor.
  - done.
  - by repeat constructor.
  - rewrite !not_elem_of_app, !list_elem_of_singleton. by split_and!.
  - by rewrite Hsu.
  - split; [|by rewrite Hsh]. exists 32%N. split; [left|done].
  - unfold host_of. rewrite Hsu, Hsh.
    by rewrite (proj2 (truthy_true h) Hh).
Qed.

Lemma parse_line_shape line ev :
  parse_line line = Some ev → well_formed ev.
Proof.
  intros (lead & stamp & gap & ufield & hfield & -> & Hlead & Hstamp & Hgap &
    Hbar & Hu & [_ Hlf] & ->)%parse_line_three_fields.
  unfold well_formed. simpl. split_and!; try done.
  - apply strip_idemp.
  - by intros Hin%strip_subseteq.
  - unfold host_of. destruct (truthy (strip hfield)) eqn:Ht; [|done].
    by apply truthy_true.
  - unfold host_of. destruct (truthy (strip hfield)); [|done].
    apply strip_idemp.
  - unfold host_of. destruct (truthy (strip hfield)); [done|].
    by apply (bool_decide_unpack _); vm_compute.
Qed.

Lemma line_event_strip (l : bytes) :
  strip (rstrip_lf (decode l ++ [LF])) = strip (decode l).
Proof.
  rewrite strip_rstrip_lf. apply (strip_pad [] _ [LF]); by repeat constructor.
Qed.
End GrammarFacts.

(** * Broadcasters without bound *)

Section UnboundedFacts.
Context {M : Type}.
Implicit Types (b : broadcaster M) (msg : M) (q : nat).

Lemma unbounded_accepts msg b q :
  unbounded b → q ∈ subscribers b →
  ∃ qu, store b !! q = Some qu ∧ maxsize qu ≤ 0 ∧
    accepts msg (store b) q
      = Some {| maxsize := maxsize qu; items := items qu ++ [msg] |}.
Proof.
  intros Hb Hq. destruct (Hb q Hq) as (qu & Hqu & Hmax).
  exists qu. split_and!; [done..|]. unfold accepts. rewrite Hqu. simpl.
  apply put_nowait_Some. unfold full.
  by rewrite (proj2 (Z.ltb_ge 0 (maxsize qu))) by lia.
Qed.

Lemma broadcast_unbounded msg b :
  unbounded b →
  subscribers (broadcast msg b) = subscribers b ∧
  (∀ q, q ∈ subscribers b →
     inbox (broadcast msg b) q = (λ l, l ++ [msg]) <$> inbox b q) ∧
  unbounded (broadcast msg b).
Proof.
  intros Hb.
  assert (subscribers (broadcast msg b) = subscribers b) as Hsubs.
  { apply set_eq. intros q. rewrite broadcast_subscribers. split; [by intros [? _]|].
    intros Hq. split; [done|].
    destruct (unbounded_accepts msg b q Hb Hq) as (qu & _ & _ & ->). eauto. }
  split_and!; [done| |].
  - intros q Hq. destruct (unbounded_accepts msg b q Hb Hq) as (qu & Hqu & _ & Hacc).
    unfold inbox. rewrite broadcast_store, decide_True, Hacc, Hqu by done. done.
  - intros q. rewrite Hsubs. intros Hq.
    destruct (unbounded_accepts msg b q Hb Hq) as (qu & Hqu & Hmax & Hacc).
    eexists. rewrite broadcast_store, decide_True, Hacc by done. split; [done|].
    done.
Qed.

Lemma subscribe_unbounded b : unbounded b → unbounded (subscribe b).2.
Proof.
  intros Hb q. rewrite subscribe_subscribers, subscribe_store.
  destruct (decide (q = (subscribe b).1)) as [->|Hne].
  - intros _. eexists. split; [done|]. simpl. lia.
  - intros [Hq|Hq]%elem_of_union; [by apply elem_of_singleton in Hq|].
    by apply Hb.
Qed.

Lemma unsubscribe_unbounded q b : unbounded b → unbounded (unsubscribe q b).
Proof.
  intros Hb q'. unfold unsubscribe. simpl. intros [Hq _]%elem_of_difference.
  by apply Hb.
Qed.

Lemma broadcast_all_unbounded msgs : ∀ b,
  unbounded b →
  subscribers (broadcast_all msgs b) = subscribers b ∧
  (∀ q, q ∈ subscribers b →
     inbox (broadcast_all msgs b) q = (λ l, l ++ msgs) <$> inbox b q) ∧
  unbounded (broadcast_all msgs b).
Proof.
  induction msgs as [|msg msgs IH] using rev_ind; intros b Hb.
  - split_and!; [done| |done]. intros q _. simpl.
    destruct (inbox b q); simpl; by rewrite ?app_nil_r.
  - unfold broadcast_all in *. rewrite foldl_app. simpl.
    destruct (IH b Hb) as (Hsubs & Hin & Hunb).
    destruct (broadcast_unbounded msg _ Hunb) as (Hsubs' & Hin' & Hunb').
    split_and!; [congruence| |done].
    intros q Hq. rewrite Hin' by (by rewrite Hsubs). rewrite Hin by done.
    destruct (inbox b q); simpl; by rewrite ?app_assoc.
Qed.
End UnboundedFacts.

(** * Pages of the history *)

Lemma filter_all {A} (P : A → Prop) `{∀ x, Decision (P x)} (l : list A) :
  Forall P l → filter P l = l.
Proof.
  induction 1 as [|x l Hx _ IH]; [done|].
  by rewrite filter_cons_True, IH.
Qed.

Lemma filter_none {A} (P : A → Prop) `{∀ x, Decision (P x)} (l : list A) :
  Forall (λ x, ¬ P x) l → filter P l = [].
Proof.
  induction 1 as [|x l Hx _ IH]; [done|].
  by rewrite filter_cons_False, IH.
Qed.

Lemma omap_agree {A B} (f g : A → option B) (l : list A) :
  (∀ x, f x = g x) → omap f l = omap g l.
Proof.
  intros Hfg. induction l as [|x l IH]; [done|]. csimpl.
  by rewrite Hfg, IH.
Qed.

Lemma omap_bind_filter {A B} (f : A → option B) (P : B → bool) (l : list A) :
  omap (λ x, f x ≫= λ y, if P y then Some y else None) l
    = filter (λ y, P y = true) (omap f l).
Proof.
  induction l as [|x l IH]; [done|]. destruct (f x) as [y|] eqn:Hx.
  - rewrite (omap_cons_Some f x y l Hx). destruct (P y) eqn:Hy.
    + rewrite (omap_cons_Some _ x y) by (by rewrite Hx; simpl; rewrite Hy).
      rewrite filter_cons_True by done. by rewrite IH.
    + rewrite omap_cons_None by (by rewrite Hx; simpl; rewrite Hy).
      rewrite filter_cons_False by (by rewrite Hy). done.
  - rewrite (omap_cons_None f x l Hx).
    by rewrite omap_cons_None by (by rewrite Hx).
Qed.

(** In a list that goes down strictly, the events below the one at index
    [k] are the events after it. *)
Lemma newest_first_below evs k e :
  newest_first evs → evs !! k = Some e →
  filter (λ ev, str_ltb (ts ev) (ts e) = true) evs = drop (S k) evs.
Proof.
  intros Hdown He.
  rewrite <-(take_drop_middle evs k e He) at 1.
  rewrite filter_app, filter_cons_False by (by rewrite str_ltb_irrefl).
  rewrite filter_none, filter_all; [done| |].
  - apply Forall_forall. intros ev [i Hi]%list_elem_of_lookup.
    rewrite lookup_drop in Hi. apply (Hdown k (S k + i)%nat); [lia|done..].
  - apply Forall_forall. intros ev [i Hi]%list_elem_of_lookup.
    apply lookup_take_Some in Hi as [Hi Hik].
    rewrite (str_ltb_asym (ts e) (ts ev)); [done|].
    by apply (Hdown i k).
Qed.

Section PageFacts.
Context `{PyRuntime}.

Lemma selected_cursor base c raw :
  c ≠ [] →
  selected base (Some c) raw
    = selected base None raw ≫=
        λ ev, if str_ltb (ts ev) c then Some ev else None.
Proof.
  intros Hc%truthy_true. unfold selected, at_or_after, str_geb.
  destruct (parse_line (strip raw)) as [ev|]; [|done]. rewrite Hc. simpl.
  destruct (bool_decide _); simpl; by destruct (str_ltb (ts ev) c).
Qed.

Lemma selected_timestamp base before_ts raw ev :
  selected base before_ts raw = Some ev → ts ev ≠ [].
Proof.
  intros (Hev%parse_line_shape & _)%selected_Some.
  destruct Hev as (Hts%timestamp_length & _). intros Hnil.
  by rewrite Hnil in Hts.
Qed.

Lemma tail_user_events_older f base limit raws e rest :
  1 ≤ limit →
  _iter_file_backward f (Z.shiftl 1 16) = Some raws →
  newest_first (omap (selected base None) raws) →
  tail_user_events f base limit None = Some (e :: rest) →
  ∃ older,
    tail_user_events f base limit (Some (ts e)) = Some older ∧
    older ++ e :: rest
      = reverse (take (2 * Z.to_nat limit) (omap (selected base None) raws)).
Proof.
  intros Hlimit Hraws Hdown Hpage.
  destruct (tail_user_events_spec f base limit None) as (raws1 & Hr1 & Hp1).
  destruct (tail_user_events_spec f base limit (Some (ts e)))
    as (raws2 & Hr2 & Hp2).
  rewrite Hraws in Hr1, Hr2. injection Hr1 as <-. injection Hr2 as <-.
  rewrite Hp1 in Hpage. injection Hpage as Hpage.
  replace (Z.to_nat (1 `max` limit)) with (Z.to_nat limit) in * by lia.
  set (n := Z.to_nat limit) in *. assert (0 < n)%nat as Hn by lia.
  set (G := omap (selected base None) raws) in *.
  eexists. split; [exact Hp2|].
  assert (take n G = reverse rest ++ [e]) as Htake.
  { apply (f_equal reverse) in Hpage.
    by rewrite reverse_involutive, reverse_cons in Hpage. }
  assert (G !! length rest = Some e) as He.
  { assert (take n G !! length rest = Some e) as Hk.
    { rewrite Htake, lookup_app_r by (by rewrite length_reverse).
      by rewrite length_reverse, Nat.sub_diag. }
    by apply lookup_take_Some in Hk as [? _]. }
  assert (ts e ≠ []) as Hts.
  { apply list_elem_of_lookup_2, list_elem_of_omap in He as (raw & _ & Hsel).
    by eapply selected_timestamp. }
  assert (omap (selected base (Some (ts e))) raws = drop (S (length rest)) G)
    as ->.
  { rewrite <-(newest_first_below G _ e Hdown He). unfold G.
    rewrite <-omap_bind_filter. apply omap_agree.
    intros raw. by apply selected_cursor. }
  rewrite <-Hpage, <-reverse_app. f_equal.
  assert (length (take n G) = S (length rest)) as Hlen
    by (rewrite Htake, length_app, length_reverse; simpl; lia).
  rewrite length_take in Hlen.
  destruct (decide (n ≤ length G)%nat) as [Hle|Hgt].
  - replace (S (length rest)) with n by lia.
    rewrite take_take_drop. f_equal. lia.
  - rewrite (drop_ge G) by lia. rewrite take_nil, app_nil_r.
    rewrite !take_ge by lia. done.
Qed.
End PageFacts.

(** * The index built from the end of the file *)

Lemma slice_last_fmap {A B} (f : A → B) (n : Z) (l : list A) :
  slice_last n (f <$> l) = f <$> slice_last n l.
Proof.
  unfold slice_last. rewrite length_fmap. destruct (0 <? n); symmetry; apply fmap_drop.
Qed.

Lemma slice_last_all {A} (n : Z) (l : list A) :
  n = 0 ∨ Z.of_nat (length l) ≤ n → slice_last n l = l.
Proof.
  intros Hn. unfold slice_last. destruct (Z.ltb_spec 0 n).
  - replace (length l - Z.to_nat n)%nat with 0%nat by lia. done.
  - replace (Z.to_nat (- n)) with 0%nat by lia. done.
Qed.

Section InitialIndexFacts.
Context `{PyRuntime} `{Settings}.

Lemma decode_nil : decode [] = [].
Proof. unfold decode. by rewrite utf8_ignore_ascii by constructor. Qed.

(** More fuel than bytes left changes nothing. *)
Lemma readlines_from_enough content : ∀ fuel fuel' pos,
  0 ≤ pos →
  (Z.to_nat (Z.of_nat (length content) - pos) < fuel)%nat →
  (Z.to_nat (Z.of_nat (length content) - pos) < fuel')%nat →
  readlines_from fuel content pos = readlines_from fuel' content pos.
Proof.
  induction fuel as [|fuel IH]; intros fuel' pos Hpos Hfuel Hfuel'; [lia|].
  destruct fuel' as [|fuel']; [lia|]. cbn [readlines_from]. unfold readline.
  destruct (decide (Z.of_nat (length content) ≤ pos)) as [Hend|Hin].
  { unfold slice_from. rewrite drop_ge by lia. simpl.
    by rewrite decode_nil. }
  pose proof (next_line_taken (slice_from pos content)) as Hn.
  destruct (next_line (slice_from pos content)) as [[body term] k].
  cbn [snd] in Hn.
  assert (1 ≤ k ≤ Z.of_nat (length content) - pos) as Hk.
  { unfold slice_from in Hn. rewrite length_drop in Hn.
    enough (drop (Z.to_nat pos) content ≠ []) as Hne
      by (specialize (Hn Hne); lia).
    intros Hnil%(f_equal length). rewrite length_drop in Hnil.
    simpl in Hnil. lia. }
  destruct (negb _); [done|]. f_equal. apply IH; lia.
Qed.

Lemma readlines_from_plain : ∀ ls before fuel,
  Forall plain ls → (length ls < fuel)%nat →
  readlines_from fuel (join_lines (before ++ ls))
                 (Z.of_nat (length (join_lines before)))
    = (λ l, decode l ++ [LF]) <$> ls.
Proof.
  induction ls as [|l ls IH]; intros before fuel Hplain Hfuel.
  - destruct fuel as [|fuel]; [simpl in Hfuel; lia|].
    cbn [readlines_from]. unfold readline, slice_from.
    rewrite !app_nil_r, Nat2Z.id, drop_all. simpl.
    by rewrite decode_nil.
  - destruct fuel as [|fuel]; [simpl in Hfuel; lia|].
    apply Forall_cons in Hplain as [Hl Hplain]. cbn [readlines_from].
    replace (join_lines (before ++ l :: ls))
      with (join_lines before ++ l ++ (bLF :: join_lines ls)).
    2:{ rewrite join_lines_app.
        change (join_lines (l :: ls)) with ((l ++ [bLF]) ++ join_lines ls).
        by rewrite <-!app_assoc. }
    rewrite readline_plain by done.
    assert (truthy (decode l ++ [LF]) = true) as ->
      by (by destruct (decode l)).
    cbn [negb]. rewrite fmap_cons. f_equal.
    replace (join_lines before ++ l ++ [bLF])
      with (join_lines (before ++ [l])).
    2:{ rewrite join_lines_app.
        change (join_lines [l]) with ((l ++ [bLF]) ++ []).
        by rewrite app_nil_r. }
    replace (join_lines before ++ l ++ bLF :: join_lines ls)
      with (join_lines ((before ++ [l]) ++ ls)).
    2:{ rewrite !join_lines_app.
        change (join_lines [l]) with ((l ++ [bLF]) ++ []).
        rewrite !app_nil_r, <-!app_assoc. done. }
    apply IH; [done|simpl in Hfuel; lia].
Qed.

Lemma length_join_lines ls : (length ls ≤ length (join_lines ls))%nat.
Proof.
  induction ls as [|l ls IH]; [done|].
  rewrite length_join_lines_cons. simpl. lia.
Qed.

Lemma readlines_plain ls :
  Forall plain ls → readlines (join_lines ls) = (λ l, decode l ++ [LF]) <$> ls.
Proof.
  intros Hplain. unfold readlines.
  apply (readlines_from_plain ls []); [done|].
  pose proof (length_join_lines ls). lia.
Qed.

Lemma foldl_index_line ls : ∀ AGG,
  foldl index_line AGG ((λ l, decode l ++ [LF]) <$> ls)
    = apply_all (omap line_event ls) AGG.
Proof.
  induction ls as [|l ls IH]; intros AGG; [done|].
  rewrite fmap_cons. cbn [foldl]. rewrite IH.
  assert (index_line AGG (decode l ++ [LF])
          = match line_event l with
            | Some ev => _apply_event_to_agg ev AGG
            | None => AGG
            end) as ->
    by (unfold index_line, line_event; by destruct (parse_line _)).
  destruct (line_event l) as [ev|] eqn:Hev.
  - by rewrite (omap_cons_Some _ _ _ _ Hev).
  - by rewrite (omap_cons_None _ _ _ Hev).
Qed.

Lemma initial_index_plain ls n AGG :
  Forall plain ls →
  initial_index (inr (join_lines ls)) n AGG
    = apply_all (omap line_event (slice_last n ls)) AGG.
Proof.
  intros Hplain. unfold initial_index. cbv zeta.
  by rewrite readlines_plain, slice_last_fmap, foldl_index_line.
Qed.
End InitialIndexFacts.

(** * The tailer *)

Lemma length_join_lines_take ls k k' :
  (k ≤ k')%nat →
  (length (join_lines (take k ls)) ≤ length (join_lines (take k' ls)))%nat.
Proof.
  intros Hk. replace k' with (k + (k' - k))%nat by lia.
  rewrite <-take_take_drop, join_lines_app, length_app. lia.
Qed.

Lemma reached_le g n t : (∀ t, g t ≤ n)%nat → (reached g t ≤ n)%nat.
Proof.
  intros Hg. induction t as [|t IH]; simpl; [lia|].
  destruct (Nat.ltb_spec (reached g t) (g (S t))); [|done].
  specialize (Hg (S t)). lia.
Qed.

Section TailerFacts.
Context `{PyRuntime} `{Settings} `{TailSettings}.

Lemma tail_run_snoc env n : ∀ turn s,
  tail_run env (S n) turn s = tail_step env (turn + n) (tail_run env n turn s).
Proof.
  induction n as [|n IH]; intros turn s.
  - simpl. by rewrite Nat.add_0_r.
  - change (tail_run env (S (S n)) turn s)
      with (tail_run env (S n) (S turn) (tail_step env turn s)).
    rewrite IH. simpl. do 2 f_equal. lia.
Qed.

Lemma handle_all_snoc evs ev s :
  handle_all (evs ++ [ev]) s = tail_event ev (handle_all evs s).
Proof. unfold handle_all. by rewrite foldl_app. Qed.

Lemma handle_all_set_file evs f inode first : ∀ s,
  handle_all evs (set_file f inode first s)
    = set_file f inode first (handle_all evs s).
Proof.
  induction evs as [|ev evs IH]; intros s; [done|].
  change (handle_all (ev :: evs) ?s) with (handle_all evs (tail_event ev s)).
  by rewrite <-IH.
Qed.

Lemma set_file_twice f inode first f' inode' first' s :
  set_file f inode first (set_file f' inode' first' s)
    = set_file f inode first s.
Proof. done. Qed.

Lemma tail_line_set_file line f inode first s :
  tail_line line (set_file f inode first s)
    = set_file f inode first (tail_line line s).
Proof. unfold tail_line. by destruct (parse_line _). Qed.

(** A line of the file, handled. *)
Lemma tail_line_event l s :
  tail_line (decode l ++ [LF]) s = handle_all (omap line_event [l]) s.
Proof.
  assert (line_event l = parse_line (rstrip_lf (decode l ++ [LF]))) as Hline
    by reflexivity.
  unfold tail_line. rewrite <-Hline.
  destruct (line_event l) as [ev|] eqn:Hev.
  - by rewrite (omap_cons_Some _ _ _ _ Hev).
  - by rewrite (omap_cons_None _ _ _ Hev).
Qed.

Lemma handle_all_app evs evs' s :
  handle_all (evs ++ evs') s = handle_all evs' (handle_all evs s).
Proof. unfold handle_all. by rewrite foldl_app. Qed.

(** The turn at which the file is opened goes on as a turn with the file
    open. *)
Lemma tail_step_open env turn s ino :
  tail_f s = None → path_open env turn = inr ino →
  tail_step env turn s
    = tail_step env turn
        (set_file (Some {| h_inode := ino;
                           h_pos := if first_open s
                                    then Z.of_nat (length (file_bytes env turn ino))
                                    else 0 |})
                  (Some ino) false s).
Proof.
  intros Hf Hopen. unfold tail_step at 1 2, tail_open.
  by rewrite Hf, Hopen.
Qed.

(** A turn at the end of the file. *)
Lemma tail_step_eof env turn s i pos :
  tail_f s = Some {| h_inode := i; h_pos := pos |} →
  read_raises env turn = None →
  Z.of_nat (length (file_bytes env turn i)) ≤ pos → 0 ≤ pos →
  tail_step env turn s = tail_idle env turn s.
Proof.
  intros Hf Hread Hend Hpos. unfold tail_step, tail_open.
  rewrite Hf. cbn [h_inode h_pos]. rewrite Hf, Hread. cbn [h_inode h_pos].
  unfold readline, slice_from. rewrite drop_ge by lia.
  cbn [next_line]. rewrite decode_nil. cbn [app truthy].
  rewrite Z.add_0_r, <-Hf. by destruct s.
Qed.

(** A turn at the start of a whole line. *)
Lemma tail_step_plain env turn s i before l rest :
  tail_f s = Some {| h_inode := i; h_pos := Z.of_nat (length before) |} →
  read_raises env turn = None →
  file_bytes env turn i = before ++ l ++ bLF :: rest →
  plain l →
  tail_step env turn s
    = handle_all (omap line_event [l])
        (set_file (Some {| h_inode := i;
                           h_pos := Z.of_nat (length (before ++ l ++ [bLF])) |})
                  (tail_inode s) (first_open s) s).
Proof.
  intros Hf Hread Hbytes Hl. unfold tail_step, tail_open.
  rewrite Hf. cbn [h_inode h_pos]. rewrite Hf, Hread. cbn [h_inode h_pos].
  rewrite Hbytes, readline_plain by done.
  assert (truthy (decode l ++ [LF]) = true) as -> by (by destruct (decode l)).
  apply tail_line_event.
Qed.
Lemma tail_idle_same env turn s i :
  path_stat env turn = inr i → tail_inode s = Some i →
  tail_idle env turn s = s.
Proof.
  intros Hstat Hino. unfold tail_idle. rewrite Hstat, Hino.
  by rewrite decide_False by (by intros []).
Qed.

(** The tailer on a file that only grows by whole lines: it starts at the
    end of what is there, and reads one more line at every turn at which
    there is one. *)
Lemma tail_run_appended env s0 i f0 ls g :
  Forall plain ls →
  tail_f s0 = None → first_open s0 = true →
  path_open env 0%nat = inr i →
  (∀ t, path_stat env t = inr i) →
  (∀ t, read_raises env t = None) →
  (∀ t, file_bytes env t i = f0 ++ join_lines (take (g t) ls)) →
  g 0%nat = 0%nat → (∀ t, g t ≤ length ls)%nat →
  ∀ t, tail_run env (S t) 0 s0
       = reading {| h_inode := i;
                    h_pos := Z.of_nat (length (f0 ++ join_lines
                                                 (take (reached g t) ls))) |}
                 (handle_all (omap line_event (take (reached g t) ls)) s0).
Proof.
  intros Hplain Hf0 Hfirst Hopen Hstat Hread Hbytes Hg0 Hg.
  induction t as [|t IH].
  - cbn [tail_run reached]. rewrite (tail_step_open env 0 s0 i) by done.
    rewrite Hfirst, Hbytes, Hg0, !take_0.
    rewrite (tail_step_eof _ _ _ i (Z.of_nat (length (f0 ++ join_lines []))));
      [|done|done|rewrite Hbytes, Hg0, take_0; lia|lia].
    by apply (tail_idle_same _ _ _ i).
  - rewrite tail_run_snoc, IH. cbn [Nat.add reached].
    set (k := reached g t).
    assert (k ≤ length ls)%nat as Hk by (by apply reached_le).
    destruct (Nat.ltb_spec k (g (S t))) as [Hlt|Hge].
    + pose proof (Hg (S t)) as HgS.
      destruct (lookup_lt_is_Some_2 ls k) as [l Hl]; [lia|].
      assert (plain l) as Hpl
        by (rewrite Forall_forall in Hplain; eapply Hplain,
              list_elem_of_lookup_2, Hl).
      assert (take (g (S t)) ls
              = take k ls ++ l :: drop (S k) (take (g (S t)) ls)) as Hcut.
      { rewrite <-(take_drop_middle (take (g (S t)) ls) k l) at 1
          by (by rewrite lookup_take_lt).
        by rewrite take_take, Nat.min_l by lia. }
      rewrite (tail_step_plain env (S t) _ i (f0 ++ join_lines (take k ls)) l
                 (join_lines (drop (S k) (take (g (S t)) ls))));
        [|done|done| |done].
      * cbn [tail_inode first_open reading set_file h_inode].
        rewrite handle_all_set_file. unfold reading.
        cbn [set_file h_inode recent_events tail_agg tail_broadcaster].
        rewrite (take_S_r ls k l Hl), omap_app, handle_all_app.
        rewrite join_lines_app.
        change (join_lines [l]) with ((l ++ [bLF]) ++ []).
        rewrite handle_all_set_file, set_file_twice.
        by rewrite app_nil_r, <-!app_assoc.
      * rewrite Hbytes, Hcut at 1. rewrite join_lines_app.
        change (join_lines (l :: ?r)) with ((l ++ [bLF]) ++ join_lines r).
        by rewrite <-!app_assoc.
    + rewrite (tail_step_eof _ _ _ i
                 (Z.of_nat (length (f0 ++ join_lines (take k ls)))));
        [|done|done| |lia].
      * by apply (tail_idle_same _ _ _ i).
      * rewrite Hbytes, !length_app.
        pose proof (length_join_lines_take ls (g (S t)) k Hge). lia.
Qed.
(** A turn at the start of the line [m] of a file of whole lines. *)
Lemma tail_step_next_line env t s j ls m :
  Forall plain ls → (m < length ls)%nat →
  read_raises env t = None → file_bytes env t j = join_lines ls →
  tail_step env t
    (reading {| h_inode := j;
                h_pos := Z.of_nat (length (join_lines (take m ls))) |}
             (handle_all (omap line_event (take m ls)) s))
  = reading {| h_inode := j;
               h_pos := Z.of_nat (length (join_lines (take (S m) ls))) |}
            (handle_all (omap line_event (take (S m) ls)) s).
Proof.
  intros Hplain Hm Hread Hbytes.
  destruct (lookup_lt_is_Some_2 ls m) as [l Hl]; [done|].
  assert (plain l) as Hpl
    by (rewrite Forall_forall in Hplain; eapply Hplain,
          list_elem_of_lookup_2, Hl).
  rewrite (tail_step_plain env t _ j (join_lines (take m ls)) l
             (join_lines (drop (S m) ls))); [|done|done| |done].
  - cbn [tail_inode first_open reading set_file h_inode].
    rewrite handle_all_set_file. unfold reading.
    cbn [set_file h_inode recent_events tail_agg tail_broadcaster].
    rewrite (take_S_r ls m l Hl), omap_app, handle_all_app.
    rewrite join_lines_app.
    change (join_lines [l]) with ((l ++ [bLF]) ++ []).
    rewrite handle_all_set_file, set_file_twice.
    by rewrite app_nil_r, <-?app_assoc.
  - rewrite Hbytes. rewrite <-(take_drop_middle ls m l Hl) at 1.
    rewrite join_lines_app.
    change (join_lines (l :: ?r)) with ((l ++ [bLF]) ++ join_lines r).
    by rewrite <-?app_assoc.
Qed.

(** The tailer at the end of a file whose path now names another file of
    whole lines: it lets the old file go, and reads the new one from its
    first line. *)
Lemma tail_run_rotated env s t0 i j pos ls :
  Forall plain ls →
  tail_f s = Some {| h_inode := i; h_pos := pos |} →
  tail_inode s = Some i → first_open s = false →
  Z.of_nat (length (file_bytes env t0 i)) ≤ pos → 0 ≤ pos →
  path_stat env t0 = inr j → j ≠ i →
  (∀ t, read_raises env t = None) →
  (∀ t, (t0 < t)%nat →
     path_open env t = inr j ∧ file_bytes env t j = join_lines ls) →
  tail_run env 1 t0 s = close_file s ∧
  ∀ m, (m < length ls)%nat →
    tail_run env (S (S m)) t0 s
    = reading {| h_inode := j;
                 h_pos := Z.of_nat (length (join_lines (take (S m) ls))) |}
              (handle_all (omap line_event (take (S m) ls)) s).
Proof.
  intros Hplain Hf Hino Hfirst Hend Hpos Hstat Hji Hread Hnew.
  assert (tail_run env 1 t0 s = close_file s) as Hclose.
  { cbn [tail_run]. rewrite (tail_step_eof _ _ _ i pos) by done.
    unfold tail_idle. rewrite Hstat, Hino. by rewrite decide_True. }
  split; [done|]. induction m as [|m IH]; intros Hm.
  - rewrite tail_run_snoc, Hclose.
    destruct (Hnew (t0 + 1)%nat) as [Hopen Hbytes]; [lia|].
    rewrite (tail_step_open _ _ _ j) by done.
    unfold close_file. cbn [first_open set_file].
    rewrite Hfirst, set_file_twice.
    pose proof (tail_step_next_line env (t0 + 1) s j ls 0 Hplain Hm
                  (Hread _) Hbytes) as Hstep.
    rewrite take_0 in Hstep.
    change (join_lines []) with (@nil byte) in Hstep.
    change (omap line_event []) with (@nil event) in Hstep.
    exact Hstep.
  - rewrite tail_run_snoc, IH by lia.
    destruct (Hnew (t0 + S (S m))%nat) as [_ Hbytes]; [lia|].
    by apply tail_step_next_line.
Qed.

(** The tailer beyond the end of its file, whose path still names it: it
    stays where it is. *)
Lemma tail_run_stalled env s i pos : ∀ n t0,
  tail_f s = Some {| h_inode := i; h_pos := pos |} →
  tail_inode s = Some i → 0 ≤ pos →
  (∀ t, (t0 ≤ t < t0 + n)%nat →
     read_raises env t = None ∧ path_stat env t = inr i ∧
     Z.of_nat (length (file_bytes env t i)) ≤ pos) →
  tail_run env n t0 s = s.
Proof.
  induction n as [|n IH]; intros t0 Hf Hino Hpos Hturns; [done|].
  cbn [tail_run]. destruct (Hturns t0) as (Hread & Hstat & Hend); [lia|].
  rewrite (tail_step_eof _ _ _ i pos), (tail_idle_same _ _ _ i) by done.
  apply IH; [done..|]. intros t Ht. apply Hturns. lia.
Qed.

(** What a run of events leaves. *)
Lemma handle_all_agg evs : ∀ s,
  tail_agg (handle_all evs s) = apply_all evs (tail_agg s).
Proof. induction evs as [|ev evs IH]; intros s; [done|]. apply IH. Qed.

Lemma handle_all_broadcaster evs : ∀ s,
  tail_broadcaster (handle_all evs s)
    = broadcast_all (message_of <$> evs) (tail_broadcaster s).
Proof. induction evs as [|ev evs IH]; intros s; [done|]. apply IH. Qed.

Lemma deque_append_window {A} (x : A) (d : list A) :
  0 ≤ MAX_RECENT_EVENTS →
  Z.of_nat (length d) ≤ MAX_RECENT_EVENTS →
  deque_append MAX_RECENT_EVENTS x d
    = drop (length (d ++ [x]) - Z.to_nat MAX_RECENT_EVENTS) (d ++ [x]).
Proof.
  intros Hmax Hd. unfold deque_append. rewrite length_app. simpl.
  destruct (Z.ltb_spec MAX_RECENT_EVENTS (Z.of_nat (length d + 1))).
  - by replace (length d + 1 - Z.to_nat MAX_RECENT_EVENTS)%nat with 1%nat
      by lia.
  - by replace (length d + 1 - Z.to_nat MAX_RECENT_EVENTS)%nat with 0%nat
      by lia.
Qed.

Lemma handle_all_recent evs s :
  0 ≤ MAX_RECENT_EVENTS →
  Z.of_nat (length (recent_events s)) ≤ MAX_RECENT_EVENTS →
  recent_events (handle_all evs s)
    = drop (length (recent_events s ++ evs) - Z.to_nat MAX_RECENT_EVENTS)
           (recent_events s ++ evs).
Proof.
  intros Hmax Hs. induction evs as [|ev evs IH] using rev_ind.
  - rewrite app_nil_r. simpl.
    by replace (length (recent_events s) - Z.to_nat MAX_RECENT_EVENTS)%nat
      with 0%nat by lia.
  - rewrite handle_all_snoc. cbn [recent_events tail_event]. rewrite IH.
    set (L := recent_events s ++ evs).
    set (N := Z.to_nat MAX_RECENT_EVENTS).
    rewrite deque_append_window by (rewrite ?length_drop; lia).
    rewrite app_assoc. fold L.
    rewrite <-(drop_app_le L [ev]) by lia.
    rewrite drop_drop. f_equal.
    rewrite length_drop, !length_app. simpl. fold N. lia.
Qed.

(** A turn handles one event at most, and touches the state of the module
    no otherwise. *)
Lemma tail_step_data env turn s :
  ∃ evs, (length evs ≤ 1)%nat ∧
    same_data (tail_step env turn s) (handle_all evs s) ∧
    ((tail_f s = None ∧ ∃ e, path_open env turn = inl e) ∨
     is_Some (read_raises env turn) → evs = []).
Proof.
  assert (∀ s', same_data s' s →
            ∃ evs, (length evs ≤ 1)%nat ∧
              same_data s' (handle_all evs s) ∧
              ((tail_f s = None ∧ ∃ e, path_open env turn = inl e) ∨
               is_Some (read_raises env turn) → evs = [])) as Hnone.
  { intros s' Hs'. exists []. split_and!; [simpl; lia|exact Hs'|done]. }
  assert (same_data s s) as Hrefl by done.
  unfold tail_step.
  assert (match tail_open env turn s with
          | inl e => True
          | inr s1 => same_data s1 s ∧
              ((tail_f s = None ∧ ∃ e, path_open env turn = inl e) → False)
          end) as Hopen.
  { unfold tail_open. destruct (tail_f s) as [h|] eqn:Hf.
    - split; [done|]. by intros [? _].
    - destruct (path_open env turn) as [e|ino]; [done|].
      split; [done|]. by intros [_ [? ?]]. }
  destruct (tail_open env turn s) as [[|msg]|s1].
  - by apply Hnone.
  - by apply Hnone.
  - destruct Hopen as [Hs1 Hok].
    destruct (tail_f s1) as [h|]; [|by apply Hnone].
    destruct (read_raises env turn) as [[|msg]|] eqn:Hread.
    + by apply Hnone.
    + by apply Hnone.
    + destruct (readline _ _) as [line pos].
      destruct (truthy line).
      * unfold tail_line. destruct (parse_line _) as [ev|].
        -- exists [ev]. split_and!; [done| |].
           ++ destruct Hs1 as (Hr & Ha & Hb). unfold same_data.
              cbn [handle_all foldl tail_event set_file recent_events
                   tail_agg tail_broadcaster].
              by rewrite Hr, Ha, Hb.
           ++ intros [Hbad|[? ?]]; [by destruct (Hok Hbad)|done].
        -- by apply Hnone.
      * unfold tail_idle. destruct (path_stat env turn) as [e|cur].
        -- by apply Hnone.
        -- cbn [tail_inode set_file].
           destruct (tail_inode s1); [|by apply Hnone].
           destruct (decide _); by apply Hnone.
Qed.
(** A turn depends on what the tailer meets at this turn only. *)
Lemma tail_step_ext env env' t s :
  path_open env t = path_open env' t →
  path_stat env t = path_stat env' t →
  (∀ j, file_bytes env t j = file_bytes env' t j) →
  read_raises env t = read_raises env' t →
  tail_step env t s = tail_step env' t s.
Proof.
  intros Hopen Hstat Hbytes Hread. unfold tail_step, tail_open, tail_idle.
  rewrite Hopen, Hread, Hstat.
  destruct (tail_f s) as [h|] eqn:Hf.
  - rewrite ?Hf. by rewrite Hbytes.
  - destruct (path_open env' t) as [e|ino]; [done|].
    cbn [tail_f set_file h_inode h_pos]. by rewrite !Hbytes.
Qed.

Lemma tail_run_ext env env' : ∀ n t0 s,
  (∀ t, (t0 ≤ t < t0 + n)%nat →
     path_open env t = path_open env' t ∧
     path_stat env t = path_stat env' t ∧
     (∀ j, file_bytes env t j = file_bytes env' t j) ∧
     read_raises env t = read_raises env' t) →
  tail_run env n t0 s = tail_run env' n t0 s.
Proof.
  induction n as [|n IH]; intros t0 s Hsame; [done|]. cbn [tail_run].
  destruct (Hsame t0) as (Hopen & Hstat & Hbytes & Hread); [lia|].
  rewrite (tail_step_ext env env' t0 s) by done.
  apply IH. intros t Ht. apply Hsame. lia.
Qed.

Lemma tail_run_add env : ∀ n m t0 s,
  tail_run env (n + m) t0 s = tail_run env m (t0 + n) (tail_run env n t0 s).
Proof.
  induction n as [|n IH]; intros m t0 s.
  - by rewrite Nat.add_0_r.
  - replace (t0 + S n)%nat with (S t0 + n)%nat by lia.
    cbn [Nat.add tail_run]. apply IH.
Qed.

Lemma reached_ext g g' t :
  (∀ t', (t' ≤ t)%nat → g t' = g' t') → reached g t = reached g' t.
Proof.
  induction t as [|t IH]; intros Hsame; [done|]. cbn [reached].
  rewrite IH by (intros t' Ht'; apply Hsame; lia).
  by rewrite (Hsame (S t)) by lia.
Qed.

(** The tailer that has read its file to the end, when the file is made
    shorter in place afterwards. *)
Lemma tail_run_truncated env s0 i f0 ls g T n :
  Forall plain ls →
  tail_f s0 = None → first_open s0 = true →
  path_open env 0%nat = inr i →
  (∀ t, path_stat env t = inr i) →
  (∀ t, read_raises env t = None) →
  (∀ t, (t ≤ T)%nat → file_bytes env t i = f0 ++ join_lines (take (g t) ls)) →
  g 0%nat = 0%nat → (∀ t, g t ≤ length ls)%nat →
  reached g T = g T →
  (∀ t, (T < t)%nat →
     (length (file_bytes env t i)
      ≤ length (f0 ++ join_lines (take (g T) ls)))%nat) →
  tail_run env (S T + n) 0 s0
    = reading {| h_inode := i;
                 h_pos := Z.of_nat (length (f0 ++ join_lines
                                              (take (g T) ls))) |}
              (handle_all (omap line_event (take (g T) ls)) s0).
Proof.
  intros Hplain Hf0 Hfirst Hopen Hstat Hread Hbytes Hg0 Hg Hend Hshort.
  set (env' := {| path_open := path_open env;
                  path_stat := path_stat env;
                  file_bytes := λ t j,
                    if decide (t ≤ T)%nat then file_bytes env t j
                    else f0 ++ join_lines (take (g T) ls);
                  read_raises := read_raises env |}).
  assert (tail_run env (S T) 0 s0
          = reading {| h_inode := i;
                       h_pos := Z.of_nat (length (f0 ++ join_lines
                                                    (take (g T) ls))) |}
                    (handle_all (omap line_event (take (g T) ls)) s0))
    as Hrun.
  { rewrite (tail_run_ext env env').
    - rewrite (tail_run_appended env' s0 i f0 ls (λ t, g (Nat.min t T)));
        try done.
      + rewrite <-(reached_ext g) by (intros t' Ht'; by rewrite Nat.min_l).
        by rewrite Hend.
      + intros t. cbn [env' file_bytes]. destruct (decide (t ≤ T)%nat).
        * rewrite Nat.min_l by done. by apply Hbytes.
        * by rewrite Nat.min_r by lia.
    - intros t Ht. cbn [env' path_open path_stat file_bytes read_raises].
      split_and!; try done. intros j. by rewrite decide_True by lia. }
  rewrite tail_run_add, Hrun. cbn [Nat.add].
  apply (tail_run_stalled env _ i
           (Z.of_nat (length (f0 ++ join_lines (take (g T) ls)))));
    [done|done|lia|].
  intros t Ht. split_and!; [done|done|]. apply inj_le, Hshort. lia.
Qed.
End TailerFacts.

(** * Sorting by insertion *)

Lemma insert_desc_perm x l : insert_desc x l ≡ₚ x :: l.
Proof.
  induction l as [|y l IH]; [done|]. simpl.
  destruct (str_ltb _ _); [done|]. by rewrite IH, Permutation_swap.
Qed.

Lemma sort_desc_perm l : sort_desc l ≡ₚ l.
Proof.
  unfold sort_desc. induction l as [|x l IH] using rev_ind; [done|].
  rewrite foldl_app. simpl. rewrite insert_desc_perm, IH.
  by rewrite Permutation_cons_append.
Qed.

Lemma more_recent_trans x y z :
  more_recent x y → more_recent y z → more_recent x z.
Proof. unfold more_recent. intros Hxy Hyz. by eapply str_leb_trans. Qed.

Lemma insert_desc_sorted x l :
  StronglySorted more_recent l → StronglySorted more_recent (insert_desc x l).
Proof.
  induction 1 as [|y l Hl IH Hy]; simpl; [by repeat constructor|].
  destruct (str_ltb (it_last_ts y) (it_last_ts x)) eqn:Hlt.
  - assert (more_recent x y) as Hxy by (by apply str_ltb_leb).
    repeat constructor; [done..|].
    eapply Forall_impl; [exact Hy|]. intros z Hz.
    by eapply more_recent_trans.
  - constructor; [done|]. rewrite insert_desc_perm. constructor; [|done].
    unfold more_recent, str_leb. by rewrite Hlt.
Qed.

Lemma sort_desc_sorted l : StronglySorted more_recent (sort_desc l).
Proof.
  unfold sort_desc. induction l as [|x l IH] using rev_ind; [constructor|].
  rewrite foldl_app. by apply insert_desc_sorted.
Qed.

Lemma insert_asc_perm x l : insert_asc x l ≡ₚ x :: l.
Proof.
  induction l as [|y l IH]; [done|]. simpl.
  destruct (str_ltb _ _); [done|]. by rewrite IH, Permutation_swap.
Qed.

Lemma sorted_perm l : sorted l ≡ₚ l.
Proof.
  unfold sorted. induction l as [|x l IH] using rev_ind; [done|].
  rewrite foldl_app. simpl. rewrite insert_asc_perm, IH.
  by rewrite Permutation_cons_append.
Qed.

Lemma insert_asc_sorted x l :
  x ∉ l → StronglySorted goes_up l → StronglySorted goes_up (insert_asc x l).
Proof.
  intros Hx. induction 1 as [|y l Hl IH Hy]; simpl; [by repeat constructor|].
  apply not_elem_of_cons in Hx as [Hxy Hx].
  destruct (str_ltb x y) eqn:Hlt.
  - repeat constructor; [done..|].
    eapply Forall_impl; [exact Hy|]. intros z Hz. unfold goes_up in *.
    by eapply str_ltb_trans.
  - constructor; [by apply IH|]. rewrite insert_asc_perm. constructor; [|done].
    unfold goes_up. destruct (str_ltb_total x y) as [?|[?|?]]; congruence.
Qed.

Lemma sorted_sorted l : NoDup l → StronglySorted goes_up (sorted l).
Proof.
  unfold sorted. induction l as [|x l IH] using rev_ind; [constructor|].
  intros [Hl [Hx _]]%NoDup_app. rewrite foldl_app. simpl.
  apply insert_asc_sorted; [|by apply IH].
  fold (sorted l). rewrite sorted_perm. intros Hin. apply (Hx x Hin). left.
Qed.

Lemma slice_upto_take {A} (n : Z) (l : list A) :
  0 ≤ n → slice_upto n l = take (Z.to_nat n) l.
Proof. intros Hn. unfold slice_upto. by rewrite (proj2 (Z.leb_le 0 n)). Qed.

Lemma slice_upto_subseteq {A} (n : Z) (l : list A) x :
  x ∈ slice_upto n l → x ∈ l.
Proof. unfold slice_upto. destruct (0 <=? n); apply subseteq_take. Qed.

Lemma filter_filter_and {A} (P Q : A → Prop) `{∀ x, Decision (P x)}
    `{∀ x, Decision (Q x)} (l : list A) :
  filter Q (filter P l) = filter (λ x, P x ∧ Q x) l.
Proof.
  induction l as [|x l IH]; [done|]. rewrite !filter_cons.
  destruct (decide (P x)) as [HP|HP].
  - rewrite filter_cons. destruct (decide (Q x)) as [HQ|HQ].
    + rewrite decide_True by done. by rewrite IH.
    + rewrite decide_False by (by intros [_ ?]). done.
  - rewrite decide_False by (by intros [? _]). done.
Qed.

Section SnapshotFacts.
Context `{PyRuntime} `{Settings} `{PyCase} `{PySetOrder}.

Lemma api_users_found entries user_q site_q limit :
  api_users entries user_q site_q limit
    = slice_upto limit (sort_desc (found_items entries user_q site_q)).
Proof.
  unfold api_users, found_items. cbv zeta.
  set (uq := lower (strip user_q)). set (sq := lower (strip site_q)).
  set (items := (λ e, user_item_of e.1 e.2) <$> entries).
  do 2 f_equal.
  destruct (truthy uq) eqn:Hu, (truthy sq) eqn:Hs.
  - rewrite filter_filter_and. apply filter_agree. intros it _.
    apply truthy_true in Hu, Hs. naive_solver.
  - apply truthy_false in Hs. apply truthy_true in Hu.
    apply filter_agree. intros it _. naive_solver.
  - apply truthy_false in Hu. apply truthy_true in Hs.
    apply filter_agree. intros it _. naive_solver.
  - apply truthy_false in Hu, Hs. symmetry. apply filter_all.
    apply Forall_forall. intros it _. auto.
Qed.
End SnapshotFacts.

(** * The stream of server-sent events *)

Lemma byte_of_high (n : N) :
  (32 ≤ n)%N → byte_of n ≠ bLF ∧ byte_of n ≠ bCR.
Proof.
  intros Hn. unfold byte_of.
  destruct (Byte.of_N n) as [b|] eqn:Hb; simpl; [|by split].
  apply Byte.to_of_N in Hb. split; intros ->; simpl in Hb; lia.
Qed.

Lemma utf8_char_plain (c : char) (bs : bytes) :
  (32 ≤ c)%N → utf8_char c = Some bs → plain bs.
Proof.
  intros Hc. unfold utf8_char.
  assert (∀ n, (128 ≤ n)%N → byte_of n ≠ bLF ∧ byte_of n ≠ bCR) as Hhigh
    by (intros n Hn; apply byte_of_high; lia).
  pose proof (byte_of_high c Hc) as [? ?].
  assert (∀ n, (128 ≤ n)%N → bLF ≠ byte_of n) as Hlf
    by (intros n Hn; apply not_eq_sym, Hhigh, Hn).
  assert (∀ n, (128 ≤ n)%N → bCR ≠ byte_of n) as Hcr
    by (intros n Hn; apply not_eq_sym, Hhigh, Hn).
  repeat case_match; intros [= <-]; split;
    rewrite ?not_elem_of_cons; split_and!;
    try apply not_elem_of_nil; try (by apply not_eq_sym);
    first [apply Hlf|apply Hcr];
    (eapply N.le_trans; [|apply N.le_add_r]); lia.
Qed.

Lemma hex_digit_printable n : (32 ≤ hex_digit n)%N.
Proof. unfold hex_digit. destruct (n <? 10)%N; lia. Qed.

Lemma escape_char_printable c : Forall (λ x, (32 ≤ x)%N) (escape_char c).
Proof.
  unfold escape_char.
  repeat (case_match; [repeat constructor;
                       first [lia|apply hex_digit_printable]|]).
  apply Forall_singleton.
  repeat match goal with
         | Hc : (_ =? _)%N = false |- _ => apply N.eqb_neq in Hc
         | Hc : (_ <? _)%N = false |- _ => apply N.ltb_ge in Hc
         end.
  done.
Qed.

Lemma json_string_printable s : Forall (λ x, (32 ≤ x)%N) (json_string s).
Proof.
  unfold json_string. rewrite !Forall_app. split_and!.
  - apply Forall_singleton. lia.
  - apply Forall_forall. intros x (c & Hx & _)%list_elem_of_bind.
    pose proof (escape_char_printable c) as Hc.
    rewrite Forall_forall in Hc. by apply Hc.
  - apply Forall_singleton. lia.
Qed.

Lemma dumps_message_printable m : Forall (λ x, (32 ≤ x)%N) (dumps_message m).
Proof.
  unfold dumps_message. rewrite !Forall_app.
  split_and!; try apply json_string_printable;
    by apply (bool_decide_unpack _); vm_compute.
Qed.

Lemma encode_utf8_plain s data :
  Forall (λ x, (32 ≤ x)%N) s → encode_utf8 s = Some data → plain data.
Proof.
  unfold encode_utf8. revert data.
  induction s as [|c s IH]; intros data Hs.
  - intros [= <-]. split; apply not_elem_of_nil.
  - apply Forall_cons in Hs as [Hc Hs]. simpl.
    destruct (utf8_char c) as [bs|] eqn:Hbs; simpl; [|done].
    destruct (mapM utf8_char s) as [l|]; simpl; [|done].
    intros [= <-]. destruct (utf8_char_plain c bs Hc Hbs) as [? ?].
    destruct (IH _ Hs eq_refl) as [? ?].
    split; rewrite not_elem_of_app; by split.
Qed.

Lemma encode_utf8_total s :
  Forall (λ c, (c < 1114112)%N ∧ in_range 55296 57343 c = false) s →
  is_Some (encode_utf8 s).
Proof.
  unfold encode_utf8. induction 1 as [|c s [Hc Hsur] _ IH]; [by eexists|].
  simpl. assert (is_Some (utf8_char c)) as [bs ->].
  { unfold utf8_char. rewrite Hsur.
    destruct (c <? 128)%N; [by eexists|].
    destruct (c <? 2048)%N; [by eexists|].
    destruct (c <? 65536)%N; [by eexists|].
    destruct (N.ltb_spec c 1114112); [by eexists|lia]. }
  simpl. destruct (mapM utf8_char s); [by eexists|by destruct IH].
Qed.

Lemma hex_digit_valid n :
  (n < 16)%N →
  (hex_digit n < 1114112)%N ∧ in_range 55296 57343 (hex_digit n) = false.
Proof.
  intros Hn. unfold hex_digit.
  destruct (n <? 10)%N; (split; [lia|apply in_range_false; lia]).
Qed.

Lemma escape_char_valid c :
  (c < 1114112)%N ∧ in_range 55296 57343 c = false →
  Forall (λ x, (x < 1114112)%N ∧ in_range 55296 57343 x = false)
         (escape_char c).
Proof.
  intros Hc. unfold escape_char.
  destruct (c =? 34)%N; [by repeat constructor|].
  destruct (c =? 92)%N; [by repeat constructor|].
  destruct (c =? 10)%N; [by repeat constructor|].
  destruct (c =? 13)%N; [by repeat constructor|].
  destruct (c =? 9)%N; [by repeat constructor|].
  destruct (c =? 8)%N; [by repeat constructor|].
  destruct (c =? 12)%N; [by repeat constructor|].
  destruct (N.ltb_spec c 32); [|by apply Forall_singleton].
  repeat (apply Forall_cons_2; [done|]).
  repeat (apply Forall_cons_2; [apply hex_digit_valid|]);
    [|apply N.mod_lt; lia|apply Forall_nil_2].
  apply N.Div0.div_lt_upper_bound. lia.
Qed.

Lemma json_string_valid s :
  Forall (λ x, (x < 1114112)%N ∧ in_range 55296 57343 x = false) s →
  Forall (λ x, (x < 1114112)%N ∧ in_range 55296 57343 x = false)
         (json_string s).
Proof.
  intros Hs. unfold json_string. rewrite !Forall_app. split_and!.
  - by apply Forall_singleton.
  - apply Forall_forall. intros x (c & Hx & Hc)%list_elem_of_bind.
    rewrite Forall_forall in Hs.
    pose proof (escape_char_valid c (Hs c Hc)) as Hv.
    rewrite Forall_forall in Hv. by apply Hv.
  - by apply Forall_singleton.
Qed.

Lemma dumps_message_valid m :
  Forall (λ x, (x < 1114112)%N ∧ in_range 55296 57343 x = false)
         (m_ts m ++ m_user m ++ m_base m ++ m_host m) →
  Forall (λ x, (x < 1114112)%N ∧ in_range 55296 57343 x = false)
         (dumps_message m).
Proof.
  rewrite !Forall_app. intros (? & ? & ? & ?).
  unfold dumps_message. rewrite !Forall_app.
  split_and!; try (by apply json_string_valid);
    by apply (bool_decide_unpack _); vm_compute.
Qed.

(** * The two ingestion tasks *)

Section TwoTasksFacts.
Context `{PyRuntime} `{Settings} `{TailSettings}
        `{ScanSettings} `{PyZeroDivision}.

(** The loop of the scan is its turns, one after the other. *)
Lemma scan_loop_turn fuel turn env stop pos st :
  scan_loop (S fuel) turn env stop pos st
    = match scan_turn env turn stop pos st with
      | inl r => Some r
      | inr (pos', st') => scan_loop fuel (S turn) env stop pos' st'
      end.
Proof.
  cbn [scan_loop]. unfold scan_turn.
  destruct (stop <=? tell env turn pos); [done|].
  destruct (visible env turn) as [e|content]; [done|].
  destruct (readline content pos) as [line pos'].
  destruct (negb (truthy line)); [done|].
  by destruct (scan_line _ _ st).
Qed.

(** A turn of the scan at the start of a whole line below the stop
    offset. *)
Lemma scan_turn_plain env turn stop st before l rest :
  FULL_SCAN_SLEEP_EVERY ≠ 0 →
  tell env turn (Z.of_nat (length before)) = Z.of_nat (length before) →
  Z.of_nat (length before) < stop →
  visible env turn = inr (before ++ l ++ bLF :: rest) →
  plain l →
  ∃ st', scan_turn env turn stop (Z.of_nat (length before)) st
         = inr (Z.of_nat (length (before ++ l ++ [bLF])), st') ∧
    scan_agg st' = apply_all (omap line_event [l]) (scan_agg st).
Proof.
  intros Hevery Htell Hpos Hvis Hl. unfold scan_turn. rewrite Htell.
  rewrite (proj2 (Z.leb_gt _ _)) by lia. rewrite Hvis.
  rewrite readline_plain by done.
  assert (truthy (decode l ++ [LF]) = true) as -> by (by destruct (decode l)).
  cbn [negb].
  destruct (scan_line_goes_on l (Z.min (Z.of_nat (length before)) stop) st
              Hevery) as (st' & -> & Hagg & _).
  by exists st'.
Qed.

Lemma handle_all_file evs : ∀ s,
  tail_f (handle_all evs s) = tail_f s ∧
  tail_inode (handle_all evs s) = tail_inode s ∧
  first_open (handle_all evs s) = first_open s.
Proof.
  induction evs as [|ev evs IH]; intros s; [done|].
  change (handle_all (ev :: evs) s) with (handle_all evs (tail_event ev s)).
  destruct (IH (tail_event ev s)) as (-> & -> & ->). done.
Qed.

Lemma handle_all_stream evs : ∀ s s',
  recent_events s = recent_events s' →
  tail_broadcaster s = tail_broadcaster s' →
  recent_events (handle_all evs s) = recent_events (handle_all evs s') ∧
  tail_broadcaster (handle_all evs s) = tail_broadcaster (handle_all evs s').
Proof.
  induction evs as [|ev evs IH]; intros s s' Hr Hb; [done|].
  change (handle_all (ev :: evs) ?s) with (handle_all evs (tail_event ev s)).
  apply IH; cbn [tail_event recent_events tail_broadcaster]; congruence.
Qed.

(** The place of the line [m] in a file that holds the first [k] lines. *)
Lemma join_lines_at (ls : list bytes) m k l :
  ls !! m = Some l → (m < k)%nat →
  join_lines (take k ls)
    = join_lines (take m ls) ++ l ++ bLF :: join_lines (drop (S m) (take k ls))
  ∧ join_lines (take (S m) ls) = join_lines (take m ls) ++ l ++ [bLF].
Proof.
  intros Hl Hm. split.
  - assert (take k ls !! m = Some l) as Hl'
      by (rewrite lookup_take_lt by done; done).
    rewrite <-(take_drop_middle (take k ls) m l Hl') at 1.
    rewrite take_take, Nat.min_l by lia. rewrite join_lines_app.
    change (join_lines (l :: ?r)) with ((l ++ [bLF]) ++ join_lines r).
    by rewrite <-?app_assoc.
  - rewrite (take_S_r ls m l Hl), join_lines_app.
    change (join_lines [l]) with ((l ++ [bLF]) ++ []).
    by rewrite app_nil_r.
Qed.
End TwoTasksFacts.

(** The two tasks on a log that holds whole lines, and at every time at
    least the lines that were there when each of them opened it. *)
Section TwoTasksRun.
Context `{PyRuntime} `{Settings} `{TailSettings}
        `{ScanSettings} `{PyZeroDivision}.
Variables (senv : scan_env) (tenv : tail_env) (lns : list bytes).
Variables (n_s n_t i : nat) (g : nat → nat).
Variables (st0 : scan_state) (s0 : tail_state).
Hypothesis Hevery : FULL_SCAN_SLEEP_EVERY ≠ 0.
Hypothesis Htell : ∀ t pos, tell senv t pos = pos.
Hypothesis Hplain : Forall plain lns.
Hypothesis Hg : ∀ t, (n_s ≤ g t ∧ n_t ≤ g t ∧ g t ≤ length lns)%nat.
Hypothesis Hvisible : ∀ t, visible senv t = inr (join_lines (take (g t) lns)).
Hypothesis Htail : ∀ t,
  file_bytes tenv t i = join_lines (take (g t) lns) ∧
  path_stat tenv t = inr i ∧ read_raises tenv t = None.

Lemma tasks_inv_start :
  tasks_between lns n_s n_t i s0 0 0 [] (both_started lns n_s n_t i st0 s0).
Proof.
  unfold tasks_between, both_started, reading.
  cbn [scanning tailing set_file tail_f tail_inode tail_agg recent_events
       tail_broadcaster h_inode].
  rewrite decide_True by lia. rewrite Nat.add_0_r, Nat.min_0_r, !take_0.
  split_and!; try done; [by eexists|]. pose proof (Hg 0%nat). lia.
Qed.

Lemma apply_all_snoc_line evs l AGG :
  apply_all (omap line_event [l]) (apply_all evs AGG)
    = apply_all (evs ++ omap line_event [l]) AGG.
Proof. unfold apply_all. by rewrite foldl_app. Qed.

Lemma tasks_inv_scan time k b evs d :
  tasks_between lns n_s n_t i s0 k b evs d →
  ∃ evs', tasks_between lns n_s n_t i s0 (S k) b evs'
            (task_turn senv tenv time ScanTask d).
Proof.
  intros (Hscan & Hf & Hino & Hb & Hagg & Hperm & Hrec & Hbro).
  unfold task_turn.
  destruct (decide (k ≤ n_s)%nat) as [Hk|Hk].
  - destruct Hscan as [st ->].
    destruct (decide (k = n_s)) as [->|Hne].
    + unfold scan_turn. rewrite Htell, (proj2 (Z.leb_le _ _)) by lia.
      exists evs. unfold tasks_between.
      cbn [scanning tailing set_agg with_agg scan_agg tail_f tail_inode
           tail_agg recent_events tail_broadcaster].
      rewrite decide_False by lia.
      rewrite Nat.min_l in Hperm by lia. rewrite Nat.min_l by lia.
      done.
    + destruct (lookup_lt_is_Some_2 lns k) as [l Hl];
        [pose proof (Hg time); lia|].
      assert (plain l) as Hpl
        by (rewrite Forall_forall in Hplain; eapply Hplain,
              list_elem_of_lookup_2, Hl).
      destruct (join_lines_at lns k (g time) l Hl) as [Hfile Hnext];
        [pose proof (Hg time); lia|].
      destruct (join_lines_at lns k n_s l Hl) as [Hstop _]; [lia|].
      destruct (scan_turn_plain senv time
                  (Z.of_nat (length (join_lines (take n_s lns))))
                  (with_agg (tail_agg (tailing d)) st)
                  (join_lines (take k lns)) l
                  (join_lines (drop (S k) (take (g time) lns))))
        as (st' & -> & Hst'); [done|apply Htell| | |done|].
      { rewrite Hstop, !length_app. cbn [length]. lia. }
      { by rewrite Hvisible, Hfile. }
      exists (evs ++ omap line_event [l]). unfold tasks_between.
      cbn [scanning tailing set_agg tail_f tail_inode tail_agg recent_events
           tail_broadcaster].
      rewrite decide_True by lia. rewrite <-Hnext.
      split_and!; try done; [by eexists| |].
      * rewrite Hst'. cbn [with_agg scan_agg]. rewrite Hagg.
        apply apply_all_snoc_line.
      * rewrite Nat.min_r in Hperm by lia. rewrite Nat.min_r by lia.
        rewrite (take_S_r lns k l Hl), omap_app, Hperm.
        rewrite <-!app_assoc. apply Permutation_app_head, Permutation_app_comm.
  - rewrite Hscan. exists evs. unfold tasks_between.
    rewrite decide_False by lia. rewrite Hscan.
    rewrite Nat.min_l in Hperm by lia. rewrite Nat.min_l by lia.
    done.
Qed.

Lemma tasks_inv_tail time k b evs d :
  tasks_between lns n_s n_t i s0 k b evs d →
  ∃ b' evs', (b ≤ b' ≤ S b)%nat ∧
    tasks_between lns n_s n_t i s0 k b' evs'
                  (task_turn senv tenv time TailTask d).
Proof.
  intros (Hscan & Hf & Hino & Hb & Hagg & Hperm & Hrec & Hbro).
  destruct (Htail time) as (Hbytes & Hstat & Hread).
  unfold task_turn.
  destruct (decide (n_t + b < g time)%nat) as [Hlt|Hge].
  - destruct (lookup_lt_is_Some_2 lns (n_t + b)) as [l Hl];
      [pose proof (Hg time); lia|].
    assert (plain l) as Hpl
      by (rewrite Forall_forall in Hplain; eapply Hplain,
            list_elem_of_lookup_2, Hl).
    destruct (join_lines_at lns (n_t + b) (g time) l Hl) as [Hfile Hnext];
      [done|].
    exists (S b), (evs ++ omap line_event [l]). split; [lia|].
    assert (take (S b) (drop n_t lns) = take b (drop n_t lns) ++ [l]) as Htk
      by (apply take_S_r; by rewrite lookup_drop).
    unfold tasks_between. cbn [scanning tailing].
    rewrite (tail_step_plain tenv time _ i (join_lines (take (n_t + b) lns)) l
               (join_lines (drop (S (n_t + b)) (take (g time) lns))));
      [|done|done|by rewrite Hbytes, Hfile|done].
    rewrite <-Hnext.
    destruct (handle_all_file (omap line_event [l])
                (set_file (Some {| h_inode := i;
                                   h_pos := Z.of_nat (length (join_lines
                                              (take (S (n_t + b)) lns))) |})
                          (tail_inode (tailing d)) (first_open (tailing d))
                          (tailing d))) as (-> & -> & _).
    rewrite handle_all_agg.
    cbn [set_file tail_f tail_inode tail_agg].
    replace (n_t + S b)%nat with (S (n_t + b)) by lia.
    split_and!; [done|done|done| | | | |].
    + apply lookup_lt_Some in Hl. lia.
    + rewrite Hagg. apply apply_all_snoc_line.
    + rewrite Htk, omap_app, Hperm. by rewrite <-!app_assoc.
    + rewrite Htk, omap_app, handle_all_app.
      apply handle_all_stream; done.
    + rewrite Htk, omap_app, handle_all_app.
      apply handle_all_stream; done.
  - exists b, evs. split; [lia|].
    unfold tasks_between. cbn [scanning tailing].
    rewrite (tail_step_eof tenv time _ i _ Hf Hread),
      (tail_idle_same tenv time _ i Hstat Hino); [done| |lia].
    rewrite Hbytes. apply inj_le, length_join_lines_take. lia.
Qed.

Lemma turns_of_cons who w schedule :
  turns_of who (w :: schedule)
    = ((if decide (w = who) then 1 else 0) + turns_of who schedule)%nat.
Proof.
  unfold turns_of. rewrite filter_cons. by destruct (decide (w = who)).
Qed.

Lemma tasks_run_inv schedule : ∀ time k b evs d,
  tasks_between lns n_s n_t i s0 k b evs d →
  ∃ b' evs',
    (b' ≤ b + turns_of TailTask schedule)%nat ∧
    tasks_between lns n_s n_t i s0 (k + turns_of ScanTask schedule) b' evs'
                  (tasks_run senv tenv schedule time d).
Proof.
  induction schedule as [|who schedule IH]; intros time k b evs d Hinv.
  - exists b, evs. unfold turns_of. simpl. rewrite !Nat.add_0_r. done.
  - cbn [tasks_run]. destruct who.
    + destruct (tasks_inv_scan time k b evs d Hinv) as (evs1 & Hinv1).
      destruct (IH (S time) _ _ _ _ Hinv1) as (b' & evs' & Hb' & Hinv').
      exists b', evs'. rewrite !turns_of_cons. simpl.
      split; [done|]. by rewrite Nat.add_succ_r.
    + destruct (tasks_inv_tail time k b evs d Hinv)
        as (b1 & evs1 & Hb1 & Hinv1).
      destruct (IH (S time) _ _ _ _ Hinv1) as (b' & evs' & Hb' & Hinv').
      exists b', evs'. rewrite !turns_of_cons. simpl.
      split; [lia|done].
Qed.
End TwoTasksRun.

(** * The statements of the specification *)

(** ** The user-key normaliser *)

Section NormaliserClaims.
Context `{PyRuntime}.

(** C2, as amended: [base_user u] is the suffix after the first dot exactly
    when that dot stands at an index [i > 0] and the prefix [u[0:i]] is all
    digits, and is [u] otherwise; [base_user "5823.mohammad" = "mohammad"],
    [base_user "mohammad" = "mohammad"],
    [base_user "58a3.mohammad" = "58a3.mohammad"], and
    [base_user "5823."] is the empty suffix. *)
Theorem base_user_numeric_prefix :
  (∀ pre suf, DOT ∉ pre → pre ≠ [] →
     Forall (λ c, is_digit_char c = true) pre →
     base_user (pre ++ DOT :: suf) = suf) ∧
  (∀ u, (¬ ∃ pre suf, u = pre ++ DOT :: suf ∧ (DOT ∉ pre) ∧ pre ≠ [] ∧
                      Forall (λ c, is_digit_char c = true) pre) →
     base_user u = u) ∧
  base_user (lit "5823.mohammad") = lit "mohammad" ∧
  base_user (lit "mohammad") = lit "mohammad" ∧
  base_user (lit "58a3.mohammad") = lit "58a3.mohammad" ∧
  base_user (lit "5823.") = [].
Proof.
  split_and!; [apply base_user_strip|apply base_user_keep|reflexivity..].
Qed.
End NormaliserClaims.

(** C2, as stated, fails on the empty suffix: the key of ["5823."] is the
    empty string, not ["5823."]. *)
Lemma base_user_empty_suffix :
  base_user (lit "5823.") = [] ∧ lit "5823." ≠ [].
Proof. split; [reflexivity|discriminate]. Qed.

(** ** The aggregation index *)

Section IndexClaims.
Context `{PyRuntime} `{Settings}.

(** C1, as amended: on a record that exists, [_apply_event_to_agg] sets
    [last_ts] and [sample_host] to those of the event when the stored
    [last_ts] is empty or strictly smaller than the timestamp of the event,
    and leaves both as they are when the timestamp of the event is smaller
    than or equal to a stored one that is not empty. *)
Theorem apply_event_latest_strict (ev : event) (AGG : gmap str aggregate)
    (a : aggregate) :
  AGG !! base_user (user ev) = Some a →
  ∃ a', _apply_event_to_agg ev AGG !! base_user (user ev) = Some a' ∧
    (last_ts a = [] ∨ str_ltb (last_ts a) (ts ev) = true →
       last_ts a' = ts ev ∧ sample_host a' = host ev) ∧
    (last_ts a ≠ [] → str_ltb (last_ts a) (ts ev) = false →
       last_ts a' = last_ts a ∧ sample_host a' = sample_host a).
Proof.
  intros Ha. eexists. split; [apply apply_lookup|]. rewrite Ha. simpl.
  rewrite last_ts_update, sample_host_update. unfold str_gtb. split.
  - intros [Hnil|Hlt].
    + by rewrite Hnil.
    + rewrite Hlt. by rewrite orb_true_r.
  - intros Hne%truthy_true Hlt. by rewrite Hne, Hlt.
Qed.

(** C7: from no record, a run of [N] events of one key leaves a record
    whose [count] is [N], whose sample hosts are at most
    [MAX_HOSTS_PER_USER], or one when that cap is below one, and whose
    [last_ts] is the greatest timestamp of the run; and no call makes the
    [last_ts] of a record smaller. *)
Theorem apply_events_summary (b : str) (evs : list event)
    (AGG : gmap str aggregate) :
  AGG !! b = None →
  evs ≠ [] →
  Forall (λ ev, base_user (user ev) = b) evs →
  (∃ a, apply_all evs AGG !! b = Some a ∧ summarises evs a) ∧
  (∀ ev AGG' a, AGG' !! base_user (user ev) = Some a →
     ∃ a', _apply_event_to_agg ev AGG' !! base_user (user ev) = Some a' ∧
           str_leb (last_ts a) (last_ts a') = true).
Proof.
  intros Hnew Hevs Hkey. split; [by apply apply_all_summarises|].
  intros ev AGG' a Ha. eexists. split; [apply apply_lookup|].
  rewrite Ha. apply last_ts_update_le.
Qed.

(** C10: [_apply_event_to_agg] keeps the index keyed by normalised
    identity: the variants of every key are not empty and each of them has
    that key as its base. *)
Theorem apply_event_keyed_by_base (ev : event) (AGG : gmap str aggregate) :
  keyed_by_base AGG → keyed_by_base (_apply_event_to_agg ev AGG).
Proof. apply keyed_by_base_apply. Qed.
End IndexClaims.

(** C1, as stated, fails on a tie: the event has the stored timestamp, and
    the sample host stays the stored one. *)
Lemma apply_event_tie_keeps_host :
  str_geb (ts tie_u) (last_ts stored_u) = true ∧
  sample_host <$> (_apply_event_to_agg tie_u {[lit "u" := stored_u]}
                     !! lit "u") = Some (lit "a.example") ∧
  lit "a.example" ≠ host tie_u.
Proof.
  split_and!; [reflexivity| |discriminate].
  pose proof (apply_lookup tie_u {[lit "u" := stored_u]}) as Hnow.
  change (base_user (user tie_u)) with (lit "u") in Hnow.
  rewrite Hnow, lookup_singleton_eq. simpl. by rewrite sample_host_update.
Qed.

(** A run of C1 on a later event. *)
Lemma apply_event_latest_strict_witness :
  ({[lit "u" := stored_u]} : gmap (list N) aggregate)
    !! base_user (user {| ts := T3; user := lit "7.u"; host := lit "c.example" |})
    = Some stored_u ∧
  ∃ a', _apply_event_to_agg
          {| ts := T3; user := lit "7.u"; host := lit "c.example" |}
          {[lit "u" := stored_u]}
          !! base_user (user {| ts := T3; user := lit "7.u";
                                host := lit "c.example" |}) = Some a' ∧
    (last_ts stored_u = [] ∨ str_ltb (last_ts stored_u) T3 = true →
       last_ts a' = T3 ∧ sample_host a' = lit "c.example") ∧
    (last_ts stored_u ≠ [] → str_ltb (last_ts stored_u) T3 = false →
       last_ts a' = last_ts stored_u ∧ sample_host a' = sample_host stored_u).
Proof.
  assert (({[lit "u" := stored_u]} : gmap (list N) aggregate)
            !! base_user (user {| ts := T3; user := lit "7.u";
                                  host := lit "c.example" |})
          = Some stored_u) as Hstored.
  { change (base_user _) with (lit "u"). apply lookup_singleton_eq. }
  split; [exact Hstored|].
  exact (apply_event_latest_strict _ _ _ Hstored).
Defined.

(** A run of C7: three events of the key ["u"], with the default cap. *)
Lemma apply_events_summary_witness :
  ((∅ : gmap (list N) aggregate) !! lit "u" = None ∧
   run_u ≠ [] ∧
   Forall (λ ev, base_user (user ev) = lit "u") run_u) ∧
  (∃ a, apply_all run_u ∅ !! lit "u" = Some a ∧ summarises run_u a) ∧
  (∀ ev AGG' a, AGG' !! base_user (user ev) = Some a →
     ∃ a', _apply_event_to_agg ev AGG' !! base_user (user ev) = Some a' ∧
           str_leb (last_ts a) (last_ts a') = true).
Proof.
  assert ((∅ : gmap (list N) aggregate) !! lit "u" = None) as Hnew
    by apply lookup_empty.
  assert (run_u ≠ []) as Hrun by discriminate.
  assert (Forall (λ ev, base_user (user ev) = lit "u") run_u) as Hkey
    by (repeat constructor).
  split; [by split_and!|].
  exact (apply_events_summary (lit "u") run_u ∅ Hnew Hrun Hkey).
Defined.

(** C7, as stated, fails when the cap is set to 0: the first event of a key
    puts its host in the new record without a test of the cap, so one event
    leaves one sample host, which is more than the cap. *)
Lemma apply_event_over_cap :
  @MAX_HOSTS_PER_USER NO_HOSTS = 0 ∧
  ∃ a, @apply_all _ NO_HOSTS [tie_u] ∅ !! lit "u" = Some a ∧
       count a = 1 ∧ size (hosts a) = 1%nat.
Proof.
  split; [reflexivity|].
  pose proof (apply_lookup (H0 := NO_HOSTS) tie_u ∅) as Hnow.
  change (base_user (user tie_u)) with (lit "u") in Hnow.
  rewrite lookup_empty in Hnow. eexists. split; [exact Hnow|].
  split; [reflexivity|].
  rewrite (hosts_update (H0 := NO_HOSTS)). cbn. apply size_singleton.
Qed.

(** A run of C10 on the empty index. *)
Lemma apply_event_keyed_by_base_witness :
  keyed_by_base (∅ : gmap (list N) aggregate) ∧
  keyed_by_base (_apply_event_to_agg tie_u ∅).
Proof.
  assert (keyed_by_base (∅ : gmap (list N) aggregate)) as Hempty.
  { intros b a Hb. by rewrite lookup_empty in Hb. }
  split; [exact Hempty|].
  exact (apply_event_keyed_by_base tie_u ∅ Hempty).
Defined.

(** ** The backward reader and the paginator *)

Ltac ascii_bytes :=
  repeat (apply Forall_cons_2; [reflexivity|]); apply Forall_nil_2.

Section HistoryClaims.
Context `{PyRuntime}.

(** C3, at two files where the generator and the claim part: after
    [*lines, buffer = buffer.split(b"\n")] the buffer is the last segment of
    the chunk, not the first.  A file of two lines without a final line
    feed comes out first line first; with chunks of three bytes the lines of
    ["abc\ndef\n"] come out as ["ef"], ["c"], ["abd"]. *)
Theorem iter_file_backward_keeps_last_segment :
  _iter_file_backward (blit "x" ++ [bLF] ++ blit "y") (Z.shiftl 1 16)
    = Some [lit "x"; lit "y"] ∧
  decode <$> lines_last_first (blit "x" ++ [bLF] ++ blit "y")
    = [lit "y"; lit "x"] ∧
  _iter_file_backward (blit "abc" ++ [bLF] ++ blit "def" ++ [bLF]) 3
    = Some [lit "ef"; lit "c"; lit "abd"] ∧
  decode <$> lines_last_first (blit "abc" ++ [bLF] ++ blit "def" ++ [bLF])
    = [[]; lit "def"; lit "abc"].
Proof.
  destruct H as [decimal digit ignore Hspace Hascii].
  split_and!; vm_compute; rewrite !Hascii by ascii_bytes; reflexivity.
Qed.

Lemma selected_at_or_after base before_ts raw ev :
  parse_line (strip raw) = Some ev → at_or_after before_ts ev = true →
  selected base before_ts raw = None.
Proof. intros Hev Hat. unfold selected. by rewrite Hev, Hat. Qed.

Lemma at_or_after_cursor b ev :
  b ≠ [] → at_or_after (Some b) ev = negb (str_ltb (ts ev) b).
Proof. intros Hb%truthy_true. unfold at_or_after, str_geb. by rewrite Hb. Qed.

(** C4, as amended: the page holds only events that parse from a line the
    backward reader yields, whose base key is [base] and, under a cursor
    that is not empty, whose timestamp is strictly smaller than the cursor;
    it holds at most [limit] events when [limit] is at least 1; it is the
    reverse of the first matches in the order of the reader; over a file of
    whole lines that fits in one chunk it is the last matches of the file in
    the order of the file, hence ascending when the matches of the file
    are; and over such a file with lines at [T1 < T2 < T3] for one user the
    page before [T3] is the events at [T1], [T2] and the page without
    cursor the events at [T1], [T2], [T3]. *)
Theorem tail_user_events_page :
  (∀ f base limit before_ts,
     ∃ raws evs,
       _iter_file_backward f (Z.shiftl 1 16) = Some raws ∧
       tail_user_events f base limit before_ts = Some evs ∧
       (∀ ev, ev ∈ evs →
          ∃ raw, raw ∈ raws ∧ parse_line (strip raw) = Some ev ∧
            base_user (user ev) = base ∧
            ∀ b, before_ts = Some b → b ≠ [] → str_ltb (ts ev) b = true) ∧
       (1 ≤ limit → Z.of_nat (length evs) ≤ limit) ∧
       evs = reverse (take (Z.to_nat (Z.max 1 limit))
                           (omap (selected base before_ts) raws)) ∧
       (∀ ls, f = join_lines ls → Forall (λ l, bLF ∉ l) ls →
          Z.of_nat (length f) ≤ Z.shiftl 1 16 →
          let found := omap (selected base before_ts) (decode <$> ls) in
          evs = drop (length found - Z.to_nat (Z.max 1 limit)) found ∧
          (ascending found → ascending evs))) ∧
  (∀ l1 l2 l3 e1 e2 e3 base,
     Forall (λ l, bLF ∉ l) [l1; l2; l3] →
     Z.of_nat (length (join_lines [l1; l2; l3])) ≤ Z.shiftl 1 16 →
     parse_line (strip (decode l1)) = Some e1 →
     parse_line (strip (decode l2)) = Some e2 →
     parse_line (strip (decode l3)) = Some e3 →
     base_user (user e1) = base → base_user (user e2) = base →
     base_user (user e3) = base →
     str_ltb (ts e1) (ts e2) = true → str_ltb (ts e2) (ts e3) = true →
     tail_user_events (join_lines [l1; l2; l3]) base 10 (Some (ts e3))
       = Some [e1; e2] ∧
     tail_user_events (join_lines [l1; l2; l3]) base 10 None
       = Some [e1; e2; e3]).
Proof.
  split.
  - intros f base limit before_ts.
    destruct (tail_user_events_spec f base limit before_ts)
      as (raws & Hraws & Hpage).
    exists raws. eexists. split_and!; [done|exact Hpage| | |done|].
    + intros ev Hev. rewrite elem_of_reverse in Hev.
      apply subseteq_take, list_elem_of_omap in Hev.
      destruct Hev as (raw & Hraw & (Hparse & Hbase & Hat)%selected_Some).
      exists raw. split_and!; [done..|].
      intros b -> Hb. rewrite at_or_after_cursor in Hat by done.
      by apply negb_false_iff in Hat.
    + intros Hlimit. rewrite length_reverse, length_take. lia.
    + intros ls -> Hls Hsize found.
      pose proof (tail_user_events_one_chunk ls base limit before_ts Hls Hsize)
        as Hfile.
      rewrite Hpage in Hfile. injection Hfile as Hfile.
      split; [exact Hfile|]. rewrite Hfile. apply ascending_drop.
  - intros l1 l2 l3 e1 e2 e3 base Hls Hsize Hp1 Hp2 Hp3 Hb1 Hb2 Hb3 H12 H23.
    assert (ts e3 ≠ []) as Hne by (intros Hnil; by rewrite Hnil, str_ltb_nil_r in H23).
    assert (str_ltb (ts e1) (ts e3) = true) as H13
      by (by eapply str_ltb_trans).
    rewrite !tail_user_events_one_chunk by done. cbv zeta.
    split; f_equal.
    + rewrite !fmap_cons, fmap_nil.
      rewrite (omap_cons_Some _ _ e1), (omap_cons_Some _ _ e2), omap_cons_None;
        [done|..].
      * eapply selected_at_or_after; [done|].
        rewrite at_or_after_cursor by done. by rewrite str_ltb_irrefl.
      * apply selected_Some. split_and!; [done..|].
        rewrite at_or_after_cursor by done. by rewrite H23.
      * apply selected_Some. split_and!; [done..|].
        rewrite at_or_after_cursor by done. by rewrite H13.
    + rewrite !fmap_cons, fmap_nil.
      rewrite (omap_cons_Some _ _ e1), (omap_cons_Some _ _ e2),
        (omap_cons_Some _ _ e3); [done|..]; by apply selected_Some.
Qed.
End HistoryClaims.

(** C4, as stated, fails in three places: with the limit 0 the page holds
    one event; over a file whose lines are not in the order of time the page
    is in the order of the file; and the empty cursor is no cursor. *)
Lemma tail_user_events_beyond_the_claim :
  tail_user_events (join_lines [LINE1; LINE2; LINE3]) (lit "x") 0 None
    = Some [EVENT3] ∧
  tail_user_events (join_lines [LINE2; LINE1]) (lit "x") 10 None
    = Some [EVENT2; EVENT1] ∧
  str_ltb (ts EVENT1) (ts EVENT2) = true ∧
  tail_user_events (join_lines [LINE1]) (lit "x") 10 (Some [])
    = Some [EVENT1] ∧
  str_ltb (ts EVENT1) [] = false.
Proof. split_and!; vm_compute; reflexivity. Qed.

(** ** The line parser *)

Section ParserClaims.
Context `{PyRuntime}.

Lemma has_host_no_lf (hfield : str) :
  LF ∉ hfield → has_host hfield ↔ hfield ≠ [].
Proof.
  intros Hlf. unfold has_host. split.
  - intros [(c & Hc & _) _] ->. by apply elem_of_nil in Hc.
  - intros Hne. split.
    + destruct hfield as [|c rest]; [done|]. exists c. split; [left|].
      intros ->. apply Hlf. left.
    + intros Hin%strip_subseteq. done.
Qed.

Lemma three_fields_no_lf (line : str) (ev : event) :
  LF ∉ line →
  three_fields has_host line ev ↔ three_fields (λ hfield, hfield ≠ []) line ev.
Proof.
  intros Hlf.
  split; intros (lead & stamp & gap & ufield & hfield & Hline & Hrest);
    exists lead, stamp, gap, ufield, hfield; (split; [done|]);
    destruct Hrest as (? & ? & ? & ? & ? & Hhost & ?); split_and!; try done;
    apply has_host_no_lf; try done;
    intros Hin; apply Hlf; rewrite Hline; set_solver.
Qed.

(** C5, as amended: [parse_line] returns an event exactly when the line is
    white space, a timestamp of the exact form, white space, a bar, a user
    field without bar that is not empty once trimmed, a bar, and a host
    field that holds a character other than a line feed (and, once trimmed,
    no line feed); the event carries the timestamp, the trimmed user and the
    trimmed host, or the sentinel when the host field trims to nothing.
    Every other line yields no event, a line of three fields with an empty
    host field among them; on a line without line feed the host field is
    asked only to be not empty. *)
Theorem parse_line_grammar (line : str) :
  (∀ ev, parse_line line = Some ev ↔ three_fields has_host line ev) ∧
  (parse_line line = None ↔ ∀ ev, ¬ three_fields has_host line ev) ∧
  (LF ∉ line →
   ∀ ev, parse_line line = Some ev ↔
         three_fields (λ hfield, hfield ≠ []) line ev) ∧
  (∀ ev, three_fields (λ hfield, hfield = []) line ev →
         parse_line line = None).
Proof.
  split_and!; [| | |intros ev Hempty].
  4:{ destruct (parse_line line) as [ev'|] eqn:Hev; [exfalso|done].
      apply parse_line_three_fields in Hev.
      destruct Hev as (lead' & stamp' & gap' & ufield' & hfield' & Hline' &
        ? & ? & ? & ? & _ & [(c & Hc & _) _] & _).
      destruct Hempty as (lead & stamp & gap & ufield & hfield & Hline &
        ? & ? & ? & ? & _ & Hnil & _).
      rewrite Hline in Hline'.
      apply three_fields_unique in Hline' as (_ & _ & Hh); [|done..].
      rewrite <-Hh, Hnil in Hc. by apply elem_of_nil in Hc. }
  - intros ev. apply parse_line_three_fields.
  - split.
    + intros Hnone ev Hev%parse_line_three_fields. congruence.
    + intros Hno. destruct (parse_line line) as [ev|] eqn:Hev; [|done].
      apply parse_line_three_fields in Hev. by destruct (Hno ev).
  - intros Hlf ev. rewrite <- three_fields_no_lf by done.
    apply parse_line_three_fields.
Qed.
End ParserClaims.

(** C5, as stated, fails on a line of three fields whose host field is
    empty: the grammar of the statement gives it the sentinel host, the
    pattern does not match it. *)
Lemma parse_line_empty_host_field :
  three_fields (λ _, True) NO_HOST_LINE NO_HOST_EVENT ∧
  parse_line NO_HOST_LINE = None.
Proof.
  split; [|by vm_compute].
  exists [], (lit "2024-01-01 00:00:00"), [], (lit "u"), [].
  split_and!; try done; try by vm_compute.
  by apply (bool_decide_unpack _); vm_compute.
Qed.

(** ** The broadcaster *)

Section BroadcasterClaims.
Context {M : Type}.
Implicit Types (b : broadcaster M) (msg : M) (q : nat) (qu : queue M).

(** C9: [broadcast] appends the message to the queue of every subscriber
    whose queue is not full and keeps it subscribed; a subscriber whose
    [put_nowait] fails is no longer subscribed when the call returns; the
    queues of the others are as before and nobody is added.  A message
    sent to three subscribers reaches the three, and after one of them has
    unsubscribed the next message reaches the two others only.
    [unsubscribe] is idempotent, and leaves a registry that does not hold
    the handle as it is. *)
Theorem broadcast_reaches_subscribers :
  (∀ msg b q qu, q ∈ subscribers b → store b !! q = Some qu →
     full qu = false →
     q ∈ subscribers (broadcast msg b) ∧
     store (broadcast msg b) !! q
       = Some {| maxsize := maxsize qu; items := items qu ++ [msg] |}) ∧
  (∀ msg b q, q ∈ subscribers b → accepts msg (store b) q = None →
     (q ∉ subscribers (broadcast msg b)) ∧
     store (broadcast msg b) !! q = store b !! q) ∧
  (∀ msg b q, q ∉ subscribers b →
     (q ∉ subscribers (broadcast msg b)) ∧
     store (broadcast msg b) !! q = store b !! q) ∧
  (∀ msg msg',
     let '(q1, q2, q3, b) := three_subscribers in
     let b1 := broadcast msg b in
     let b2 := broadcast msg' (unsubscribe q2 b1) in
     NoDup [q1; q2; q3] ∧ subscribers b = {[q1; q2; q3]} ∧
     inbox b1 q1 = Some [msg] ∧ inbox b1 q2 = Some [msg] ∧
     inbox b1 q3 = Some [msg] ∧
     inbox b2 q1 = Some [msg; msg'] ∧ inbox b2 q2 = Some [msg] ∧
     inbox b2 q3 = Some [msg; msg']) ∧
  (∀ b q, unsubscribe q (unsubscribe q b) = unsubscribe q b) ∧
  (∀ b q, q ∉ subscribers b → unsubscribe q b = b).
Proof.
  split_and!.
  - intros msg b q qu Hq Hqu Hfull.
    assert (accepts msg (store b) q
            = Some {| maxsize := maxsize qu; items := items qu ++ [msg] |})
      as Hacc.
    { unfold accepts. rewrite Hqu. simpl. by apply put_nowait_Some. }
    split.
    + apply broadcast_subscribers. by rewrite Hacc.
    + rewrite broadcast_store, decide_True by done. by rewrite Hacc.
  - intros msg b q Hq Hacc. split.
    + intros [_ Hsome]%broadcast_subscribers. rewrite Hacc in Hsome.
      by destruct Hsome.
    + rewrite broadcast_store, decide_True by done. by rewrite Hacc.
  - intros msg b q Hq. split.
    + by intros [? _]%broadcast_subscribers.
    + by rewrite broadcast_store, decide_False.
  - intros msg msg'. vm_compute. split_and!; try done.
    repeat constructor; set_solver.
  - intros b q. apply unsubscribe_idemp.
  - intros b q. apply unsubscribe_absent.
Qed.
End BroadcasterClaims.

(** ** The stats query *)

Section StatsClaims.
Context `{PyRuntime}.

(** C8, as amended: the stats query returns the object of the stats file as
    it is, its keys unchanged and nothing summed; when the file is absent,
    when its content is not an object and when reading it raises, the
    query returns the empty object. *)
Theorem api_stats_verbatim :
  (∀ data, is_dict data = true → api_stats (Loaded data) = data) ∧
  (∀ data, is_dict data = false → api_stats (Loaded data) = JObject []) ∧
  api_stats NoFile = JObject [] ∧
  api_stats Raises = JObject [].
Proof.
  split_and!; try done; intros data Hdict; unfold api_stats; by rewrite Hdict.
Qed.
End StatsClaims.

(** C8, as stated, fails on a stats file with two keys of one base: the
    query answers with the two keys, not with their sum under the base. *)
Lemma api_stats_keeps_raw_keys :
  api_stats (Loaded (JObject TWO_KEYS)) = JObject TWO_KEYS ∧
  rekey_by_base TWO_KEYS = [(lit "a", (3, 1))] ∧
  fst <$> TWO_KEYS = [lit "1.a"; lit "2.a"].
Proof. split_and!; by vm_compute. Qed.

(** ** The bounded full scan *)

Section FullScanClaims.
Context `{PyRuntime} `{Settings} `{ScanSettings} `{PyZeroDivision}.

(** C6, amended: over a file whose size is [S] when the scan starts, which
    is empty or ends with a line feed then, and to which data may be
    appended at any turn of the loop, and as long as [f.tell()] returns
    byte offsets, the index and the progress that the scan leaves are those
    of the scan of the file as it was: nothing of what was appended is
    applied.  When [FULL_SCAN_SLEEP_EVERY] is not [0] the scan returns with
    read and total bytes at [S], done and without error; and when the file
    is made of whole lines, the events of these lines are applied in order
    and nothing else.  When [os.stat] fails, when [open] fails, when a read
    raises and when the pause setting is [0] and an event is applied, the
    scan is done and the error is set: to ["log not found"] for a file that
    is not there, to the text of the exception otherwise; whenever the
    coroutine returns the scan is done. *)
Theorem full_scan_file_stops_at_snapshot :
  (∀ fuel env env' AGG (f0 : bytes) (extra : nat → bytes),
     f0 = [] ∨ last f0 = Some bLF →
     (∀ turn pos, tell env turn pos = pos) →
     (∀ turn pos, tell env' turn pos = pos) →
     stat_result env = inr (Z.of_nat (length f0)) →
     stat_result env' = inr (Z.of_nat (length f0)) →
     open_result env = None → open_result env' = None →
     (∀ turn, visible env turn = inr (f0 ++ extra turn)) →
     (∀ turn, visible env' turn = inr f0) →
     full_scan_file fuel env AGG = full_scan_file fuel env' AGG) ∧
  (∀ fuel env AGG (f0 : bytes) (extra : nat → bytes),
     FULL_SCAN_SLEEP_EVERY ≠ 0 →
     (∀ turn pos, tell env turn pos = pos) →
     stat_result env = inr (Z.of_nat (length f0)) →
     open_result env = None →
     (∀ turn, visible env turn = inr (f0 ++ extra turn)) →
     (length f0 < fuel)%nat →
     ∃ agg, full_scan_file fuel env AGG
            = Some (agg, {| FULL_SCAN_TOTAL_BYTES := Z.of_nat (length f0);
                            FULL_SCAN_READ_BYTES := Z.of_nat (length f0);
                            FULL_SCAN_DONE := true;
                            FULL_SCAN_ERR := None |})) ∧
  (∀ (env : scan_env) (AGG : gmap str aggregate) (ls : list bytes)
     (extra : nat → bytes) (fuel : nat),
     FULL_SCAN_SLEEP_EVERY ≠ 0 →
     (∀ turn pos, tell env turn pos = pos) →
     Forall plain ls →
     stat_result env = inr (Z.of_nat (length (join_lines ls))) →
     open_result env = None →
     (∀ turn, visible env turn = inr (join_lines ls ++ extra turn)) →
     (length ls < fuel)%nat →
     full_scan_file fuel env AGG
       = Some (apply_all (omap line_event ls) AGG,
               {| FULL_SCAN_TOTAL_BYTES := Z.of_nat (length (join_lines ls));
                  FULL_SCAN_READ_BYTES := Z.of_nat (length (join_lines ls));
                  FULL_SCAN_DONE := true;
                  FULL_SCAN_ERR := None |})) ∧
  (∀ fuel env AGG e, stat_result env = inl e →
     full_scan_file fuel env AGG
       = Some (AGG,
               {| FULL_SCAN_TOTAL_BYTES := 0;
                  FULL_SCAN_READ_BYTES := 0;
                  FULL_SCAN_DONE := true;
                  FULL_SCAN_ERR :=
                    Some match e with
                         | FileNotFoundError => lit "log not found"
                         | OtherException message => message
                         end |})) ∧
  (∀ fuel env AGG size e, stat_result env = inr size →
     open_result env = Some e →
     full_scan_file fuel env AGG
       = Some (AGG,
               {| FULL_SCAN_TOTAL_BYTES := size;
                  FULL_SCAN_READ_BYTES := 0;
                  FULL_SCAN_DONE := true;
                  FULL_SCAN_ERR :=
                    Some match e with
                         | FileNotFoundError => lit "log not found"
                         | OtherException message => message
                         end |})) ∧
  (∀ fuel env AGG (ls : list bytes) (k : nat) e,
     FULL_SCAN_SLEEP_EVERY ≠ 0 →
     (∀ turn pos, tell env turn pos = pos) →
     Forall plain ls → (k < length ls)%nat →
     stat_result env = inr (Z.of_nat (length (join_lines ls))) →
     open_result env = None →
     (∀ t, (t < k)%nat →
        ∃ extra, visible env t = inr (join_lines ls ++ extra)) →
     visible env k = inl e →
     (k < fuel)%nat →
     full_scan_file fuel env AGG
       = Some (apply_all (omap line_event (take k ls)) AGG,
               {| FULL_SCAN_TOTAL_BYTES := Z.of_nat (length (join_lines ls));
                  FULL_SCAN_READ_BYTES :=
                    Z.of_nat (length (join_lines (take (k - 1) ls)));
                  FULL_SCAN_DONE := true;
                  FULL_SCAN_ERR :=
                    Some match e with
                         | FileNotFoundError => lit "log not found"
                         | OtherException message => message
                         end |})) ∧
  (∀ fuel env AGG (quiet : list bytes) (l : bytes) (rest : list bytes) ev,
     FULL_SCAN_SLEEP_EVERY = 0 →
     (∀ turn pos, tell env turn pos = pos) →
     Forall plain quiet → plain l →
     Forall (λ l, line_event l = None) quiet → line_event l = Some ev →
     stat_result env
       = inr (Z.of_nat (length (join_lines (quiet ++ l :: rest)))) →
     open_result env = None →
     (∀ t, ∃ extra,
        visible env t = inr (join_lines (quiet ++ l :: rest) ++ extra)) →
     (length quiet < fuel)%nat →
     full_scan_file fuel env AGG
       = Some (_apply_event_to_agg ev AGG,
               {| FULL_SCAN_TOTAL_BYTES :=
                    Z.of_nat (length (join_lines (quiet ++ l :: rest)));
                  FULL_SCAN_READ_BYTES := Z.of_nat (length (join_lines quiet));
                  FULL_SCAN_DONE := true;
                  FULL_SCAN_ERR := Some modulo_by_zero |})) ∧
  (∀ fuel env AGG agg prog,
     full_scan_file fuel env AGG = Some (agg, prog) →
     FULL_SCAN_DONE prog = true ∧
     (FULL_SCAN_ERR prog = None →
      FULL_SCAN_READ_BYTES prog = FULL_SCAN_TOTAL_BYTES prog)).
Proof.
  split_and!.
  - intros fuel env env' AGG f0 extra. apply full_scan_file_appended.
  - intros fuel env AGG f0 extra. apply full_scan_file_completes.
  - intros env AGG ls extra fuel. apply full_scan_file_lines.
  - intros fuel env AGG e Hstat.
    by rewrite (full_scan_file_stat_fails fuel env AGG e Hstat).
  - intros fuel env AGG size e Hstat Hopen.
    by rewrite (full_scan_file_open_fails fuel env AGG size e Hstat Hopen).
  - intros fuel env AGG ls k e Hevery Htell Hplain Hk Hstat Hopen Hvis He
      Hfuel.
    unfold full_scan_file. rewrite Hstat, Hopen. cbv zeta.
    edestruct (scan_loop_lines_raise env e k ls [] fuel 0%nat)
      as (st' & Hloop & Hagg & Hread); [done|done|done|done| |exact He|done|].
    { intros t Ht. apply Hvis. lia. }
    cbn [app join_lines length] in Hloop. rewrite Hloop, Hagg, Hread.
    unfold scan_failed. cbn [scan_agg scan_read app].
    do 3 f_equal. destruct k as [|k]; [by rewrite take_0|].
    by rewrite Nat.sub_succ, Nat.sub_0_r.
  - intros fuel env AGG quiet l rest ev Hevery Htell Hquiet Hl Hnone Hev Hstat
      Hopen Hvis Hfuel.
    unfold full_scan_file. rewrite Hstat, Hopen. cbv zeta.
    edestruct (scan_loop_lines_modulo env quiet l rest [] fuel 0%nat)
      as (st' & Hloop & Hagg & Hread);
      [done|done|done|done|done|exact Hev|exact Hvis|done|].
    cbn [app join_lines length] in Hloop. rewrite Hloop, Hagg, Hread.
    done.
  - intros fuel env AGG agg prog. apply full_scan_file_done.
Qed.
End FullScanClaims.

Ltac no_such_byte := by apply (bool_decide_unpack _); vm_compute.

(** Two runs of C6 on a file of two lines to which a third is appended:
    with the default settings the appended line is not in the index; with
    the pause setting at [0] the scan ends with the error of the division,
    once the first event is applied. *)
Lemma full_scan_file_stops_at_snapshot_witness :
  full_scan_file 3 GROWING ∅
    = Some (apply_all (omap line_event [LINE1; JUNK]) ∅,
            {| FULL_SCAN_TOTAL_BYTES := Z.of_nat (length (join_lines [LINE1; JUNK]));
               FULL_SCAN_READ_BYTES := Z.of_nat (length (join_lines [LINE1; JUNK]));
               FULL_SCAN_DONE := true;
               FULL_SCAN_ERR := None |}) ∧
  digest (apply_all (omap line_event [LINE1; JUNK]) ∅)
    = [(lit "x", (1, T1, lit "h1", [lit "1.x"], [lit "h1"]))] ∧
  Z.of_nat (length (join_lines [LINE1; JUNK])) = 53 ∧
  @full_scan_file ascii_runtime default_settings NEVER_PAUSE python_3_11
                  3 GROWING ∅
    = Some (_apply_event_to_agg EVENT1 ∅,
            {| FULL_SCAN_TOTAL_BYTES :=
                 Z.of_nat (length (join_lines ([] ++ LINE1 :: [JUNK])));
               FULL_SCAN_READ_BYTES := Z.of_nat (length (join_lines []));
               FULL_SCAN_DONE := true;
               FULL_SCAN_ERR := Some (lit "integer modulo by zero") |}).
Proof.
  split_and!; [|by vm_compute..|].
  - apply (proj1 (proj2 (proj2 full_scan_file_stops_at_snapshot)) GROWING ∅
             [LINE1; JUNK]
             (λ _, join_lines [LINE3]) 3%nat).
    + discriminate.
    + reflexivity.
    + repeat constructor; no_such_byte.
    + reflexivity.
    + reflexivity.
    + intros turn. reflexivity.
    + simpl. lia.
  - apply (proj1 (proj2 (proj2 (proj2 (proj2 (proj2 (proj2
             (@full_scan_file_stops_at_snapshot
                ascii_runtime default_settings NEVER_PAUSE python_3_11)))))))
             3%nat GROWING ∅ [] LINE1 [JUNK] EVENT1).
    + reflexivity.
    + reflexivity.
    + constructor.
    + split; no_such_byte.
    + constructor.
    + by vm_compute.
    + reflexivity.
    + reflexivity.
    + intros t. by exists (join_lines [LINE3]).
    + simpl. lia.
Defined.

(** C6, as stated, fails on a file that ends in the middle of a line when
    the scan starts: the scan reads the line to its end, and applies the
    event of a line that was not in the file at the start.  The file as it
    was holds one event; with the end of the line appended, the scan
    applies two. *)
Lemma full_scan_file_applies_appended :
  stat_result CUT = inr (Z.of_nat (length CUT_START)) ∧
  (∀ turn, visible CUT turn = inr (CUT_START ++ CUT_APPENDED)) ∧
  (∀ turn, visible CUT_ALONE turn = inr CUT_START) ∧
  prod_map digest id <$> full_scan_file 3 CUT_ALONE ∅
    = Some ([(lit "x", (1, T1, lit "h1", [lit "1.x"], [lit "h1"]))],
            {| FULL_SCAN_TOTAL_BYTES := 50; FULL_SCAN_READ_BYTES := 50;
               FULL_SCAN_DONE := true; FULL_SCAN_ERR := None |}) ∧
  prod_map digest id <$> full_scan_file 3 CUT ∅
    = Some ([(lit "x", (2, T3, lit "h3", [lit "1.x"; lit "x"],
                        [lit "h3"; lit "h1"]))],
            {| FULL_SCAN_TOTAL_BYTES := 50; FULL_SCAN_READ_BYTES := 50;
               FULL_SCAN_DONE := true; FULL_SCAN_ERR := None |}).
Proof. split_and!; [done|done|done|by vm_compute..]. Qed.

(** What the amended claim leaves out: [f.tell()] is compared with the size
    of the file, and on a file with carriage returns it may return a
    number that is not the byte offset.  Here it does after the first
    line, and the scan stops there: the event of the third line, which was
    in the file when the scan started, is not applied. *)
Lemma full_scan_file_stops_on_pending_cr :
  stat_result CRLF_LOG = inr 38 ∧
  tell CRLF_LOG 1 4 = 2 ^ 64 + 5 ∧
  line_event LINE1 = Some EVENT1 ∧
  prod_map digest id <$> full_scan_file 2 CRLF_LOG ∅
    = Some ([], {| FULL_SCAN_TOTAL_BYTES := 38; FULL_SCAN_READ_BYTES := 38;
                   FULL_SCAN_DONE := true; FULL_SCAN_ERR := None |}).
Proof. split_and!; by vm_compute. Qed.

(** A run of C4 on a file of three lines of one user. *)
Lemma tail_user_events_page_witness :
  tail_user_events (join_lines [LINE1; LINE2; LINE3]) (lit "x") 10 (Some T3)
    = Some [EVENT1; EVENT2] ∧
  tail_user_events (join_lines [LINE1; LINE2; LINE3]) (lit "x") 10 None
    = Some [EVENT1; EVENT2; EVENT3].
Proof.
  apply (proj2 tail_user_events_page LINE1 LINE2 LINE3 EVENT1 EVENT2 EVENT3
           (lit "x")); try (by vm_compute).
  repeat constructor; no_such_byte.
Defined.

(** * Further properties of the module *)

(** ** The index, key by key *)

Section IndexExtras.
Context `{PyRuntime} `{Settings}.

(** X1: the record of a key after a run of events is the one the events of
    this key alone leave, and it is the record before the run when the run
    has no event of the key. *)
Theorem apply_all_key_by_key (evs : list event) (AGG : gmap str aggregate)
    (b : str) :
  apply_all evs AGG !! b = apply_all (of_key b evs) AGG !! b ∧
  (of_key b evs = [] → apply_all evs AGG !! b = AGG !! b).
Proof.
  assert (apply_all evs AGG !! b = apply_all (of_key b evs) AGG !! b) as Hb
    by (by apply apply_all_of_key).
  split; [done|]. intros Hnone. by rewrite Hb, Hnone.
Qed.

(** X2: every call adds one to the sum of the counts, so the counts of the
    index add up to the number of events applied. *)
Theorem total_count_events (evs : list event) (AGG : gmap str aggregate) :
  (∀ ev, total_count (_apply_event_to_agg ev AGG) = total_count AGG + 1) ∧
  total_count (apply_all evs AGG) = total_count AGG + Z.of_nat (length evs) ∧
  total_count (apply_all evs ∅) = Z.of_nat (length evs).
Proof.
  assert (∀ AGG', total_count (apply_all evs AGG')
                  = total_count AGG' + Z.of_nat (length evs)) as Hsum.
  { induction evs as [|ev evs IH] using rev_ind; intros AGG'; [simpl; lia|].
    rewrite apply_all_snoc, total_count_apply, IH, length_app. simpl. lia. }
  split_and!; [intros ev; apply total_count_apply|apply Hsum|].
  rewrite Hsum. unfold total_count. by rewrite map_fold_empty.
Qed.

(** X3: the count, the last timestamp and the variants of every key are the
    same in whatever order the events are applied. *)
Theorem apply_all_any_order (evs evs' : list event) (AGG : gmap str aggregate)
    (b : str) :
  evs ≡ₚ evs' →
  count <$> apply_all evs AGG !! b = count <$> apply_all evs' AGG !! b ∧
  last_ts <$> apply_all evs AGG !! b = last_ts <$> apply_all evs' AGG !! b ∧
  variants <$> apply_all evs AGG !! b = variants <$> apply_all evs' AGG !! b.
Proof.
  intros Hperm.
  rewrite (apply_all_of_key b evs AGG AGG), (apply_all_of_key b evs' AGG AGG)
    by done.
  assert (of_key b evs ≡ₚ of_key b evs') as Hk
    by (unfold of_key; by rewrite Hperm).
  pose proof (of_key_key b evs) as Hkey. pose proof (of_key_key b evs') as Hkey'.
  destruct (AGG !! b) as [a0|] eqn:Ha0.
  - destruct (apply_all_old_key b _ AGG a0 Ha0 Hkey)
      as (a & -> & Hc & Hv & Hl).
    destruct (apply_all_old_key b _ AGG a0 Ha0 Hkey')
      as (a' & -> & Hc' & Hv' & Hl').
    simpl. split_and!; f_equal.
    + rewrite Hc, Hc'. by rewrite Hk.
    + eapply greatest_unique; [|exact Hl|exact Hl']. by rewrite Hk.
    + rewrite Hv, Hv'. by rewrite Hk.
  - destruct (decide (of_key b evs = [])) as [Hnil|Hne].
    { rewrite Hnil in Hk. apply Permutation_nil_l in Hk.
      by rewrite Hnil, Hk. }
    assert (of_key b evs' ≠ []) as Hne'.
    { intros Hnil. rewrite Hnil in Hk. by apply Permutation_nil_r in Hk. }
    destruct (apply_all_new_key b _ AGG Ha0 Hne Hkey)
      as (a & -> & Hc & Hv & Hl & _).
    destruct (apply_all_new_key b _ AGG Ha0 Hne' Hkey')
      as (a' & -> & Hc' & Hv' & Hl' & _).
    simpl. split_and!; f_equal.
    + rewrite Hc, Hc'. by rewrite Hk.
    + eapply greatest_unique; [|exact Hl|exact Hl']. by rewrite Hk.
    + rewrite Hv, Hv'. by rewrite Hk.
Qed.

(** X4: from the empty index, a key is in the index exactly when the run
    has an event of it; its variants are the raw users of these events, and
    its last timestamp and its sample host are those of one of these
    events, whose timestamp is the greatest of the key. *)
Theorem index_record_of_key (evs : list event) (b : str) :
  match apply_all evs ∅ !! b with
  | None => of_key b evs = []
  | Some a =>
      of_key b evs ≠ [] ∧
      variants a = list_to_set (user <$> of_key b evs) ∧
      greatest (last_ts a) (ts <$> of_key b evs) ∧
      ∃ ev, ev ∈ of_key b evs ∧ ts ev = last_ts a ∧ host ev = sample_host a
  end.
Proof.
  rewrite (apply_all_of_key b evs ∅ ∅) by done.
  destruct (decide (of_key b evs = [])) as [Hnil|Hne].
  { rewrite Hnil. simpl. by rewrite lookup_empty. }
  destruct (apply_all_new_key b _ ∅ (lookup_empty _) Hne (of_key_key b evs))
    as (a & -> & _ & Hv & Hl & Hs & _).
  split_and!; [done..|].
  apply list_elem_of_fmap in Hs as (ev & [= Hts Hhost] & Hev). eauto.
Qed.

(** X5: from the empty index, the hosts kept for a key are hosts of events
    of the key, never the empty host; and none is left out as long as the
    distinct hosts of the key are no more than [MAX_HOSTS_PER_USER]. *)
Theorem index_hosts_of_key (evs : list event) (b : str) :
  match apply_all evs ∅ !! b with
  | None => True
  | Some a =>
      (∀ h, h ∈ hosts a → h ≠ [] ∧ ∃ ev, ev ∈ of_key b evs ∧ host ev = h) ∧
      (Z.of_nat (size (seen_hosts (of_key b evs))) ≤ MAX_HOSTS_PER_USER →
       hosts a = seen_hosts (of_key b evs))
  end.
Proof.
  rewrite (apply_all_of_key b evs ∅ ∅) by done.
  destruct (decide (of_key b evs = [])) as [Hnil|Hne].
  { rewrite Hnil. simpl. by rewrite lookup_empty. }
  destruct (apply_all_new_key b _ ∅ (lookup_empty _) Hne (of_key_key b evs))
    as (a & -> & _ & _ & _ & _ & Hsub & Hall).
  split; [|done]. intros h Hh%Hsub. unfold seen_hosts in Hh.
  apply elem_of_list_to_set, list_elem_of_filter in Hh as [Hne' Hh].
  apply list_elem_of_fmap in Hh as (ev & -> & Hev). eauto.
Qed.
End IndexExtras.

(** ** The line parser, beyond the grammar *)

Section ParserExtras.
Context `{PyRuntime}.

(** X6: every event the parser returns has a timestamp of the exact form, a
    user and a host that are not empty and carry no white space at their
    ends, no bar in the user and no line feed in the host. *)
Theorem parse_line_well_formed (line : str) (ev : event) :
  parse_line line = Some ev → well_formed ev.
Proof. apply parse_line_shape. Qed.

(** X7: the events that come back unchanged when they are written as
    ["timestamp | user | host"] and parsed again are exactly the events
    the parser makes. *)
Theorem parse_line_format_line (ev : event) :
  well_formed ev ↔ parse_line (format_line ev) = Some ev.
Proof.
  split; [|apply parse_line_shape].
  destruct ev as [stamp u h]. unfold well_formed. simpl.
  intros (? & ? & ? & ? & ? & ? & ?). by apply parse_line_format.
Qed.

(** X8: a line whose host field is white space only is an event with the
    sentinel host when it is parsed untrimmed, as the scan and the tailer
    parse it, and no event once it is trimmed, as the paginator parses it:
    the index counts it, the history never shows it.  On every other line
    trimming changes nothing: the same event, or no event both ways. *)
Theorem parse_line_strip (line : str) (l : bytes) :
  match parse_line line with
  | Some ev =>
      (blank_host line ∧ host ev = UNKNOWN ∧
       parse_line (strip line) = None) ∨
      (¬ blank_host line ∧ parse_line (strip line) = Some ev)
  | None => ¬ blank_host line ∧ parse_line (strip line) = None
  end ∧
  match line_event l with
  | Some ev =>
      (blank_host (rstrip_lf (decode l ++ [LF])) ∧ host ev = UNKNOWN ∧
       ∀ base before_ts, selected base before_ts (decode l) = None) ∨
      (¬ blank_host (rstrip_lf (decode l ++ [LF])) ∧
       parse_line (strip (decode l)) = Some ev)
  | None =>
      ¬ blank_host (rstrip_lf (decode l ++ [LF])) ∧
      ∀ base before_ts, selected base before_ts (decode l) = None
  end.
Proof.
  assert (∀ s, match parse_line s with
               | Some ev =>
                   (blank_host s ∧ host ev = UNKNOWN ∧
                    parse_line (strip s) = None) ∨
                   (¬ blank_host s ∧ parse_line (strip s) = Some ev)
               | None => ¬ blank_host s ∧ parse_line (strip s) = None
               end) as Hstrip.
  { intros s. destruct (parse_line s) as [ev|] eqn:Hev.
    - by apply parse_line_strip_Some.
    - split; [|by apply parse_line_strip_None].
      intros [ev' Hev']%blank_host_event. congruence. }
  split; [apply Hstrip|].
  specialize (Hstrip (rstrip_lf (decode l ++ [LF]))).
  rewrite line_event_strip in Hstrip.
  assert (line_event l = parse_line (rstrip_lf (decode l ++ [LF]))) as Hline
    by reflexivity.
  rewrite Hline.
  destruct (parse_line (rstrip_lf (decode l ++ [LF]))) as [ev|].
  - destruct Hstrip as [(Hblank & Hhost & Hnone)|Hsame]; [left|by right].
    split_and!; [done|done|]. intros base before_ts. unfold selected.
    by rewrite Hnone.
  - destruct Hstrip as [Hblank Hnone]. split; [done|].
    intros base before_ts. unfold selected. by rewrite Hnone.
Qed.

(** X9: the history endpoint normalises the base it is given once more.
    When the log can be read it answers, and every event of the answer has
    the base key [base_user base]; so the events of an index key that
    itself starts with a numeric prefix, as ["2.x"], the key of ["1.2.x"],
    are never returned for it.  A log that is not there gives the empty
    list; any other exception of [open] or of a read leaves the endpoint
    as it is. *)
Theorem api_user_events_base (file : failure + bytes) (base : str) (limit : Z)
    (before_ts : option str) :
  match file with
  | inr f =>
      ∃ evs, api_user_events file base limit before_ts = Some (inr evs) ∧
        (∀ ev, ev ∈ evs → base_user (user ev) = base_user base) ∧
        (base_user base ≠ base →
         ∀ ev, ev ∈ evs → base_user (user ev) ≠ base)
  | inl FileNotFoundError =>
      api_user_events file base limit before_ts = Some (inr [])
  | inl (OtherException message) =>
      api_user_events file base limit before_ts
        = Some (inl (OtherException message))
  end ∧
  base_user (lit "1.2.x") = lit "2.x" ∧
  base_user (lit "2.x") = lit "x".
Proof.
  split; [|by split].
  destruct file as [[|message]|f]; [done|done|]. cbn [api_user_events].
  destruct (tail_user_events_spec f (base_user base) limit before_ts)
    as (raws & _ & ->).
  eexists. split; [done|].
  assert (∀ ev, ev ∈ reverse (take (Z.to_nat (1 `max` limit))
                   (omap (selected (base_user base) before_ts) raws)) →
                base_user (user ev) = base_user base) as Hkey.
  { intros ev Hev. rewrite elem_of_reverse in Hev.
    apply subseteq_take, list_elem_of_omap in Hev as (raw & _ & Hsel).
    by apply selected_Some in Hsel as (_ & ? & _). }
  split; [exact Hkey|].
  intros Hne ev Hev%Hkey. congruence.
Qed.
End ParserExtras.

(** ** The broadcaster, over its life *)

Section BroadcasterExtras.
Context {M : Type}.
Implicit Types (b : broadcaster M) (msg : M) (q : nat).

(** X10: a broadcaster built with [subscribe], [unsubscribe] and
    [broadcast] from the empty one only holds queues without bound; on
    such a broadcaster no message is ever refused: whatever is broadcast,
    the subscribers stay the same and each of them receives all the
    messages, in the order in which they were sent, after what it had.  A
    new subscriber starts with nothing, and is none of the handles given
    before. *)
Theorem broadcast_all_delivers :
  unbounded (empty_broadcaster : broadcaster M) ∧
  (∀ b, unbounded b →
     unbounded (subscribe b).2 ∧
     (∀ q, unbounded (unsubscribe q b)) ∧
     (∀ msg, unbounded (broadcast msg b))) ∧
  (∀ b msgs, unbounded b →
     subscribers (broadcast_all msgs b) = subscribers b ∧
     ∀ q, q ∈ subscribers b →
       inbox (broadcast_all msgs b) q = (λ l, l ++ msgs) <$> inbox b q) ∧
  (∀ b, (subscribe b).1 ∈ subscribers (subscribe b).2 ∧
        inbox (subscribe b).2 (subscribe b).1 = Some [] ∧
        store b !! (subscribe b).1 = None ∧
        ∀ q, q ≠ (subscribe b).1 → inbox (subscribe b).2 q = inbox b q).
Proof.
  split_and!.
  - intros q Hq. by apply elem_of_empty in Hq.
  - intros b Hb. split_and!.
    + by apply subscribe_unbounded.
    + intros q. by apply unsubscribe_unbounded.
    + intros msg. by apply broadcast_unbounded.
  - intros b msgs Hb. destruct (broadcast_all_unbounded msgs b Hb) as (? & ? & _).
    by split.
  - intros b. split_and!.
    + rewrite subscribe_subscribers. set_solver.
    + unfold inbox. by rewrite subscribe_store, decide_True.
    + apply not_elem_of_dom, subscribe_fresh.
    + intros q Hq. unfold inbox. by rewrite subscribe_store, decide_False.
Qed.
End BroadcasterExtras.

(** ** The reader and the pages of the history *)

Section HistoryExtras.
Context `{PyRuntime}.

(** X11: a file of whole lines, each followed by a line feed, that is no
    longer than the chunk is read last line first. *)
Theorem iter_file_backward_within_chunk (ls : list bytes) (chunk_size : Z) :
  Forall (λ l, bLF ∉ l) ls →
  Z.of_nat (length (join_lines ls)) ≤ chunk_size →
  _iter_file_backward (join_lines ls) chunk_size
    = Some (decode <$> reverse ls).
Proof. apply _iter_file_backward_one_chunk. Qed.

(** X12: when the matches of a base come newest first out of the reader,
    each with a timestamp of its own, the page before the first event of a
    page is the [limit] matches just before it: the two pages, one after
    the other, are the last [2 * limit] matches in ascending order, with
    nothing lost and nothing twice. *)
Theorem tail_user_events_older_page (f : bytes) (base : str) (limit : Z)
    (raws : list str) (e : event) (rest : list event) :
  1 ≤ limit →
  _iter_file_backward f (Z.shiftl 1 16) = Some raws →
  newest_first (omap (selected base None) raws) →
  tail_user_events f base limit None = Some (e :: rest) →
  ∃ older,
    tail_user_events f base limit (Some (ts e)) = Some older ∧
    older ++ e :: rest
      = reverse (take (2 * Z.to_nat limit) (omap (selected base None) raws)).
Proof. apply tail_user_events_older. Qed.
End HistoryExtras.

(** ** The index built from the end of the file *)

Section InitialIndexExtras.
Context `{PyRuntime} `{Settings} `{ScanSettings} `{PyZeroDivision}.

(** X13: over a file of whole lines [initial_index] applies, in order, the
    events of the last [scan_tail_lines] lines when this number is
    positive, and of all the lines when it is [0]; with a number that is
    [0] or no less than the number of lines it builds the index that the
    full scan builds when the scan runs to its end, that is when
    [FULL_SCAN_SLEEP_EVERY] is not [0] and [f.tell()] returns byte
    offsets.  When the file cannot be read the index is as it was. *)
Theorem initial_index_tail_lines (ls : list bytes) (n : Z)
    (AGG : gmap str aggregate) :
  Forall plain ls →
  initial_index (inr (join_lines ls)) n AGG
    = apply_all (omap line_event (slice_last n ls)) AGG ∧
  (0 < n → slice_last n ls = drop (length ls - Z.to_nat n) ls) ∧
  (n = 0 ∨ Z.of_nat (length ls) ≤ n →
   initial_index (inr (join_lines ls)) n AGG
     = apply_all (omap line_event ls) AGG ∧
   ∀ fuel env (extra : nat → bytes),
     FULL_SCAN_SLEEP_EVERY ≠ 0 →
     (∀ turn pos, tell env turn pos = pos) →
     stat_result env = inr (Z.of_nat (length (join_lines ls))) →
     open_result env = None →
     (∀ turn, visible env turn = inr (join_lines ls ++ extra turn)) →
     (length ls < fuel)%nat →
     fst <$> full_scan_file fuel env AGG
       = Some (initial_index (inr (join_lines ls)) n AGG)) ∧
  (∀ e, initial_index (inl e) n AGG = AGG).
Proof.
  intros Hplain. split_and!.
  - by apply initial_index_plain.
  - intros Hn. unfold slice_last. by rewrite (proj2 (Z.ltb_lt 0 n)).
  - intros Hall.
    assert (initial_index (inr (join_lines ls)) n AGG
            = apply_all (omap line_event ls) AGG) as Hsame.
    { rewrite initial_index_plain by done. by rewrite slice_last_all. }
    split; [done|]. intros fuel env extra Hevery Htell Hstat Hopen Hvis Hfuel.
    rewrite (full_scan_file_lines env AGG ls extra fuel) by done.
    by rewrite Hsame.
  - done.
Qed.
End InitialIndexExtras.

(** ** The tailer *)

Section TailerExtras.
Context `{PyRuntime} `{Settings} `{TailSettings}.


(** X15: when the tailer is at the end of its file and the path names
    another file, it closes its file at that turn, opens the new file at
    the next one and reads it from its first line, one line a turn. *)
Theorem tail_file_after_rotation (env : tail_env) (s : tail_state)
    (t0 i j : nat) (pos : Z) (ls : list bytes) :
  Forall plain ls →
  tail_f s = Some {| h_inode := i; h_pos := pos |} →
  tail_inode s = Some i → first_open s = false →
  Z.of_nat (length (file_bytes env t0 i)) ≤ pos → 0 ≤ pos →
  path_stat env t0 = inr j → j ≠ i →
  (∀ t, read_raises env t = None) →
  (∀ t, (t0 < t)%nat →
     path_open env t = inr j ∧ file_bytes env t j = join_lines ls) →
  tail_run env 1 t0 s = close_file s ∧
  ∀ m, (m < length ls)%nat →
    tail_run env (S (S m)) t0 s
    = reading {| h_inode := j;
                 h_pos := Z.of_nat (length (join_lines (take (S m) ls))) |}
              (handle_all (omap line_event (take (S m) ls)) s).
Proof. apply tail_run_rotated. Qed.

(** X16: a tailer that has read its file to the end does not see that the
    file is made shorter in place.  On a log of whole lines that only grows
    until the turn [T], at which the tailer has read every line of it, and
    that is never longer afterwards than it was then while the path still
    names it, nothing changes after the turn [T]: the tailer stays at the
    offset it has reached and handles no event, whatever the file holds. *)
Theorem tail_file_stalls_on_truncation (env : tail_env) (s0 : tail_state)
    (i : nat) (f0 : bytes) (ls : list bytes) (g : nat → nat) (T n : nat) :
  Forall plain ls →
  tail_f s0 = None → first_open s0 = true →
  path_open env 0%nat = inr i →
  (∀ t, path_stat env t = inr i) →
  (∀ t, read_raises env t = None) →
  (∀ t, (t ≤ T)%nat → file_bytes env t i = f0 ++ join_lines (take (g t) ls)) →
  g 0%nat = 0%nat → (∀ t, g t ≤ length ls)%nat →
  (∀ t t', (t ≤ t' ≤ T)%nat → (g t ≤ g t')%nat) →
  reached g T = g T →
  (∀ t, (T < t)%nat →
     (length (file_bytes env t i)
      ≤ length (f0 ++ join_lines (take (g T) ls)))%nat) →
  tail_run env (S T + n) 0 s0
    = reading {| h_inode := i;
                 h_pos := Z.of_nat (length (f0 ++ join_lines
                                              (take (g T) ls))) |}
              (handle_all (omap line_event (take (g T) ls)) s0).
Proof.
  intros Hplain Hf0 Hfirst Hopen Hstat Hread Hbytes Hg0 Hg _ Hend Hshort.
  by apply tail_run_truncated.
Qed.

(** X17: a run of events handled by the tailer is applied to the index in
    order and broadcast in order, each message with the base key of its
    user; the recent events are the last [MAX_RECENT_EVENTS] of those
    handled so far; and on a broadcaster whose queues have no bound every
    subscriber receives the messages of all the events. *)
Theorem tail_events_handled (evs : list event) (s : tail_state) :
  tail_agg (handle_all evs s) = apply_all evs (tail_agg s) ∧
  tail_broadcaster (handle_all evs s)
    = broadcast_all (message_of <$> evs) (tail_broadcaster s) ∧
  (∀ ev, m_base (message_of ev) = base_user (user ev)) ∧
  (0 ≤ MAX_RECENT_EVENTS →
   Z.of_nat (length (recent_events s)) ≤ MAX_RECENT_EVENTS →
   recent_events (handle_all evs s)
     = drop (length (recent_events s ++ evs) - Z.to_nat MAX_RECENT_EVENTS)
            (recent_events s ++ evs) ∧
   Z.of_nat (length (recent_events (handle_all evs s)))
     ≤ MAX_RECENT_EVENTS) ∧
  (unbounded (tail_broadcaster s) →
   ∀ q, q ∈ subscribers (tail_broadcaster s) →
     q ∈ subscribers (tail_broadcaster (handle_all evs s)) ∧
     inbox (tail_broadcaster (handle_all evs s)) q
       = (λ l, l ++ (message_of <$> evs)) <$> inbox (tail_broadcaster s) q).
Proof.
  split_and!.
  - apply handle_all_agg.
  - apply handle_all_broadcaster.
  - done.
  - intros Hmax Hs. rewrite handle_all_recent by done.
    split; [done|]. rewrite length_drop. lia.
  - intros Hb q Hq. rewrite handle_all_broadcaster.
    destruct (broadcast_all_unbounded (message_of <$> evs) _ Hb)
      as (Hsubs & Hin & _).
    split; [by rewrite Hsubs|by apply Hin].
Qed.

(** X18: a turn of the tailer handles one event at most, and changes the
    index, the recent events and the broadcaster in no other way; it
    handles none when the file cannot be opened or read. *)
Theorem tail_step_one_event (env : tail_env) (turn : nat) (s : tail_state) :
  ∃ evs, (length evs ≤ 1)%nat ∧
    same_data (tail_step env turn s) (handle_all evs s) ∧
    ((tail_f s = None ∧ ∃ e, path_open env turn = inl e) ∨
     is_Some (read_raises env turn) → evs = []).
Proof. apply tail_step_data. Qed.
End TailerExtras.

(** ** The snapshot of the users *)

Section SnapshotExtras.
Context `{PyRuntime} `{Settings} `{PyCase} `{PySetOrder}.

(** X19: the answer of the users endpoint is the start of a ranking of the
    items that pass the filters, the most recently active first: with a
    limit that is not negative it holds at most [limit] items, all the
    items found when they are no more than [limit], and no item left out is
    more recent than an item returned. *)
Theorem api_users_most_recent (entries : list (str * aggregate))
    (user_q site_q : str) (limit : Z) :
  ∃ ranked,
    ranked ≡ₚ found_items entries user_q site_q ∧
    StronglySorted more_recent ranked ∧
    api_users entries user_q site_q limit = slice_upto limit ranked ∧
    (0 ≤ limit →
     Z.of_nat (length (api_users entries user_q site_q limit)) ≤ limit ∧
     (Z.of_nat (length (found_items entries user_q site_q)) ≤ limit →
      api_users entries user_q site_q limit = ranked) ∧
     ∀ x y, x ∈ api_users entries user_q site_q limit →
            y ∈ found_items entries user_q site_q →
            y ∉ api_users entries user_q site_q limit →
            more_recent x y).
Proof.
  exists (sort_desc (found_items entries user_q site_q)).
  pose proof (sort_desc_perm (found_items entries user_q site_q)) as Hperm.
  pose proof (sort_desc_sorted (found_items entries user_q site_q)) as Hsort.
  rewrite api_users_found. split_and!; [done..|]. intros Hlimit.
  rewrite slice_upto_take by done.
  set (ranked := sort_desc (found_items entries user_q site_q)) in *.
  split_and!.
  - rewrite length_take. lia.
  - intros Hall. apply take_ge. rewrite Hperm. lia.
  - intros x y Hx Hy Hout.
    rewrite <-(take_drop (Z.to_nat limit) ranked) in Hsort.
    eapply StronglySorted_app_1_elem_of; [exact Hsort|exact Hx|].
    rewrite <-Hperm, <-(take_drop (Z.to_nat limit) ranked) in Hy.
    apply elem_of_app in Hy as [Hy|Hy]; [by destruct Hout|done].
Qed.

(** X20: over an index keyed by normalised identity, every item of the
    answer shows a record of the index under its key: its display names
    are the variants of the record, in ascending order and each once, there
    is one at least, and each of them has the key of the item as its base
    key; its hosts are sample hosts of the record. *)
Theorem api_users_display_names (AGG : gmap str aggregate)
    (entries : list (str * aggregate)) (user_q site_q : str) (limit : Z)
    (it : user_item) :
  keyed_by_base AGG →
  (∀ e, e ∈ entries → AGG !! e.1 = Some e.2) →
  it ∈ api_users entries user_q site_q limit →
  ∃ a, AGG !! it_base it = Some a ∧
    it_count it = count a ∧ it_last_ts it = last_ts a ∧
    it_display_names it ≠ [] ∧
    StronglySorted goes_up (it_display_names it) ∧
    (∀ d, d ∈ it_display_names it ↔ d ∈ variants a) ∧
    (∀ d, d ∈ it_display_names it → base_user d = it_base it) ∧
    (∀ h, h ∈ it_hosts it → h ∈ hosts a).
Proof.
  intros Hkeyed Hentries Hit. rewrite api_users_found in Hit.
  apply slice_upto_subseteq in Hit. rewrite sort_desc_perm in Hit.
  unfold found_items in Hit.
  apply list_elem_of_filter in Hit as [_ Hit].
  apply list_elem_of_fmap in Hit as ([b a] & -> & He).
  apply Hentries in He. simpl in He.
  destruct (Hkeyed b a He) as [Hne Hbase].
  exists a. unfold user_item_of. cbv zeta. cbn [it_base it_count it_last_ts
    it_display_names it_hosts fst snd].
  rewrite decide_True by done.
  assert (∀ d, d ∈ sorted (elements (variants a)) ↔ d ∈ variants a) as Hin.
  { intros d. by rewrite sorted_perm, elem_of_elements. }
  split_and!; [done..| | |exact Hin| |].
  - intros Hnil. apply Hne. apply set_eq. intros d.
    rewrite <-Hin, Hnil. set_solver.
  - apply sorted_sorted, NoDup_elements.
  - intros d Hd%Hin. by apply Hbase.
  - intros h Hh%slice_upto_subseteq.
    by rewrite listed_elements, elem_of_elements in Hh.
Qed.
End SnapshotExtras.

(** ** The stream of server-sent events *)

(** X21: the payload of a message of the live stream never holds a line
    feed or a carriage return, whatever its fields hold, so the two chunks
    of the message are one event of the stream; and the generator fails on
    a message only when one of its fields holds a surrogate or a number
    that is no code point. *)
Theorem sse_message_one_line (m : message) (inputs : list sse_input) :
  match encode_utf8 (dumps_message m) with
  | Some data =>
      plain data ∧
      sse_loop (Message m :: inputs)
        = (blit "event: message" ++ [bLF])
          :: (blit "data: " ++ data ++ [bLF; bLF])
          :: sse_loop inputs
  | None =>
      sse_loop (Message m :: inputs) = [] ∧
      ∃ c, c ∈ m_ts m ++ m_user m ++ m_base m ++ m_host m ∧
           ((1114112 ≤ c)%N ∨ in_range 55296 57343 c = true)
  end.
Proof.
  cbn [sse_loop].
  destruct (encode_utf8 (dumps_message m)) as [data|] eqn:Hdata.
  - split; [|done].
    eapply encode_utf8_plain; [apply dumps_message_printable|exact Hdata].
  - split; [done|].
    set (fields := m_ts m ++ m_user m ++ m_base m ++ m_host m).
    destruct (decide (Exists (λ c, (1114112 ≤ c)%N
                                   ∨ in_range 55296 57343 c = true) fields))
      as [Hbad|Hok].
    { apply Exists_exists in Hbad as (c & Hc & Hbad). by exists c. }
    assert (Forall (λ x, (x < 1114112)%N ∧ in_range 55296 57343 x = false)
                   fields) as Hall.
    { apply Forall_forall. intros c Hc. split.
      - destruct (N.ltb_spec c 1114112); [done|]. destruct Hok.
        apply Exists_exists. exists c. split; [done|by left].
      - destruct (in_range 55296 57343 c) eqn:Hsur; [|done]. destruct Hok.
        apply Exists_exists. exists c. split; [done|by right]. }
    apply dumps_message_valid, encode_utf8_total in Hall as [? Hall].
    congruence.
Qed.

Section TwoTasksExtras.
Context `{PyRuntime} `{Settings} `{TailSettings}
        `{ScanSettings} `{PyZeroDivision}.

(** X22: the full scan and the tailer, run turn by turn in any order on a
    log of whole lines that only grows, after each of them has opened it,
    when [FULL_SCAN_SLEEP_EVERY] is not [0] and [f.tell()] returns byte
    offsets.  The index is the result of applying, in some
    order, the events of the first lines up to the size the scan recorded,
    one line for each turn of the scan, and the events of a run of lines
    that starts where the tailer opened the file: a line between the two
    places is applied by both tasks if the tailer opened the file first and
    by none if the scan did, and every line read is applied once when the
    two places are the same.  The scan ends at the turn after its last
    line, and it leaves the recent events and the subscribers' queues to
    the tailer. *)
Theorem scan_and_tail_apply_lines (senv : scan_env) (tenv : tail_env)
    (lns : list bytes) (n_s n_t i : nat) (g : nat → nat)
    (st0 : scan_state) (s0 : tail_state) (schedule : list task) (time : nat) :
  FULL_SCAN_SLEEP_EVERY ≠ 0 →
  (∀ t pos, tell senv t pos = pos) →
  Forall plain lns →
  (∀ t t', (t ≤ t')%nat → (g t ≤ g t')%nat) →
  (∀ t, (n_s ≤ g t ∧ n_t ≤ g t ∧ g t ≤ length lns)%nat) →
  (∀ t, visible senv t = inr (join_lines (take (g t) lns))) →
  (∀ t, file_bytes tenv t i = join_lines (take (g t) lns) ∧
        path_stat tenv t = inr i ∧ read_raises tenv t = None) →
  let d := tasks_run senv tenv schedule time
                     (both_started lns n_s n_t i st0 s0) in
  ∃ (b : nat) (evs : list event),
    let by_scan :=
      omap line_event (take (Nat.min n_s (turns_of ScanTask schedule)) lns) in
    let by_tail := omap line_event (take b (drop n_t lns)) in
    (b ≤ turns_of TailTask schedule)%nat ∧ (n_t + b ≤ length lns)%nat ∧
    evs ≡ₚ by_scan ++ by_tail ∧
    tail_agg (tailing d) = apply_all evs (tail_agg s0) ∧
    (scanning d = None ↔ (n_s < turns_of ScanTask schedule)%nat) ∧
    recent_events (tailing d) = recent_events (handle_all by_tail s0) ∧
    tail_broadcaster (tailing d) = tail_broadcaster (handle_all by_tail s0) ∧
    (n_s = n_t → scanning d = None →
     evs ≡ₚ omap line_event (take (n_s + b) lns)).
Proof.
  intros Hevery Htell Hplain _ Hg Hvisible Htail d.
  destruct (tasks_run_inv senv tenv lns n_s n_t i g s0 Hevery Htell Hplain Hg
              Hvisible Htail schedule time 0%nat 0%nat []
              (both_started lns n_s n_t i st0 s0))
    as (b & evs & Hb & Hinv).
  { apply tasks_inv_start with (g := g). exact Hg. }
  fold d in Hinv.
  destruct Hinv as (Hscan & _ & _ & Hlen & Hagg & Hperm & Hrec & Hbro).
  rewrite Nat.add_0_l in Hscan, Hperm. rewrite Nat.add_0_l in Hb.
  exists b, evs. cbv zeta.
  assert (scanning d = None ↔ (n_s < turns_of ScanTask schedule)%nat) as Hend.
  { destruct (decide (turns_of ScanTask schedule ≤ n_s)%nat) as [Hk|Hk].
    - destruct Hscan as [st ->]. split; [done|lia].
    - split; [lia|done]. }
  split_and!; try done.
  intros <- Hnone. apply Hend in Hnone.
  rewrite Hperm, Nat.min_l, <-omap_app, take_take_drop by lia. done.
Qed.
End TwoTasksExtras.

(** ** Runs of the further properties *)

(** A run of X6 on a line of the log. *)
Lemma parse_line_well_formed_witness :
  parse_line (decode LINE1) = Some EVENT1 ∧ well_formed EVENT1.
Proof.
  assert (parse_line (decode LINE1) = Some EVENT1) as Hev by (by vm_compute).
  split; [exact Hev|]. exact (parse_line_well_formed _ _ Hev).
Defined.

(** A run of X8 on a line whose host field is two spaces. *)
Lemma parse_line_strip_witness :
  line_event BLANK_LINE
    = Some {| ts := T1; user := lit "1.x"; host := UNKNOWN |} ∧
  parse_line (strip (decode BLANK_LINE)) = None ∧
  blank_host (rstrip_lf (decode BLANK_LINE ++ [LF])) ∧
  ∀ base before_ts, selected base before_ts (decode BLANK_LINE) = None.
Proof.
  assert (line_event BLANK_LINE
          = Some {| ts := T1; user := lit "1.x"; host := UNKNOWN |}) as Hev
    by (by vm_compute).
  assert (parse_line (strip (decode BLANK_LINE)) = None) as Hnone
    by (by vm_compute).
  split; [exact Hev|]. split; [exact Hnone|].
  pose proof (proj2 (parse_line_strip [] BLANK_LINE)) as Hcases.
  rewrite Hev in Hcases.
  destruct Hcases as [(Hblank & _ & Hsel)|[_ Hsome]]; [done|congruence].
Defined.


(** A run of X15. *)
Lemma tail_file_after_rotation_witness :
  tail_run ROTATED_LOG 1 3 AT_END = close_file AT_END ∧
  ∀ m, (m < length [LINE2; LINE3])%nat →
    tail_run ROTATED_LOG (S (S m)) 3 AT_END
    = reading {| h_inode := 8;
                 h_pos := Z.of_nat (length (join_lines
                            (take (S m) [LINE2; LINE3]))) |}
              (handle_all (omap line_event (take (S m) [LINE2; LINE3]))
                          AT_END).
Proof.
  apply (tail_file_after_rotation ROTATED_LOG AT_END 3 7 8
           (Z.of_nat (length (join_lines [LINE1]))) [LINE2; LINE3]);
    try done.
  repeat constructor; no_such_byte.
Defined.

(** A run of X16: the two lines appended to the log are handled by the
    turn 2, and the ten turns over the emptied file change nothing. *)
Lemma tail_file_stalls_on_truncation_witness :
  tail_run TRUNCATED_LOG (3 + 10) 0 TAIL_START
    = reading {| h_inode := 7;
                 h_pos := Z.of_nat (length (join_lines [LINE1] ++ join_lines
                                              [LINE2; LINE3])) |}
              (handle_all (omap line_event [LINE2; LINE3]) TAIL_START) ∧
  (∀ t, (2 < t)%nat → file_bytes TRUNCATED_LOG t 7 = []) ∧
  recent_events (tail_run TRUNCATED_LOG (3 + 10) 0 TAIL_START)
    = [EVENT2; EVENT3].
Proof.
  split_and!; [| |by vm_compute].
  - apply (tail_file_stalls_on_truncation TRUNCATED_LOG TAIL_START 7
             (join_lines [LINE1]) [LINE2; LINE3] (λ t, Nat.min t 2) 2 10);
      try done.
    + repeat constructor; no_such_byte.
    + intros t Ht. cbn [TRUNCATED_LOG file_bytes].
      by rewrite (proj2 (Nat.leb_le t 2) Ht).
    + intros t. simpl. lia.
    + intros t t' Ht. lia.
    + intros t Ht. cbn [TRUNCATED_LOG file_bytes].
      rewrite (proj2 (Nat.leb_gt t 2)) by lia. simpl. lia.
  - intros t Ht. cbn [TRUNCATED_LOG file_bytes].
    by rewrite (proj2 (Nat.leb_gt t 2)) by lia.
Defined.

(** A run of X3: the run [run_u], and the same events last first. *)
Lemma apply_all_any_order_witness :
  run_u ≡ₚ reverse run_u ∧
  count <$> apply_all run_u ∅ !! lit "u"
    = count <$> apply_all (reverse run_u) ∅ !! lit "u" ∧
  last_ts <$> apply_all run_u ∅ !! lit "u"
    = last_ts <$> apply_all (reverse run_u) ∅ !! lit "u" ∧
  variants <$> apply_all run_u ∅ !! lit "u"
    = variants <$> apply_all (reverse run_u) ∅ !! lit "u".
Proof.
  assert (run_u ≡ₚ reverse run_u) as Hperm
    by (symmetry; apply reverse_Permutation).
  split; [exact Hperm|].
  exact (apply_all_any_order run_u (reverse run_u) ∅ (lit "u") Hperm).
Defined.

(** A run of X11 on a file of three lines. *)
Lemma iter_file_backward_within_chunk_witness :
  Forall (λ l, bLF ∉ l) [LINE1; LINE2; LINE3] ∧
  Z.of_nat (length (join_lines [LINE1; LINE2; LINE3])) ≤ Z.shiftl 1 16 ∧
  _iter_file_backward (join_lines [LINE1; LINE2; LINE3]) (Z.shiftl 1 16)
    = Some (decode <$> reverse [LINE1; LINE2; LINE3]).
Proof.
  assert (Forall (λ l, bLF ∉ l) [LINE1; LINE2; LINE3]) as Hls
    by (repeat constructor; no_such_byte).
  assert (Z.of_nat (length (join_lines [LINE1; LINE2; LINE3]))
          ≤ Z.shiftl 1 16) as Hsize by (by vm_compute).
  split_and!; [exact Hls|exact Hsize|].
  exact (iter_file_backward_within_chunk _ _ Hls Hsize).
Defined.

(** A run of X12: pages of two events over a file of three lines of one
    base. *)
Lemma tail_user_events_older_page_witness :
  tail_user_events (join_lines [LINE1; LINE2; LINE3]) (lit "x") 2 None
    = Some [EVENT2; EVENT3] ∧
  ∃ older,
    tail_user_events (join_lines [LINE1; LINE2; LINE3]) (lit "x") 2
                     (Some (ts EVENT2)) = Some older ∧
    older ++ [EVENT2; EVENT3]
      = reverse (take (2 * Z.to_nat 2)
                      (omap (selected (lit "x") None)
                            (decode <$> reverse [LINE1; LINE2; LINE3]))).
Proof.
  assert (tail_user_events (join_lines [LINE1; LINE2; LINE3]) (lit "x") 2 None
          = Some [EVENT2; EVENT3]) as Hpage by (by vm_compute).
  split; [exact Hpage|].
  apply (tail_user_events_older_page (join_lines [LINE1; LINE2; LINE3])
           (lit "x") 2 (decode <$> reverse [LINE1; LINE2; LINE3])
           EVENT2 [EVENT3]); [lia|by vm_compute| |exact Hpage].
  assert (omap (selected (lit "x") None)
               (decode <$> reverse [LINE1; LINE2; LINE3])
          = [EVENT3; EVENT2; EVENT1]) as -> by (by vm_compute).
  intros [|[|[|i]]] [|[|[|j]]] e1 e2 Hij [= <-] [= <-];
    first [lia|by vm_compute].
Defined.

(** A run of X13 on a file of three lines: the last two lines, and all
    the lines as the full scan applies them. *)
Lemma initial_index_tail_lines_witness :
  Forall plain [LINE1; JUNK; LINE3] ∧
  initial_index (inr (join_lines [LINE1; JUNK; LINE3])) 2 ∅
    = apply_all (omap line_event (slice_last 2 [LINE1; JUNK; LINE3])) ∅ ∧
  omap line_event (slice_last 2 [LINE1; JUNK; LINE3]) = [EVENT3] ∧
  fst <$> full_scan_file 4 THREE_LINES ∅
    = Some (initial_index (inr (join_lines [LINE1; JUNK; LINE3])) 0 ∅).
Proof.
  assert (Forall plain [LINE1; JUNK; LINE3]) as Hplain
    by (repeat constructor; no_such_byte).
  split_and!; [exact Hplain| |by vm_compute|].
  - exact (proj1 (initial_index_tail_lines [LINE1; JUNK; LINE3] 2 ∅ Hplain)).
  - apply (proj2 (proj1 (proj2 (proj2
             (initial_index_tail_lines [LINE1; JUNK; LINE3] 0 ∅ Hplain)))
                    (or_introl eq_refl))
             4%nat THREE_LINES (λ _, [])).
    + discriminate.
    + reflexivity.
    + reflexivity.
    + reflexivity.
    + intros turn. reflexivity.
    + simpl. lia.
Defined.

(** A run of X20 on the index that [run_u] leaves. *)
Lemma api_users_display_names_witness :
  api_users (map_to_list (apply_all run_u ∅)) [] [] 10 = [ITEM_U] ∧
  ∃ a, apply_all run_u ∅ !! it_base ITEM_U = Some a ∧
    it_count ITEM_U = count a ∧ it_last_ts ITEM_U = last_ts a ∧
    it_display_names ITEM_U ≠ [] ∧
    StronglySorted goes_up (it_display_names ITEM_U) ∧
    (∀ d, d ∈ it_display_names ITEM_U ↔ d ∈ variants a) ∧
    (∀ d, d ∈ it_display_names ITEM_U → base_user d = it_base ITEM_U) ∧
    (∀ h, h ∈ it_hosts ITEM_U → h ∈ hosts a).
Proof.
  assert (api_users (map_to_list (apply_all run_u ∅)) [] [] 10 = [ITEM_U])
    as Hanswer by (by vm_compute).
  split; [exact Hanswer|].
  apply (api_users_display_names (apply_all run_u ∅)
           (map_to_list (apply_all run_u ∅)) [] [] 10 ITEM_U).
  - do 3 apply keyed_by_base_apply. intros b a Hb.
    by rewrite lookup_empty in Hb.
  - intros [b a] He. by apply elem_of_map_to_list in He.
  - rewrite Hanswer. apply list_elem_of_singleton. reflexivity.
Defined.

(** A run of X22: the log [GROWING_LOG], which both tasks open when it
    holds its first line; every line is counted once. *)
Lemma scan_and_tail_apply_lines_witness :
  (∃ (b : nat) (evs : list event),
     (b ≤ turns_of TailTask TURNS)%nat ∧
     (1 + b ≤ length [LINE1; LINE2; LINE3])%nat ∧
     evs ≡ₚ omap line_event
              (take (Nat.min 1 (turns_of ScanTask TURNS))
                    [LINE1; LINE2; LINE3])
            ++ omap line_event (take b (drop 1 [LINE1; LINE2; LINE3])) ∧
     tail_agg (tailing (tasks_run GROWING_SCAN GROWING_LOG TURNS 0
                          (both_started [LINE1; LINE2; LINE3] 1 1 7
                                        SCAN_START TAIL_START)))
       = apply_all evs ∅) ∧
  scanning (tasks_run GROWING_SCAN GROWING_LOG TURNS 0
              (both_started [LINE1; LINE2; LINE3] 1 1 7
                            SCAN_START TAIL_START)) = None ∧
  count <$> tail_agg (tailing (tasks_run GROWING_SCAN GROWING_LOG TURNS 0
                                 (both_started [LINE1; LINE2; LINE3] 1 1 7
                                               SCAN_START TAIL_START)))
            !! lit "x" = Some 3 ∧
  recent_events (tailing (tasks_run GROWING_SCAN GROWING_LOG TURNS 0
                            (both_started [LINE1; LINE2; LINE3] 1 1 7
                                          SCAN_START TAIL_START)))
    = [EVENT2; EVENT3].
Proof.
  split_and!; [|by vm_compute..].
  destruct (scan_and_tail_apply_lines GROWING_SCAN GROWING_LOG
              [LINE1; LINE2; LINE3] 1 1 7 (λ t, S (Nat.min t 2))
              SCAN_START TAIL_START TURNS 0)
    as (b & evs & Hb & Hlen & Hperm & Hagg & _).
  - discriminate.
  - reflexivity.
  - repeat constructor; no_such_byte.
  - intros t t' Ht. lia.
  - intros t. simpl. lia.
  - intros t. reflexivity.
  - intros t. split_and!; reflexivity.
  - exists b, evs. split_and!; done.
Defined.
